(** * Security-metadata extractor of the Solana MCP server

    A shallow embedding of [src/tools/security.ts] (account-layout
    resolution, byte decoding, the regular-expression cascade, the field
    normalizer and the heuristic scanner) and of the handler of
    [src/actions/security/getSecurityTxt.ts], with the properties the
    specification states about them. *)

From Stdlib Require Import NArith ZArith List Bool Ascii String Lia.
From Stdlib.Strings Require Byte.
From stdpp Require Import base option list countable gmap.


Local Open Scope N_scope.

(** ** JavaScript strings

    A JavaScript string is a sequence of UTF-16 code units; the regular
    expressions of the source carry no [u] flag, so they work on code
    units. *)

Abbreviation jsstring := (list N).

Definition ch (a : ascii) : N := N_of_ascii a.

Definition str (s : string) : jsstring := map ch (list_ascii_of_string s).

Definition LF : N := 10.

(** [WhiteSpace] and [LineTerminator] of ECMAScript: what [\s] matches and
    what [String.prototype.trim] strips. *)
Definition isWhiteSpace (c : N) : bool :=
  ((9 <=? c) && (c <=? 13)) || (c =? 32) || (c =? 160) || (c =? 5760)
  || ((8192 <=? c) && (c <=? 8202)) || (c =? 8232) || (c =? 8233)
  || (c =? 8239) || (c =? 8287) || (c =? 12288) || (c =? 65279).

(** [LineTerminator]: what [.] does not match. *)
Definition isLineTerminator (c : N) : bool :=
  (c =? 10) || (c =? 13) || (c =? 8232) || (c =? 8233).

Definition isAscii (c : N) : bool := c <? 128.
Definition isUpperAZ (c : N) : bool := (65 <=? c) && (c <=? 90).
Definition isLowerAZ (c : N) : bool := (97 <=? c) && (c <=? 122).
Definition asciiLower (c : N) : N := if isUpperAZ c then c + 32 else c.
Definition asciiUpper (c : N) : N := if isLowerAZ c then c - 32 else c.

Fixpoint trimStart (s : jsstring) : jsstring :=
  match s with
  | c :: s' => if isWhiteSpace c then trimStart s' else s
  | [] => []
  end.

Definition trimEnd (s : jsstring) : jsstring := rev (trimStart (rev s)).

(** [String.prototype.trim]. *)
Definition trim (s : jsstring) : jsstring := trimEnd (trimStart s).

(** [String.prototype.split] with a one-character separator. *)
Fixpoint split (sep : N) (s : jsstring) : list jsstring :=
  match s with
  | [] => [[]]
  | c :: s' =>
      if c =? sep then [] :: split sep s'
      else match split sep s' with
           | l :: ls => (c :: l) :: ls
           | [] => [[c]]
           end
  end.

(** [String.prototype.startsWith] with a one-character argument. *)
Definition startsWith (c : N) (s : jsstring) : bool :=
  match s with
  | x :: _ => x =? c
  | [] => false
  end.

(** ** Regular expressions

    The fragment of ECMAScript regular expressions the source uses:
    single-character atoms (literals, classes, negated classes, [.]), the
    assertions [^] and [$] (no [m] flag), sequence, alternation, capture
    groups, and greedy or lazy quantifiers over a single-character atom. *)

Inductive cset : Type :=
| CChar (c : N)
| CRange (lo hi : N)
| CWhite
| CNonWhite
| CUnion (a b : cset).

Inductive atom : Type :=
| AClass (negated : bool) (cs : cset)
| ADot.

Inductive regex : Type :=
| Eps
| Atom (a : atom)
| Bol
| Eol
| Seq (r1 r2 : regex)
| Alt (r1 r2 : regex)
| Rep (greedy : bool) (lo : nat) (hi : option nat) (a : atom)
| Group (n : nat) (r : regex).

Fixpoint inCset (cs : cset) (c : N) : bool :=
  match cs with
  | CChar x => c =? x
  | CRange lo hi => (lo <=? c) && (c <=? hi)
  | CWhite => isWhiteSpace c
  | CNonWhite => negb (isWhiteSpace c)
  | CUnion a b => inCset a c || inCset b c
  end.

(** Membership up to [Canonicalize] under the [i] flag.  Without the [u]
    flag a code unit of 128 or more never canonicalizes to an ASCII one, so
    for the classes of the source (ASCII members, or everything) the case
    variants to try are the ASCII ones. *)
Definition inCsetCI (ci : bool) (cs : cset) (c : N) : bool :=
  if ci then inCset cs c || inCset cs (asciiUpper c) || inCset cs (asciiLower c)
  else inCset cs c.

Definition atomTest (ci : bool) (a : atom) (c : N) : bool :=
  match a with
  | AClass negated cs => xorb negated (inCsetCI ci cs c)
  | ADot => negb (isLineTerminator c)
  end.

Abbreviation captures := (list (nat * jsstring)).

(** The state a continuation receives: the input that remains, the index
    reached, the captures so far.  A successful match ends with the same. *)
Definition MatchResult : Type := jsstring * nat * captures.
Definition Continuation : Type := jsstring -> nat -> captures -> option MatchResult.

Definition predHi (hi : option nat) : option nat :=
  match hi with
  | Some n => Some (Nat.pred n)
  | None => None
  end.

(** RepeatMatcher for a single-character atom. *)
Fixpoint repeatMatcher (test : N -> bool) (greedy : bool) (lo : nat)
    (hi : option nat) (k : Continuation) (s : jsstring) (i : nat)
    (c : captures) {struct s} : option MatchResult :=
  match lo with
  | S lo' =>
      match s with
      | x :: s' =>
          if test x then repeatMatcher test greedy lo' (predHi hi) k s' (S i) c
          else None
      | [] => None
      end
  | O =>
      match hi with
      | Some O => k s i c
      | _ =>
          if greedy then
            match s with
            | x :: s' =>
                if test x then
                  match repeatMatcher test greedy O (predHi hi) k s' (S i) c with
                  | Some r => Some r
                  | None => k s i c
                  end
                else k s i c
            | [] => k s i c
            end
          else
            match k s i c with
            | Some r => Some r
            | None =>
                match s with
                | x :: s' =>
                    if test x then repeatMatcher test greedy O (predHi hi) k s' (S i) c
                    else None
                | [] => None
                end
            end
      end
  end.

(** The backtracking matcher, in continuation-passing style as in the
    ECMAScript specification. *)
Fixpoint matcher (ci : bool) (r : regex) (k : Continuation) (s : jsstring)
    (i : nat) (c : captures) : option MatchResult :=
  match r with
  | Eps => k s i c
  | Atom a =>
      match s with
      | x :: s' => if atomTest ci a x then k s' (S i) c else None
      | [] => None
      end
  | Bol => if Nat.eqb i 0 then k s i c else None
  | Eol => match s with [] => k s i c | _ :: _ => None end
  | Seq r1 r2 => matcher ci r1 (fun s' i' c' => matcher ci r2 k s' i' c') s i c
  | Alt r1 r2 =>
      match matcher ci r1 k s i c with
      | Some y => Some y
      | None => matcher ci r2 k s i c
      end
  | Rep greedy lo hi a => repeatMatcher (atomTest ci a) greedy lo hi k s i c
  | Group n r =>
      matcher ci r (fun s' i' c' => k s' i' ((n, firstn (i' - i) s) :: c')) s i c
  end.

Definition accept : Continuation := fun s i c => Some (s, i, c).

(** A match found by the search: where it starts, the matched text, the
    input after it, the index after it, the captures. *)
Record Match : Type := mkMatch {
  m_index : nat;
  m_text : jsstring;
  m_rest : jsstring;
  m_end : nat;
  m_caps : captures
}.

(** RegExpBuiltinExec: the first index, from [i] on, at which the pattern
    matches; [s] is the input from index [i]. *)
Fixpoint search (ci : bool) (r : regex) (s : jsstring) (i : nat) : option Match :=
  match matcher ci r accept s i [] with
  | Some (rest, e, c) => Some (mkMatch i (firstn (e - i) s) rest e c)
  | None =>
      match s with
      | _ :: s' => search ci r s' (S i)
      | [] => None
      end
  end.

Fixpoint lookupCap (n : nat) (c : captures) : option jsstring :=
  match c with
  | (k, v) :: c' => if Nat.eqb k n then Some v else lookupCap n c'
  | [] => None
  end.

(** [m[n]] of a match array, for [n >= 1]. *)
Definition group (n : nat) (mt : Match) : option jsstring := lookupCap n (m_caps mt).

(** [text.match(re)] for a pattern without the [g] flag. *)
Definition jsMatch (ci : bool) (r : regex) (text : jsstring) : option Match :=
  search ci r text 0.

(** [text.match(re)] for a pattern with the [g] flag: the matched texts,
    left to right, each search resuming where the previous match ended (one
    further after an empty match). *)
Fixpoint matchAllFrom (fuel : nat) (ci : bool) (r : regex) (s : jsstring) (i : nat)
    : list jsstring :=
  match fuel with
  | O => []
  | S fuel' =>
      match search ci r s i with
      | None => []
      | Some mt =>
          m_text mt ::
            (if Nat.eqb (m_end mt) (m_index mt) then
               match m_rest mt with
               | _ :: rest' => matchAllFrom fuel' ci r rest' (S (m_end mt))
               | [] => []
               end
             else matchAllFrom fuel' ci r (m_rest mt) (m_end mt))
      end
  end.

Definition jsMatchAll (ci : bool) (r : regex) (text : jsstring) : list jsstring :=
  matchAllFrom (S (length text)) ci r text 0.

(** [text.replace(re, f)] for a pattern with the [g] flag and a callback. *)
Fixpoint replaceFrom (fuel : nat) (ci : bool) (r : regex)
    (f : Match -> jsstring) (s : jsstring) (i : nat) : jsstring :=
  match fuel with
  | O => s
  | S fuel' =>
      match search ci r s i with
      | None => s
      | Some mt =>
          firstn (m_index mt - i) s ++ f mt ++
            (if Nat.eqb (m_end mt) (m_index mt) then
               match m_rest mt with
               | x :: rest' => x :: replaceFrom fuel' ci r f rest' (S (m_end mt))
               | [] => []
               end
             else replaceFrom fuel' ci r f (m_rest mt) (m_end mt))
      end
  end.

Definition jsReplaceAll (ci : bool) (r : regex) (f : Match -> jsstring)
    (text : jsstring) : jsstring :=
  replaceFrom (S (length text)) ci r f text 0.

(** *** Notation for writing the patterns of the source *)

Definition chr (a : ascii) : regex := Atom (AClass false (CChar (ch a))).

Definition lit (s : string) : regex :=
  fold_right (fun a r => Seq (chr a) r) Eps (list_ascii_of_string s).

Definition rng (a b : ascii) : cset := CRange (ch a) (ch b).

Fixpoint oneOf (cs : list cset) : cset :=
  match cs with
  | [] => CRange 1 0
  | [c] => c
  | c :: cs' => CUnion c (oneOf cs')
  end.

Declare Scope regex_scope.
Delimit Scope regex_scope with re.
Infix "·" := Seq (at level 41, right associativity) : regex_scope.
Infix "∣" := Alt (at level 51, right associativity) : regex_scope.

(** ** Byte buffers and [TextDecoder]

    [new TextDecoder().decode(buffer)]: the UTF-8 decoder of the Encoding
    standard in replacement mode (never fails), the byte order mark
    dropped, the code points written as UTF-16 code units. *)

Abbreviation Buffer := (list Byte.byte).

Definition bytesOf (s : string) : Buffer := list_byte_of_string s.

Definition REPLACEMENT : N := 65533.

(** What the decoder does with a byte when no sequence is pending: it
    emits a code point, or starts a sequence (code point so far, bytes
    still needed, bounds of the next byte). *)
Definition utf8Lead (b : N) : N + (N * nat * N * N) :=
  if b <=? 127 then inl b
  else if (194 <=? b) && (b <=? 223) then inr (N.land b 31, 1%nat, 128, 191)
  else if (224 <=? b) && (b <=? 239) then
    inr (N.land b 15, 2%nat, if b =? 224 then 160 else 128, if b =? 237 then 159 else 191)
  else if (240 <=? b) && (b <=? 244) then
    inr (N.land b 7, 3%nat, if b =? 240 then 144 else 128, if b =? 244 then 143 else 191)
  else inl REPLACEMENT.

Fixpoint utf8Decode (bs : list N) (cp : N) (needed : nat) (lower upper : N)
    : list N :=
  match bs with
  | [] => match needed with O => [] | S _ => [REPLACEMENT] end
  | b :: bs' =>
      match needed with
      | O =>
          match utf8Lead b with
          | inl c => c :: utf8Decode bs' 0 O 128 191
          | inr (c, n, lo, hi) => utf8Decode bs' c n lo hi
          end
      | S n =>
          if (lower <=? b) && (b <=? upper) then
            let cp' := N.lor (N.shiftl cp 6) (N.land b 63) in
            match n with
            | O => cp' :: utf8Decode bs' 0 O 128 191
            | S _ => utf8Decode bs' cp' n 128 191
            end
          else
            (* the sequence is broken: a replacement character, and the
               byte is read again with no sequence pending *)
            REPLACEMENT ::
              match utf8Lead b with
              | inl c => c :: utf8Decode bs' 0 O 128 191
              | inr (c, n', lo, hi) => utf8Decode bs' c n' lo hi
              end
      end
  end.

Definition dropBOM (cps : list N) : list N :=
  match cps with
  | c :: cps' => if c =? 65279 then cps' else cps
  | [] => []
  end.

Definition utf16 (cp : N) : jsstring :=
  if cp <? 65536 then [cp]
  else [55296 + N.shiftr (cp - 65536) 10; 56320 + N.land (cp - 65536) 1023].

Definition decode (buffer : Buffer) : jsstring :=
  flat_map utf16 (dropBOM (utf8Decode (map Byte.to_N buffer) 0 O 128 191)).

(** ** The patterns of [security.ts] *)

Local Open Scope regex_scope.

Definition nl : regex := Atom (AClass false (CChar LF)).
(** [[\s\S]] *)
Definition anyChar : atom := AClass false (CUnion CWhite CNonWhite).
(** [[^\n]] *)
Definition notNewline : atom := AClass true (CChar LF).
(** [[a-zA-Z0-9._%+-]] *)
Definition localPart : atom :=
  AClass false (oneOf [rng "a" "z"; rng "A" "Z"; rng "0" "9"; CChar (ch ".");
                       CChar (ch "_"); CChar (ch "%"); CChar (ch "+"); CChar (ch "-")]).
(** [[a-zA-Z0-9.-]] *)
Definition domainPart : atom :=
  AClass false (oneOf [rng "a" "z"; rng "A" "Z"; rng "0" "9"; CChar (ch "."); CChar (ch "-")]).
(** [[a-zA-Z]] *)
Definition letter : atom := AClass false (oneOf [rng "a" "z"; rng "A" "Z"]).

(** [/(?:^|\n)# ?security\.txt(?:\n|$)([\s\S]*?)(?:\n\n|\n#|$)/i] *)
Definition standardRe : regex :=
  (Bol ∣ nl) · chr "#" · Rep true 0 (Some 1%nat) (AClass false (CChar (ch " ")))
  · lit "security.txt" · (nl ∣ Eol)
  · Group 1 (Rep false 0 None anyChar)
  · ((nl · nl) ∣ (nl · chr "#") ∣ Eol).

(** [/-----BEGIN SECURITY\.TXT-----([\s\S]*?)-----END SECURITY\.TXT-----/i] *)
Definition delimitedRe : regex :=
  lit "-----BEGIN SECURITY.TXT-----"
  · Group 1 (Rep false 0 None anyChar)
  · lit "-----END SECURITY.TXT-----".

(** [/Contact: ([^\n]+)/i] *)
Definition contactRe : regex :=
  lit "Contact: " · Group 1 (Rep true 1 None notNewline).

(** [/Security-Contact: ([^\n]+)/i] *)
Definition securityContactRe : regex :=
  lit "Security-Contact: " · Group 1 (Rep true 1 None notNewline).

(** [[a-zA-Z0-9.-]+\.[a-zA-Z]{2,}] *)
Definition domainRe : regex :=
  Rep true 1 None domainPart · chr "." · Rep true 2 None letter.

(** [/mailto:([a-zA-Z0-9._%+-]+@[a-zA-Z0-9.-]+\.[a-zA-Z]{2,})/i] *)
Definition mailtoFieldRe : regex :=
  lit "mailto:" · Group 1 (Rep true 1 None localPart · chr "@" · domainRe).

(** [/^([^:]+):\s*(.{0,})$/], the last group written [.] starred in the source *)
Definition lineRe : regex :=
  Bol · Group 1 (Rep true 1 None (AClass true (CChar (ch ":")))) · chr ":"
  · Rep true 0 None (AClass false CWhite) · Group 2 (Rep true 0 None ADot) · Eol.

(** [/-([a-z])/g] *)
Definition kebabRe : regex :=
  chr "-" · Group 1 (Atom (AClass false (rng "a" "z"))).

(** [/security@[a-zA-Z0-9.-]+\.[a-zA-Z]{2,}/g] *)
Definition securityEmailRe : regex := lit "security@" · domainRe.

(** [/mailto:[a-zA-Z0-9._%+-]+@[a-zA-Z0-9.-]+\.[a-zA-Z]{2,}/g] *)
Definition mailtoRe : regex :=
  lit "mailto:" · Rep true 1 None localPart · chr "@" · domainRe.

(** [/https?:\/\/[a-zA-Z0-9.-]+\.[a-zA-Z]{2,}\/<path>/g] *)
Definition urlRe (path : string) : regex :=
  lit "http" · Rep true 0 (Some 1%nat) (AClass false (CChar (ch "s"))) · lit "://"
  · domainRe · chr "/" · lit path.

(** [/-----BEGIN PGP PUBLIC KEY BLOCK-----([\s\S]*?)-----END PGP PUBLIC KEY BLOCK-----/g] *)
Definition pgpRe : regex :=
  lit "-----BEGIN PGP PUBLIC KEY BLOCK-----"
  · Group 1 (Rep false 0 None anyChar)
  · lit "-----END PGP PUBLIC KEY BLOCK-----".

Local Close Scope regex_scope.

(** ** [SecurityTxtInfo]

    An object used as a map from field names to strings.  Assigning a
    string to the property [__proto__] of an ordinary object goes to the
    setter inherited from [Object.prototype], which ignores it; every other
    name becomes (or overwrites) an own property. *)

Abbreviation SecurityTxtInfo := (gmap jsstring jsstring).

Definition setProperty (k v : jsstring) (o : SecurityTxtInfo) : SecurityTxtInfo :=
  if decide (k = str "__proto__") then o else <[k := v]> o.

(** [Object.keys(o).length === 0] *)
Definition noKeys (o : SecurityTxtInfo) : bool := bool_decide (o = ∅).

(** [s] is the empty string, which a condition takes for false. *)
Definition falsy (s : jsstring) : bool :=
  match s with [] => true | _ :: _ => false end.

(** [a || b] on the results of [match]. *)
Definition orElse {A : Type} (a b : option A) : option A :=
  match a with Some _ => a | None => b end.

Section Extractor.

(** [String.prototype.toLowerCase] follows the Unicode case tables, which
    are no part of the repository: they are a parameter, consulted only
    for a string holding a code unit of 128 or more.  On an ASCII string
    the conversion lowers [A]-[Z] and nothing else. *)
Variable unicodeLower : jsstring -> jsstring.

Definition toLowerCase (s : jsstring) : jsstring :=
  if forallb isAscii s then map asciiLower s else unicodeLower s.

(** [letter.toUpperCase()] in the callback of [replace]: [letter] is the
    one character the class [[a-z]] matched. *)
Definition toUpperCase (s : jsstring) : jsstring := map asciiUpper s.

(** The body of the loop of [parseSecurityTxt].  Both groups of the line
    pattern take part in every match of it, and the group of [kebabRe] in
    every match of that one. *)
Definition parseLine (result : SecurityTxtInfo) (line : jsstring) : SecurityTxtInfo :=
  if falsy (trim line) || startsWith (ch "#") (trim line) then result
  else
    match jsMatch false lineRe line with
    | Some mt =>
        match group 1 mt, group 2 mt with
        | Some field, Some value =>
            let fieldName := toLowerCase (trim field) in
            let camelCaseField :=
              jsReplaceAll false kebabRe
                (fun m => toUpperCase (default [] (group 1 m))) fieldName in
            setProperty camelCaseField (trim value) result
        | _, _ => result
        end
    | None => result
    end.

Definition parseSecurityTxt (content : jsstring) : SecurityTxtInfo :=
  fold_left parseLine (split LF content) ∅.

Definition PGP_FOUND : jsstring := str "PGP key found in program data".

Definition extractSecurityInfoFromText (text : jsstring) : SecurityTxtInfo :=
  let contactMatches :=
    jsMatchAll false securityEmailRe text
    ++ jsMatchAll false mailtoRe text
    ++ jsMatchAll false (urlRe "security") text
    ++ jsMatchAll false (urlRe "responsible-disclosure") text
    ++ jsMatchAll false (urlRe "vulnerability") text in
  let result : SecurityTxtInfo := ∅ in
  let result :=
    match contactMatches with
    | first :: _ => setProperty (str "contact") first result
    | [] => result
    end in
  let pgpMatches := jsMatchAll false pgpRe text in
  match pgpMatches with
  | _ :: _ => setProperty (str "encryption") PGP_FOUND result
  | [] => result
  end.

(** [m && m[1]]: the first group of a match, unless there is no match
    or the group is the empty string. *)
Definition truthyGroup (m : option Match) : option jsstring :=
  match m with
  | Some mt =>
      match group 1 mt with
      | Some g => if falsy g then None else Some g
      | None => None
      end
  | None => None
  end.

(** The cascade of [findAndParseSecurityTxt] on the decoded text.  Reading
    group 1 of a match in which it took no part would raise a TypeError,
    which the [catch] of the function turns into the empty object. *)
Definition findInText (dataString : jsstring) : SecurityTxtInfo :=
  match truthyGroup (jsMatch true standardRe dataString) with
  | Some block => parseSecurityTxt block
  | None =>
      match truthyGroup (jsMatch true delimitedRe dataString) with
      | Some block => parseSecurityTxt block
      | None =>
          let fieldMatch :=
            orElse (jsMatch true contactRe dataString)
              (orElse (jsMatch true securityContactRe dataString)
                 (jsMatch true mailtoFieldRe dataString)) in
          match fieldMatch with
          | Some fm =>
              match group 1 fm with
              | Some g => setProperty (str "contact") (trim g) ∅
              | None => ∅
              end
          | None => extractSecurityInfoFromText dataString
          end
      end
  end.

Definition findAndParseSecurityTxt (programData : Buffer) : SecurityTxtInfo :=
  let dataString := decode programData in
  findInText dataString.

End Extractor.

(** ** Accounts and the connection *)

(** A [PublicKey] wraps the number its 32 bytes spell, big-endian; two keys
    are [equals] when the numbers are. *)
Definition PublicKey : Type := N.

Inductive Error : Type :=
| ProgramAccountNotFound
| ProgramDataAccountNotFound
| NotValidUpgradeableProgram
| InvalidPublicKeyInput
| NonBase58Character
| FetchFailed (reason : string).

(** [error.message] *)
Definition message (e : Error) : string :=
  match e with
  | ProgramAccountNotFound => "Program account not found"
  | ProgramDataAccountNotFound => "Program data account not found"
  | NotValidUpgradeableProgram => "Not a valid upgradeable program account"
  | InvalidPublicKeyInput => "Invalid public key input"
  | NonBase58Character => "Non-base58 character"
  | FetchFailed reason => reason
  end.

(** Computations that may throw. *)
Definition Throws (A : Type) : Type := Error + A.
Definition ret {A : Type} (a : A) : Throws A := inr a.
Definition throw {A : Type} (e : Error) : Throws A := inl e.
Definition bind {A B : Type} (x : Throws A) (f : A -> Throws B) : Throws B :=
  match x with
  | inl e => inl e
  | inr a => f a
  end.
Notation "'let*' x ':=' e 'in' k" := (bind e (fun x => k))
  (at level 10, x name, e at level 100, k at level 200).

Definition bigEndian (bs : list N) : N := fold_left (fun acc b => acc * 256 + b) bs 0.

(** [BN.byteLength]: the bytes the number needs. *)
Definition byteLength (n : N) : N := (N.size n + 7) / 8.

(** [new PublicKey(bytes)] *)
Definition publicKeyOfBytes (bs : Buffer) : Throws PublicKey :=
  let bn := bigEndian (map Byte.to_N bs) in
  if 32 <? byteLength bn then throw InvalidPublicKeyInput else ret bn.

Definition base58Alphabet : list ascii :=
  list_ascii_of_string "123456789ABCDEFGHJKLMNPQRSTUVWXYZabcdefghijkmnopqrstuvwxyz".

Fixpoint indexIn (a : ascii) (l : list ascii) (i : N) : option N :=
  match l with
  | [] => None
  | x :: l' => if Ascii.eqb a x then Some i else indexIn a l' (i + 1)
  end.

Fixpoint base58Digits (s : list ascii) : Throws (list N) :=
  match s with
  | [] => ret []
  | a :: s' =>
      match indexIn a base58Alphabet 0 with
      | None => throw NonBase58Character
      | Some d => let* ds := base58Digits s' in ret (d :: ds)
      end
  end.

Fixpoint leadingZeros (ds : list N) : N :=
  match ds with
  | d :: ds' => if d =? 0 then 1 + leadingZeros ds' else 0
  | [] => 0
  end.

(** [new PublicKey(text)]: the text is decoded from base 58 and has to
    give exactly 32 bytes. *)
Definition publicKeyOfString (s : string) : Throws PublicKey :=
  let* ds := base58Digits (list_ascii_of_string s) in
  let bn := fold_left (fun acc d => acc * 58 + d) ds 0 in
  if leadingZeros ds + byteLength bn =? 32 then ret bn
  else throw InvalidPublicKeyInput.

Definition BPF_UPGRADEABLE_LOADER_ID : PublicKey :=
  Eval vm_compute in
    match publicKeyOfString "BPFLoaderUpgradeab1e11111111111111111111111" with
    | inr k => k
    | inl _ => 0
    end.

Record AccountInfo : Type := mkAccount {
  owner : PublicKey;
  data : Buffer
}.

(** [connection.getAccountInfo]: the account, [None] when there is none; the
    request itself may fail. *)
Definition Connection : Type := PublicKey -> Throws (option AccountInfo).

(** [buffer.slice(a, b)] and [buffer.slice(a)] *)
Definition slice {A : Type} (a b : nat) (l : list A) : list A := firstn (b - a) (skipn a l).

Section Resolver.

Variable unicodeLower : jsstring -> jsstring.

(** The bytes that [getSecurityTxtInfo] hands to the search. *)
Definition resolveProgramData (programId : PublicKey) (connection : Connection)
    : Throws Buffer :=
  let* programAccount := connection programId in
  match programAccount with
  | None => throw ProgramAccountNotFound
  | Some programAccount =>
      if N.eqb (owner programAccount) BPF_UPGRADEABLE_LOADER_ID then
        let accountType := slice 0 4 (data programAccount) in
        match accountType with
        | Byte.x02 :: _ =>
            let* programDataAddress := publicKeyOfBytes (slice 4 36 (data programAccount)) in
            let* programDataAccount := connection programDataAddress in
            match programDataAccount with
            | None => throw ProgramDataAccountNotFound
            | Some programDataAccount => ret (skipn 8 (data programDataAccount))
            end
        | _ => throw NotValidUpgradeableProgram
        end
      else ret (data programAccount)
  end.

Definition getSecurityTxtInfo (programId : PublicKey) (connection : Connection)
    : Throws SecurityTxtInfo :=
  let* programData := resolveProgramData programId connection in
  ret (findAndParseSecurityTxt unicodeLower programData).

(** What the handler of [GET_SECURITY_TXT] returns. *)
Record Response : Type := mkResponse {
  status : string;
  info : option SecurityTxtInfo;
  response_message : string
}.

Definition handler (connection : Connection) (programId : string) : Response :=
  match
    (let* programPubkey := publicKeyOfString programId in
     getSecurityTxtInfo programPubkey connection)
  with
  | inr securityInfo =>
      if noKeys securityInfo then
        mkResponse "warning" None "No security.txt information found for this program"
      else
        mkResponse "success" (Some securityInfo)
          "Successfully retrieved security.txt information"
  | inl error =>
      mkResponse "error" None
        (String.append "Failed to get security.txt info: " (message error))
  end.

End Resolver.


(** ** The vocabulary of the specification *)

Local Open Scope regex_scope.

(** *** Errors and account layout *)

(** The classes of failure the specification names. *)
Inductive ErrorKind : Type :=
| AccountNotFound
| InvalidAccountLayout
| InvalidInput
| TransportFailure.

Definition kind (e : Error) : ErrorKind :=
  match e with
  | ProgramAccountNotFound | ProgramDataAccountNotFound => AccountNotFound
  | NotValidUpgradeableProgram => InvalidAccountLayout
  | InvalidPublicKeyInput | NonBase58Character => InvalidInput
  | FetchFailed _ => TransportFailure
  end.

(** The first four bytes of the data read as a little-endian number, the
    account-type tag; [None] when the data is shorter. *)
Definition accountTypeTag (d : Buffer) : option N :=
  match d with
  | b0 :: b1 :: b2 :: b3 :: _ =>
      Some (Byte.to_N b0 + 256 * Byte.to_N b1 + 65536 * Byte.to_N b2
            + 16777216 * Byte.to_N b3)
  | _ => None
  end.

(** The identity, for the Unicode case table where only ASCII text is
    lowered. *)
Definition idLower : jsstring -> jsstring := fun s => s.

(** *** Matching, in terms of the text *)

(** Whether the code unit [x] matches the literal character [a]. *)
Definition chrTest (ci : bool) (a x : N) : bool := atomTest ci (AClass false (CChar a)) x.

(** The text after the literal [p], when the text begins with it. *)
Fixpoint stripPrefix (ci : bool) (p s : jsstring) : option jsstring :=
  match p with
  | [] => Some s
  | a :: p' =>
      match s with
      | x :: s' => if chrTest ci a x then stripPrefix ci p' s' else None
      | [] => None
      end
  end.

(** Characters the patterns name. *)
Definition HASH : N := ch "#".
Definition SPACE : N := ch " ".

(** The end of the standard pattern, [(?:\n\n|\n#|$)]. *)
Definition blockEndRe : regex := (nl · nl) ∣ (nl · chr "#") ∣ Eol.

(** The input is over, or goes on with an empty line or a comment line. *)
Definition blockEnds (s : jsstring) : bool :=
  match s with
  | [] => true
  | x :: s' =>
      (x =? LF) && match s' with
                   | y :: _ => (y =? LF) || (y =? HASH)
                   | [] => false
                   end
  end.

(** The text up to the first place where [blockEnds] holds. *)
Fixpoint blockOf (s : jsstring) : jsstring :=
  match s with
  | [] => []
  | x :: s' => if blockEnds s then [] else x :: blockOf s'
  end.

(** The text after a header and its newline, when [s] begins with a header:
    [#], at most one space, [security.txt] in any case, a newline or the
    end. *)
Definition headerRest (s : jsstring) : option jsstring :=
  match s with
  | x :: s1 =>
      if x =? HASH then
        match stripPrefix true (str "security.txt")
                (match s1 with
                 | y :: s2 => if y =? SPACE then s2 else s1
                 | [] => s1
                 end) with
        | Some [] => Some []
        | Some (z :: s4) => if z =? LF then Some s4 else None
        | None => None
        end
      else None
  | [] => None
  end.

(** The standard pattern without its first alternation. *)
Definition afterAnchorRe : regex :=
  chr "#" · Rep true 0 (Some 1%nat) (AClass false (CChar (ch " ")))
  · lit "security.txt" · (nl ∣ Eol)
  · Group 1 (Rep false 0 None anyChar)
  · blockEndRe.

(** The value of [f] at the first suffix of the text where it has one;
    [atStart] tells whether the suffix is the whole text. *)
Fixpoint firstMatch {A : Type} (f : bool -> jsstring -> option A) (atStart : bool)
    (s : jsstring) : option A :=
  match f atStart s with
  | Some a => Some a
  | None =>
      match s with
      | _ :: s' => firstMatch f false s'
      | [] => None
      end
  end.

(** The pattern matches at a position exactly when [f] has a value there,
    and then it captures that value as its only group. *)
Definition capturesAt (ci : bool) (re : regex) (f : bool -> jsstring -> option jsstring) : Prop :=
  forall s i,
    match f (Nat.eqb i 0) s with
    | Some g => exists r e, matcher ci re accept s i [] = Some (r, e, [(1%nat, g)])
    | None => matcher ci re accept s i [] = None
    end.

(** The text after the header that begins at [s] or, after a newline, at
    its second character. *)
Definition headerAt (atStart : bool) (s : jsstring) : option jsstring :=
  orElse (if atStart then headerRest s else None)
    (match s with
     | x :: s' => if x =? LF then headerRest s' else None
     | [] => None
     end).

(** What the standard pattern captures when it matches at [s]. *)
Definition blockAt (atStart : bool) (s : jsstring) : option jsstring :=
  option_map blockOf (headerAt atStart s).

(** [pre] is empty or ends a line. *)
Definition lineStart (pre : jsstring) : Prop := pre = [] \/ exists pre', pre = pre' ++ [LF].

(** [post] is empty or begins with a newline. *)
Definition lineEnd (post : jsstring) : Prop := post = [] \/ exists post', post = LF :: post'.

(** [#], at most one space, and [security.txt] in any case. *)
Definition isHeader (h : jsstring) : Prop :=
  exists sp w, h = HASH :: sp ++ w /\ (sp = [] \/ sp = [SPACE])
               /\ map asciiLower w = str "security.txt".

(** The text holds a header at the start of a line, ended by a newline or
    by the text. *)
Definition hasHeader (text : jsstring) : Prop :=
  exists pre h post, text = pre ++ h ++ post /\ lineStart pre /\ isHeader h /\ lineEnd post.

(** No upper-case letter occurs in [p]. *)
Definition notUpper (p : jsstring) : Prop := Forall (fun a => isUpperAZ a = false) p.

(** As [hasHeader], for a suffix of the text: the header may be in front
    only when [b] holds. *)
Definition hasHeaderFrom (b : bool) (s : jsstring) : Prop :=
  exists pre h post,
    s = pre ++ h ++ post
    /\ ((pre = [] /\ b = true) \/ exists pre', pre = pre' ++ [LF])
    /\ isHeader h /\ lineEnd post.

(** The lines joined by newlines. *)
Fixpoint joinLines (ls : list jsstring) : jsstring :=
  match ls with
  | [] => []
  | [l] => l
  | l :: ls' => l ++ LF :: joinLines ls'
  end.

(** No newline occurs in [l]. *)
Definition noLF (l : jsstring) : Prop := Forall (fun c => c <> LF) l.

(** A line of a block: not empty, no newline inside, no [#] in front. *)
Definition blockLine (l : jsstring) : Prop :=
  noLF l /\ exists x l', l = x :: l' /\ x <> HASH.

(** The text before the first occurrence of the literal [E]. *)
Fixpoint untilLit (ci : bool) (E s : jsstring) : option jsstring :=
  match stripPrefix ci E s with
  | Some _ => Some []
  | None =>
      match s with
      | x :: s' => option_map (cons x) (untilLit ci E s')
      | [] => None
      end
  end.

(** What lies between the marker [B], found in front of [s], and the first
    marker [E] after it. *)
Definition delimitedAt (ci : bool) (B E : string) (_ : bool) (s : jsstring)
    : option jsstring :=
  match stripPrefix ci (str B) s with
  | Some s' => untilLit ci (str E) s'
  | None => None
  end.

(** The markers of the delimited form. *)
Definition BEGIN_MARK : string := "-----BEGIN SECURITY.TXT-----".
Definition END_MARK : string := "-----END SECURITY.TXT-----".

(** Whether the literal occurs in the text. *)
Fixpoint occurs (ci : bool) (E s : jsstring) : bool :=
  match stripPrefix ci E s with
  | Some _ => true
  | None =>
      match s with
      | _ :: s' => occurs ci E s'
      | [] => false
      end
  end.

(** Whether some line of the text begins with [#]. *)
Fixpoint hashLine (atStart : bool) (s : jsstring) : bool :=
  match s with
  | [] => false
  | x :: s' => (atStart && (x =? HASH)) || hashLine (x =? LF) s'
  end.

(** A content in the standard form, and on lines of its own between the
    markers. *)
Definition standardForm (c : jsstring) : jsstring := str "# security.txt" ++ LF :: c.
Definition delimitedForm (c : jsstring) : jsstring :=
  str BEGIN_MARK ++ LF :: c ++ LF :: str END_MARK.

(** The longest prefix of code units that pass the test, and what is left
    after it. *)
Fixpoint takeRun (test : N -> bool) (s : jsstring) : jsstring :=
  match s with
  | x :: s' => if test x then x :: takeRun test s' else []
  | [] => []
  end.

Fixpoint dropRun (test : N -> bool) (s : jsstring) : jsstring :=
  match s with
  | x :: s' => if test x then dropRun test s' else s
  | [] => []
  end.

(** What [[^\n]] matches. *)
Definition notLF (x : N) : bool := negb (x =? LF).

(** The rest of the line after the literal, when it is not empty. *)
Definition fieldAt (name : string) (_ : bool) (s : jsstring) : option jsstring :=
  match stripPrefix true (str name) s with
  | Some s' => match takeRun notLF s' with [] => None | v => Some v end
  | None => None
  end.

Definition HYPHEN : N := ch "-".
Definition COLON : N := ch ":".
(** Each hyphen followed by a lower-case letter becomes that letter in
    upper case, left to right. *)
Fixpoint foldKebab (s : jsstring) : jsstring :=
  match s with
  | [] => []
  | x :: s' =>
      match s' with
      | y :: s'' =>
          if (x =? HYPHEN) && isLowerAZ y then asciiUpper y :: foldKebab s''
          else x :: foldKebab s'
      | [] => [x]
      end
  end.

(** The first hyphen followed by a lower-case letter: the text before it,
    the letter, the text after. *)
Fixpoint kebabFind (s : jsstring) : option (jsstring * N * jsstring) :=
  match s with
  | [] => None
  | x :: s' =>
      match s' with
      | y :: s'' =>
          if (x =? HYPHEN) && isLowerAZ y then Some ([], y, s'')
          else match kebabFind s' with
               | Some (pre, z, rest) => Some (x :: pre, z, rest)
               | None => None
               end
      | [] => None
      end
  end.

(** The callback of the [replace] in [parseSecurityTxt]. *)
Definition upperLetter (m : Match) : jsstring := toUpperCase (default [] (group 1 m)).

(** No line terminator, no colon, no white space in a text. *)
Definition noTerminator (v : jsstring) : Prop := Forall (fun c => isLineTerminator c = false) v.
Definition noColon (k : jsstring) : Prop := Forall (fun c => c <> COLON) k.

Definition noSpace (k : jsstring) : Prop := Forall (fun c => isWhiteSpace c = false) k.

(** [0] to [9]. *)
Definition isDigit (c : N) : bool := (48 <=? c) && (c <=? 57).

(** The characters of a field name: letters, digits and the hyphen. *)
Definition fieldChar (c : N) : bool :=
  isLowerAZ c || isUpperAZ c || isDigit c || (c =? HYPHEN).

(** A field name: one or more such characters. *)
Definition isFieldName (k : jsstring) : Prop :=
  k <> [] /\ Forall (fun c => fieldChar c = true) k.

(** The line [name:value]. *)
Definition fieldLine (kv : jsstring * jsstring) : jsstring := fst kv ++ COLON :: snd kv.

(** The key under which a field is stored. *)
Definition camelKey (k : jsstring) : jsstring := foldKebab (map asciiLower k).

(** Settles the comparisons of a goal by linear arithmetic. *)
Ltac decide_cmp :=
  repeat match goal with
    | |- context [N.eqb ?a ?b] =>
        first [ rewrite (proj2 (N.eqb_eq a b)) by lia | rewrite (proj2 (N.eqb_neq a b)) by lia ]
    | |- context [N.leb ?a ?b] =>
        first [ rewrite (proj2 (N.leb_le a b)) by lia | rewrite (proj2 (N.leb_gt a b)) by lia ]
    | |- context [N.ltb ?a ?b] =>
        first [ rewrite (proj2 (N.ltb_lt a b)) by lia | rewrite (proj2 (N.ltb_ge a b)) by lia ]
    end.

Definition UNDERSCORE : N := ch "_".

(** The mapping with one more field: the key in camel case, the value
    trimmed. *)
Definition storeField (o : gmap jsstring jsstring) (kv : jsstring * jsstring)
    : gmap jsstring jsstring :=
  <[camelKey (fst kv) := trim (snd kv)]> o.

(** A field the line pattern reads in full: a field name and a value free
    of line terminators. *)
Definition validField (kv : jsstring * jsstring) : Prop :=
  isFieldName (fst kv) /\ noTerminator (snd kv).

(** *** The single-field matcher and the heuristic scanner, as specified *)

Fixpoint firstSome {A B : Type} (f : A -> option B) (l : list A) : option B :=
  match l with
  | [] => None
  | a :: l' => orElse (f a) (firstSome f l')
  end.

(** What follows [name] on the first line of the text that begins with it,
    up to case. *)
Definition lineValue (name : string) (text : jsstring) : option jsstring :=
  firstSome (stripPrefix true (str name)) (split LF text).

(** The address of the first [mailto:] URI of the text. *)
Definition mailtoValue (text : jsstring) : option jsstring :=
  match jsMatch true mailtoFieldRe text with
  | Some fm => group 1 fm
  | None => None
  end.

(** The single-field matcher in the words of the specification: a line
    beginning [Contact:], then a line beginning [Security-Contact:], then a
    bare [mailto:] URI. *)
Definition specSingleField (text : jsstring) : option jsstring :=
  orElse (lineValue "Contact:" text)
    (orElse (lineValue "Security-Contact:" text) (mailtoValue text)).

(** The first match of a pattern in the text, by position. *)
Definition firstText (re : regex) (text : jsstring) : option jsstring :=
  option_map m_text (jsMatch false re text).

(** The third category of the specification as one pattern: a URL ending
    in [/security], [/responsible-disclosure] or [/vulnerability]. *)
Definition disclosureUrlRe : regex :=
  lit "http" · Rep true 0 (Some 1%nat) (AClass false (CChar (ch "s"))) · lit "://"
  · domainRe · chr "/"
  · (lit "security" ∣ lit "responsible-disclosure" ∣ lit "vulnerability").

(** The contact of the heuristic scanner in the words of the
    specification: three categories in priority order. *)
Definition specContact (text : jsstring) : option jsstring :=
  orElse (firstText securityEmailRe text)
    (orElse (firstText mailtoRe text) (firstText disclosureUrlRe text)).

(** The contact the scanner finds: five patterns in priority order. *)
Definition heuristicContact (text : jsstring) : option jsstring :=
  orElse (firstText securityEmailRe text)
    (orElse (firstText mailtoRe text)
       (orElse (firstText (urlRe "security") text)
          (orElse (firstText (urlRe "responsible-disclosure") text)
             (firstText (urlRe "vulnerability") text)))).

Definition PGP_BEGIN : string := "-----BEGIN PGP PUBLIC KEY BLOCK-----".
Definition PGP_END : string := "-----END PGP PUBLIC KEY BLOCK-----".

(** A PGP public key block occurs somewhere in the text. *)
Definition hasPgpBlock (text : jsstring) : Prop :=
  exists pre key post, text = pre ++ str PGP_BEGIN ++ key ++ str PGP_END ++ post.

(** No matcher of the cascade and no pattern of the scanner finds
    anything in the text. *)
Definition nothingFound (text : jsstring) : Prop :=
  truthyGroup (jsMatch true standardRe text) = None
  /\ truthyGroup (jsMatch true delimitedRe text) = None
  /\ jsMatch true contactRe text = None
  /\ jsMatch true securityContactRe text = None
  /\ jsMatch true mailtoFieldRe text = None
  /\ jsMatch false securityEmailRe text = None
  /\ jsMatch false mailtoRe text = None
  /\ jsMatch false (urlRe "security") text = None
  /\ jsMatch false (urlRe "responsible-disclosure") text = None
  /\ jsMatch false (urlRe "vulnerability") text = None
  /\ jsMatch false pgpRe text = None.

(** What the handler answers when the mapping is empty, and when it is not. *)
Definition warningResponse : Response :=
  mkResponse "warning" None "No security.txt information found for this program".

Definition successResponse (securityInfo : gmap jsstring jsstring) : Response :=
  mkResponse "success" (Some securityInfo) "Successfully retrieved security.txt information".

Definition errorResponse (e : Error) : Response :=
  mkResponse "error" None (String.append "Failed to get security.txt info: " (message e)).

(** *** The scenario of the specification *)

Definition scenarioBytes : Buffer := bytesOf "
# security.txt
contact: mailto:sec@example.com
expires: 2025-01-01

".

Definition scenarioInfo : gmap jsstring jsstring :=
  <[str "contact" := str "mailto:sec@example.com"]>
    (<[str "expires" := str "2025-01-01"]> ∅).

(** *** A program account whose tag is not the Program tag *)

(** Owned by the upgradeable loader; the four tag bytes are 2, 1, 0, 0
    (258, little-endian), and 32 address bytes follow. *)
Definition oddProgram : AccountInfo :=
  mkAccount BPF_UPGRADEABLE_LOADER_ID
    (Byte.x02 :: Byte.x01 :: Byte.x00 :: Byte.x00 :: repeat Byte.x07 32).

Definition oddProgramData : AccountInfo :=
  mkAccount BPF_UPGRADEABLE_LOADER_ID
    (repeat Byte.x00 8 ++ bytesOf "Contact: team@example.com").

(** A ledger that holds [oddProgram] at address 1 and [oddProgramData] at
    the address [oddProgram] spells. *)
Definition oddLedger : Connection :=
  fun key =>
    if key =? 1 then inr (Some oddProgram)
    else if key =? bigEndian (repeat 7 32) then inr (Some oddProgramData)
    else inr None.

(** ** More of the vocabulary: lines, bytes and keys *)

(** The text before the first colon of a line and the text after it. *)
Fixpoint cutAtColon (s : jsstring) : option (jsstring * jsstring) :=
  match s with
  | [] => None
  | x :: s' =>
      if x =? COLON then Some ([], s')
      else match cutAtColon s' with
           | Some (k, v) => Some (x :: k, v)
           | None => None
           end
  end.

(** The name and the value a line of a block is read as: the line is not
    blank and no comment, the name before its first colon is not empty, and
    no line terminator follows the first character of the value. *)
Definition readLine (line : jsstring) : option (jsstring * jsstring) :=
  if falsy (trim line) || startsWith HASH (trim line) then None
  else
    match cutAtColon line with
    | Some (k, v) =>
        if falsy k || existsb isLineTerminator (trimStart v) then None
        else Some (k, v)
    | None => None
    end.

Definition CR : N := 13.

(** What holds of every entry the parser stores: the key is not
    [__proto__] and holds no hyphen followed by a lower-case letter, the
    value has no white space at either end. *)
Definition normalEntry (key value : jsstring) : Prop :=
  key <> str "__proto__" /\ kebabFind key = None /\ trim value = value.

Definition crlfLines (fields : list (jsstring * jsstring)) : jsstring :=
  flat_map (fun kv => fieldLine kv ++ [CR; LF]) fields.

(** The address the resolver reads from the data of a Program account. *)
Definition windowAddress (d : Buffer) : PublicKey := bigEndian (map Byte.to_N (slice 4 36 d)).

(** Whether the data begin with the byte 2, the tag of a Program account. *)
Definition isProgramTag (d : Buffer) : bool :=
  match d with
  | b :: _ => Byte.eqb b Byte.x02
  | [] => false
  end.

(** The bytes below 128, which UTF-8 uses for the ASCII characters. *)
Definition asciiBytes (t : Buffer) : Prop := Forall (fun b => Byte.to_N b < 128) t.

(** Whether a character is one of the 58 of the alphabet. *)
Definition isBase58 (a : ascii) : bool :=
  match indexIn a base58Alphabet 0 with Some _ => true | None => false end.

(** The base-58 digits of a number, the most significant first, in front
    of [acc]. *)
Fixpoint digits58 (fuel : nat) (n : N) (acc : list N) : list N :=
  match fuel with
  | O => acc
  | S fuel' => if n =? 0 then acc else digits58 fuel' (n / 58) (n mod 58 :: acc)
  end.

Definition base58Char (d : N) : ascii := nth (N.to_nat d) base58Alphabet "1"%char.

(** [publicKey.toBase58()], which [toString] returns: the 32 bytes of the
    key, big-endian, written in base 58, a [1] for each leading zero byte. *)
Definition toBase58 (k : PublicKey) : string :=
  string_of_list_ascii
    (repeat "1"%char (32 - N.to_nat (byteLength k))
     ++ map base58Char (digits58 (N.to_nat (N.size k)) k [])).

(** The number a list of base-58 digits spells. *)
Definition value58 (ds : list N) : N := fold_left (fun acc d => acc * 58 + d) ds 0.

(** ** The other tools and actions

    [getValidatorInfo] of [src/tools/validator.ts] with the handler of
    [GET_VALIDATOR_INFO], and [getTransactionHistory] with
    [fetchTransactionHistory], the tool the handler of
    [GET_TRANSACTION_HISTORY] imports from [tools/transaction.js], with
    that handler. *)

(** What these tools throw: an error of the [PublicKey] constructor, an
    [Error] made with a message, or an error that the engine or the
    platform raises, whose name and message are theirs. *)
Inductive Exception : Type :=
| Thrown (e : Error)
| ErrorOf (message : jsstring)
| Raised (name message : jsstring).

(** [error.message] *)
Definition messageOf (x : Exception) : jsstring :=
  match x with
  | Thrown e => str (message e)
  | ErrorOf m => m
  | Raised _ m => m
  end.

(** [error.name] *)
Definition nameOf (x : Exception) : jsstring :=
  match x with
  | Raised n _ => n
  | _ => str "Error"
  end.

(** [error.toString()] *)
Definition errorToString (x : Exception) : jsstring :=
  if falsy (nameOf x) then messageOf x
  else if falsy (messageOf x) then nameOf x
  else nameOf x ++ str ": " ++ messageOf x.

Definition Raises (A : Type) : Type := Exception + A.

Definition andThen {E A B : Type} (x : E + A) (f : A -> E + B) : E + B :=
  match x with
  | inl e => inl e
  | inr a => f a
  end.
Notation "'let!' x ':=' e 'in' k" := (andThen e (fun x => k))
  (at level 10, x name, e at level 100, k at level 200).

(** [new PublicKey(text)] among these exceptions. *)
Definition newPublicKey (s : string) : Raises PublicKey :=
  match publicKeyOfString s with
  | inl e => inl (Thrown e)
  | inr k => inr k
  end.

(** [array.map(f)] with a callback that may throw. *)
Fixpoint mapRaises {A B : Type} (f : A -> Raises B) (l : list A) : Raises (list B) :=
  match l with
  | [] => inr []
  | a :: l' =>
      let! b := f a in
      let! bs := mapRaises f l' in
      inr (b :: bs)
  end.

(** [array.join(sep)] on an array of strings. *)
Fixpoint join (sep : jsstring) (l : list jsstring) : jsstring :=
  match l with
  | [] => []
  | [x] => x
  | x :: l' => x ++ sep ++ join sep l'
  end.

(** [String.prototype.split] with a separator of one or more characters:
    [skip] characters of a separator just found are still to pass, [cur]
    holds the piece being read, backwards. *)
Fixpoint splitOn (sep : jsstring) (skip : nat) (cur s : jsstring) : list jsstring :=
  match s with
  | [] => [rev cur]
  | c :: s' =>
      match skip with
      | S n => splitOn sep n cur s'
      | O =>
          match stripPrefix false sep s with
          | Some _ => rev cur :: splitOn sep (length sep - 1) [] s'
          | None => splitOn sep O (c :: cur) s'
          end
      end
  end.

Definition jsSplit (sep s : jsstring) : list jsstring := splitOn sep 0 [] s.

Module Validator.

(** An entry of the answer of [getVoteAccounts]; the numbers are the
    integers the node reports, which the tool copies. *)
Record VoteAccountInfo : Type := mkVoteAccountInfo {
  votePubkey : string;
  nodePubkey : string;
  activatedStake : N;
  epochVoteAccount : bool;
  epochCredits : list (N * N * N);
  commission : N;
  lastVote : N
}.

Record VoteAccountStatus : Type := mkVoteAccountStatus {
  current : list VoteAccountInfo;
  delinquent : list VoteAccountInfo
}.

(** The answer of [getEpochInfo], of which the tool reads the epoch. *)
Record EpochInfo : Type := mkEpochInfo {
  epoch : N
}.

(** The requests the tool makes of the connection; each may fail. *)
Record Connection : Type := mkConnection {
  getEpochInfo : Raises EpochInfo;
  getVoteAccounts : Raises VoteAccountStatus;
  getBalance : PublicKey -> Raises N
}.

(** The object [getValidatorInfo] returns. *)
Record ValidatorInfo : Type := mkValidatorInfo {
  info_identity : string;
  info_vote : string;
  info_commission : N;
  info_activatedStake : N;
  info_epochVoteAccount : bool;
  info_epochCredits : list (N * N * N);
  info_delinquent : bool;
  info_lastVote : N;
  info_balance : N;
  info_currentEpoch : N
}.

Definition getValidatorInfo (validatorPubkey : PublicKey) (connection : Connection)
    : Raises ValidatorInfo :=
  let! epochInfo := getEpochInfo connection in
  let! voteAccounts := getVoteAccounts connection in
  let allAccounts := current voteAccounts ++ delinquent voteAccounts in
  let validatorAccount :=
    find (fun account => String.eqb (votePubkey account) (toBase58 validatorPubkey))
      allAccounts in
  match validatorAccount with
  | None => inl (ErrorOf (str "Validator not found"))
  | Some validatorAccount =>
      let! nodeKey := newPublicKey (nodePubkey validatorAccount) in
      let! balance := getBalance connection nodeKey in
      inr (mkValidatorInfo
             (nodePubkey validatorAccount)
             (votePubkey validatorAccount)
             (commission validatorAccount)
             (activatedStake validatorAccount)
             (epochVoteAccount validatorAccount)
             (epochCredits validatorAccount)
             (existsb (fun account =>
                         String.eqb (votePubkey account) (toBase58 validatorPubkey))
                (delinquent voteAccounts))
             (lastVote validatorAccount)
             balance
             (epoch epochInfo))
  end.

(** What the handler of [GET_VALIDATOR_INFO] returns. *)
Record Response : Type := mkResponse {
  status : string;
  info : option ValidatorInfo;
  message : jsstring
}.

Definition handler (connection : Connection) (validatorAddress : string) : Response :=
  match
    (let! validatorPubkey := newPublicKey validatorAddress in
     getValidatorInfo validatorPubkey connection)
  with
  | inr validatorInfo =>
      mkResponse "success" (Some validatorInfo)
        (str "Successfully retrieved validator information")
  | inl error =>
      mkResponse "error" None (str "Failed to get validator info: " ++ messageOf error)
  end.

End Validator.

(** *** [encodeURIComponent] *)

(** The characters that stand for themselves: letters, digits and
    [- _ . ! ~ * ' ( )]. *)
Definition isUnreserved (c : N) : bool :=
  isLowerAZ c || isUpperAZ c || ((48 <=? c) && (c <=? 57))
  || existsb (N.eqb c) (str "-_.!~*'()").

Definition isHighSurrogate (c : N) : bool := (55296 <=? c) && (c <=? 56319).
Definition isLowSurrogate (c : N) : bool := (56320 <=? c) && (c <=? 57343).

Definition hexDigit (n : N) : N := if n <? 10 then 48 + n else 55 + n.

(** [%XX] for a byte. *)
Definition percent (b : N) : jsstring := [37; hexDigit (b / 16); hexDigit (b mod 16)].

Definition utf8Encode (cp : N) : list N :=
  if cp <? 128 then [cp]
  else if cp <? 2048 then [192 + cp / 64; 128 + cp mod 64]
  else if cp <? 65536 then [224 + cp / 4096; 128 + (cp / 64) mod 64; 128 + cp mod 64]
  else [240 + cp / 262144; 128 + (cp / 4096) mod 64; 128 + (cp / 64) mod 64;
        128 + cp mod 64].

(** The errors the engine raises in these tools; their messages are the
    engine's. *)
Inductive Fault : Type :=
| MalformedURI
| NotAFunction (property : string)
| PropertyOfUndefined (property : string)
| PropertyOfNull (property : string)
| NotPrimitive.

Section Engine.

Variable faultMessage : Fault -> jsstring.

Definition uriError : Exception := Raised (str "URIError") (faultMessage MalformedURI).

Definition typeError (f : Fault) : Exception := Raised (str "TypeError") (faultMessage f).

Fixpoint encodeURIComponent (s : jsstring) : Raises jsstring :=
  match s with
  | [] => inr []
  | c :: s' =>
      if isUnreserved c then
        let! r := encodeURIComponent s' in inr (c :: r)
      else if isLowSurrogate c then inl uriError
      else if isHighSurrogate c then
        match s' with
        | d :: s'' =>
            if isLowSurrogate d then
              let cp := (c - 55296) * 1024 + (d - 56320) + 65536 in
              let! r := encodeURIComponent s'' in
              inr (flat_map percent (utf8Encode cp) ++ r)
            else inl uriError
        | [] => inl uriError
        end
      else
        let! r := encodeURIComponent s' in
        inr (flat_map percent (utf8Encode c) ++ r)
  end.

End Engine.

(** A value read from JSON, or [undefined]. *)
#[warnings="-register-all"]
Inductive Value (Number : Type) : Type :=
| VUndefined
| VNull
| VBool (b : bool)
| VNumber (n : Number)
| VString (s : jsstring)
| VArray (items : list (Value Number))
| VObject (properties : list (jsstring * Value Number)).

Arguments VUndefined {Number}.
Arguments VNull {Number}.
Arguments VBool {Number} b.
Arguments VNumber {Number} n.
Arguments VString {Number} s.
Arguments VArray {Number} items.
Arguments VObject {Number} properties.

(** What the tools take from the JavaScript engine: its numbers, with
    what the code does with them (writing one in a text, taking one for a
    condition, the number a decimal literal stands for, of which [10]
    counts as true, and [Math.ceil(x * 1.2)] for any value [x], which
    fails where [x] cannot be made a number), the text a template writes
    for a value, which may fail the same way, [JSON.stringify], which
    gives no text for [undefined], the messages of the errors the engine
    raises, and the trace it keeps in the [stack] of an error. *)
Record Engine : Type := mkEngine {
  Number : Type;
  numberToString : Number -> jsstring;
  numberToBoolean : Number -> bool;
  numberOf : N -> Number;
  ceilOfTimes12 : Value Number -> Raises Number;
  valueToString : Value Number -> Raises jsstring;
  stringify : Value Number -> option jsstring;
  faultMessage : Fault -> jsstring;
  errorStack : Exception -> jsstring;
  ten_true : numberToBoolean (numberOf 10) = true
}.

Section Json.

Variable engine : Engine.

(** [ToBoolean] *)
Definition toBoolean (v : Value (Number engine)) : bool :=
  match v with
  | VUndefined | VNull => false
  | VBool b => b
  | VNumber n => numberToBoolean engine n
  | VString s => negb (falsy s)
  | VArray _ | VObject _ => true
  end.

(** [a || b] *)
Definition orValue (a b : Value (Number engine)) : Value (Number engine) :=
  if toBoolean a then a else b.

Fixpoint lookupProperty (name : jsstring)
    (properties : list (jsstring * Value (Number engine))) : Value (Number engine) :=
  match properties with
  | [] => VUndefined
  | (k, v) :: rest => if bool_decide (k = name) then v else lookupProperty name rest
  end.

(** [v.name] for the names the tools read, none of which a string, a
    number, a boolean, an array or [Object.prototype] has. *)
Definition get (v : Value (Number engine)) (name : string) : Raises (Value (Number engine)) :=
  match v with
  | VUndefined => inl (typeError (faultMessage engine) (PropertyOfUndefined name))
  | VNull => inl (typeError (faultMessage engine) (PropertyOfNull name))
  | VObject properties => inr (lookupProperty (str name) properties)
  | _ => inr VUndefined
  end.

(** What [fetch] resolves to: [ok], [status], and the body read as text or
    as JSON, either of which may fail. *)
Record HttpResponse : Type := mkHttpResponse {
  ok : bool;
  http_status : Number engine;
  text : Raises jsstring;
  json : Raises (Value (Number engine))
}.

(** A string that is set and not empty. *)
Definition truthyString (s : option jsstring) : bool :=
  match s with
  | Some s => negb (falsy s)
  | None => false
  end.

End Json.

Module History.

Section WithEngine.

Variable engine : Engine.

Record TransactionHistoryOptions : Type := mkOptions {
  limit : option (Number engine);
  before : option jsstring;
  until : option jsstring;
  types : option (list jsstring);
  minContextSlot : option (Number engine)
}.

Record TransactionData : Type := mkTransactionData {
  signature : Value (Number engine);
  slot : Value (Number engine);
  timestamp : Value (Number engine);
  err : Value (Number engine);
  memo : Value (Number engine);
  blockTime : Value (Number engine);
  type : Value (Number engine);
  fee : Value (Number engine);
  status : Value (Number engine)
}.

(** [fetch(url)] *)
Definition Fetch : Type := jsstring -> Raises (HttpResponse engine).

Record Connection : Type := mkConnection {
  rpcEndpoint : jsstring
}.

(** The entries of [queryParams], in the order they are set. *)
Definition queryParams (options : TransactionHistoryOptions) : list (jsstring * jsstring) :=
  (match limit options with
   | Some n => if numberToBoolean engine n then [(str "limit", numberToString engine n)] else []
   | None => []
   end)
  ++ (match before options with
      | Some b => if falsy b then [] else [(str "before", b)]
      | None => []
      end)
  ++ (match until options with
      | Some u => if falsy u then [] else [(str "until", u)]
      | None => []
      end)
  ++ (match types options with
      | Some (t :: ts) => [(str "type", join (str ",") (t :: ts))]
      | _ => []
      end).

Definition queryString (options : TransactionHistoryOptions) : Raises jsstring :=
  let! parts :=
    mapRaises (fun kv : jsstring * jsstring =>
                 let! value := encodeURIComponent (faultMessage engine) (snd kv) in
                 inr (fst kv ++ str "=" ++ value))
      (queryParams options) in
  inr (join (str "&") parts).

(** The callback of [data.map]; the source reads [timestamp] and [err]
    of the item twice, to the same effect. *)
Definition toTransactionData (tx : Value (Number engine)) : Raises TransactionData :=
  let! signature := get engine tx "signature" in
  let! slot := get engine tx "slot" in
  let! timestamp := get engine tx "timestamp" in
  let! err := get engine tx "err" in
  let! memo := get engine tx "memo" in
  let! type := get engine tx "type" in
  let! fee := get engine tx "fee" in
  inr (mkTransactionData signature slot timestamp err
         (orValue engine memo VNull)
         timestamp
         (orValue engine type (VString (str "Unknown")))
         (orValue engine fee (VNumber (numberOf engine 0)))
         (VString (if toBoolean engine err then str "Failed" else str "Success"))).

Definition fetchTransactionHistory (fetch : Fetch) (connection : Connection)
    (address : jsstring) (options : TransactionHistoryOptions)
    : Raises (list TransactionData) :=
  let! queryString := queryString options in
  let rpcUrl := rpcEndpoint connection in
  let apiKey := nth_error (jsSplit (str "api-key=") rpcUrl) 1 in
  if negb (truthyString apiKey) then inl (ErrorOf (str "Missing Helius API key"))
  else
    let url :=
      str "https://api.helius.xyz/v0/addresses/" ++ address
      ++ str "/transactions?api-key=" ++ default [] apiKey
      ++ (if falsy queryString then [] else str "&" ++ queryString) in
    let! response := fetch url in
    if negb (ok engine response) then
      let! errorText := text engine response in
      inl (ErrorOf (str "Helius API error: "
                    ++ numberToString engine (http_status engine response)
                    ++ str " " ++ errorText))
    else
      let! data := json engine response in
      match data with
      | VArray items => mapRaises toTransactionData items
      | VUndefined => inl (typeError (faultMessage engine) (PropertyOfUndefined "map"))
      | VNull => inl (typeError (faultMessage engine) (PropertyOfNull "map"))
      | _ => inl (typeError (faultMessage engine) (NotAFunction "map"))
      end.

Definition getTransactionHistory (fetch : Fetch) (publicKey : PublicKey)
    (connection : Connection) (options : TransactionHistoryOptions)
    : Raises (list TransactionData) :=
  let address := str (toBase58 publicKey) in
  fetchTransactionHistory fetch connection address options.

(** The parameters of [GET_TRANSACTION_HISTORY], each of which may be
    missing. *)
Record Params : Type := mkParams {
  p_address : option string;
  p_limit : option (Number engine);
  p_before : option jsstring;
  p_until : option jsstring;
  p_minContextSlot : option (Number engine);
  p_types : option (list jsstring)
}.

(** What the handler returns. *)
Record Response : Type := mkResponse {
  r_status : string;
  r_transactions : option (list TransactionData);
  r_message : jsstring;
  r_error : option jsstring;
  r_stack : option jsstring
}.

(** [params.limit || 10] *)
Definition limitOf (params : Params) : Number engine :=
  match p_limit params with
  | Some n => if numberToBoolean engine n then n else numberOf engine 10
  | None => numberOf engine 10
  end.

(** The options the handler passes to the tool. *)
Definition optionsOf (params : Params) : TransactionHistoryOptions :=
  mkOptions (Some (limitOf params)) (p_before params) (p_until params) (p_types params)
    (p_minContextSlot params).

(** The success message, each condition that holds replacing the message
    of the ones before it. *)
Definition successMessage (params : Params) : jsstring :=
  let limit := limitOf params in
  let message := str "Successfully retrieved transaction history" in
  let message :=
    if numberToBoolean engine limit then
      str "Successfully retrieved " ++ numberToString engine limit
      ++ str " most recent transactions"
    else message in
  let message :=
    if truthyString (p_before params) then
      str "Successfully retrieved transaction history before specified signature"
    else message in
  let message :=
    if truthyString (p_until params) then
      str "Successfully retrieved transaction history until specified signature"
    else message in
  match p_types params with
  | Some (t :: ts) =>
      str "Successfully retrieved " ++ join (str ", ") (t :: ts) ++ str " transactions"
  | _ => message
  end.

Definition handler (fetch : Fetch) (connection : Connection) (params : Params) : Response :=
  match p_address params with
  | None | Some EmptyString =>
      mkResponse "input_needed" None
        (str "Please provide a Solana wallet address to view transaction history.")
        (Some (str "Missing address parameter")) None
  | Some address =>
      match newPublicKey address with
      | inl _ =>
          mkResponse "error" None (str "Invalid Solana address provided")
            (Some (str "Invalid public key format")) None
      | inr publicKey =>
          match getTransactionHistory fetch publicKey connection (optionsOf params) with
          | inr transactions =>
              mkResponse "success"
                (Some (map (fun tx =>
                              mkTransactionData (signature tx) (slot tx) (timestamp tx)
                                (err tx) (memo tx) (blockTime tx) (type tx) (fee tx)
                                (status tx))
                         transactions))
                (successMessage params) None None
          | inl error =>
              mkResponse "error" None
                (str "Failed to retrieve transaction history: " ++ messageOf error)
                (Some (errorToString error))
                (Some (errorStack engine error))
          end
      end
  end.

End WithEngine.

End History.

(** The URL of the request for the transactions of an address, with the
    key of the endpoint and a query. *)
Definition requestUrl (address : string) (key query : jsstring) : jsstring :=
  str "https://api.helius.xyz/v0/addresses/" ++ str address
  ++ str "/transactions?api-key=" ++ key ++ str "&" ++ query.

(** The answers of the handler of [GET_TRANSACTION_HISTORY] that return
    no transactions, and the one that does. *)
Definition inputNeeded (engine : Engine) : History.Response engine :=
  History.mkResponse engine "input_needed" None
    (str "Please provide a Solana wallet address to view transaction history.")
    (Some (str "Missing address parameter")) None.

Definition invalidAddress (engine : Engine) : History.Response engine :=
  History.mkResponse engine "error" None (str "Invalid Solana address provided")
    (Some (str "Invalid public key format")) None.

Definition historyFailed (engine : Engine) (error : Exception) : History.Response engine :=
  History.mkResponse engine "error" None
    (str "Failed to retrieve transaction history: " ++ messageOf error)
    (Some (errorToString error))
    (Some (errorStack engine error)).

Definition historySuccess (engine : Engine) (params : History.Params engine)
    (transactions : list (History.TransactionData engine)) : History.Response engine :=
  History.mkResponse engine "success" (Some transactions)
    (History.successMessage engine params) None None.

(** The separator the tool cuts the endpoint at. *)
Definition API_KEY : jsstring := str "api-key=".

(** An instance of the engine, for examples: its numbers are the natural
    numbers, written in decimal, zero taken for false. *)
Fixpoint decimalDigits (fuel : nat) (n : N) (acc : jsstring) : jsstring :=
  match fuel with
  | O => acc
  | S fuel' =>
      if n <? 10 then 48 + n :: acc
      else decimalDigits fuel' (n / 10) (48 + n mod 10 :: acc)
  end.
Definition decimal (n : N) : jsstring := decimalDigits (S (N.to_nat (N.size n))) n [].
Definition nonZero (n : N) : bool := negb (n =? 0).

(** The messages of V8 for the faults. *)
Definition v8Message (f : Fault) : jsstring :=
  match f with
  | MalformedURI => str "URI malformed"
  | NotAFunction p => str "data." ++ str p ++ str " is not a function"
  | PropertyOfUndefined p =>
      str "Cannot read properties of undefined (reading '" ++ str p ++ str "')"
  | PropertyOfNull p =>
      str "Cannot read properties of null (reading '" ++ str p ++ str "')"
  | NotPrimitive => str "Cannot convert object to primitive value"
  end.

(** An object read from JSON is made a text or a number by the [toString]
    of [Object.prototype], unless it has a member of that name, which is
    no function. *)
Definition hasOwn (name : jsstring) (properties : list (jsstring * Value N)) : bool :=
  existsb (fun kv => bool_decide (fst kv = name)) properties.

(** The text a template writes for a value. *)
Fixpoint exampleText (v : Value N) : Raises jsstring :=
  match v with
  | VUndefined => inr (str "undefined")
  | VNull => inr (str "null")
  | VBool true => inr (str "true")
  | VBool false => inr (str "false")
  | VNumber n => inr (decimal n)
  | VString s => inr s
  | VArray items =>
      let! texts :=
        (fix each (l : list (Value N)) : Raises (list jsstring) :=
           match l with
           | [] => inr []
           | i :: l' =>
               let! t := match i with
                         | VUndefined | VNull => inr []
                         | _ => exampleText i
                         end in
               let! ts := each l' in
               inr (t :: ts)
           end) items in
      inr (join (str ",") texts)
  | VObject properties =>
      if hasOwn (str "toString") properties then inl (typeError v8Message NotPrimitive)
      else inr (str "[object Object]")
  end.

(** [Math.ceil(x * 1.2)] where [x] is one of these numbers, [null] or a
    boolean, and its failure for an object that cannot be made a number.
    Of the other values the product is no natural number; 0 stands for
    it here, and the examples take no such product. *)
Definition scaleUp (v : Value N) : Raises N :=
  match v with
  | VNumber n => inr ((n * 12 + 9) / 10)
  | VBool true => inr 2
  | VObject properties =>
      if hasOwn (str "toString") properties then inl (typeError v8Message NotPrimitive)
      else inr 0
  | _ => inr 0
  end.

Definition hexLower (n : N) : N := if n <? 10 then 48 + n else 87 + n.

Definition QUOTE : N := 34.
Definition BACKSLASH : N := 92.

(** [\uXXXX] *)
Definition unicodeEscape (c : N) : jsstring :=
  [BACKSLASH; 117; hexLower (c / 4096); hexLower ((c / 256) mod 16);
   hexLower ((c / 16) mod 16); hexLower (c mod 16)].

(** A string between quotes as [JSON.stringify] writes it. *)
Fixpoint quoteJSON (s : jsstring) : jsstring :=
  match s with
  | [] => []
  | c :: rest =>
      if isHighSurrogate c then
        match rest with
        | d :: rest' =>
            if isLowSurrogate d then c :: d :: quoteJSON rest'
            else unicodeEscape c ++ quoteJSON rest
        | [] => unicodeEscape c
        end
      else if isLowSurrogate c then unicodeEscape c ++ quoteJSON rest
      else if c =? 8 then BACKSLASH :: 98 :: quoteJSON rest
      else if c =? 9 then BACKSLASH :: 116 :: quoteJSON rest
      else if c =? 10 then BACKSLASH :: 110 :: quoteJSON rest
      else if c =? 12 then BACKSLASH :: 102 :: quoteJSON rest
      else if c =? 13 then BACKSLASH :: 114 :: quoteJSON rest
      else if c =? QUOTE then BACKSLASH :: QUOTE :: quoteJSON rest
      else if c =? BACKSLASH then BACKSLASH :: BACKSLASH :: quoteJSON rest
      else if c <? 32 then unicodeEscape c ++ quoteJSON rest
      else c :: quoteJSON rest
  end.

Definition quoted (s : jsstring) : jsstring := QUOTE :: quoteJSON s ++ [QUOTE].

(** [JSON.stringify] of a value whose objects have their members in the
    order of the list (no name is an array index). *)
Fixpoint exampleJSON (v : Value N) : option jsstring :=
  match v with
  | VUndefined => None
  | VNull => Some (str "null")
  | VBool true => Some (str "true")
  | VBool false => Some (str "false")
  | VNumber n => Some (decimal n)
  | VString s => Some (quoted s)
  | VArray items =>
      Some (str "["
            ++ join (str ",") (map (fun i => default (str "null") (exampleJSON i)) items)
            ++ str "]")
  | VObject properties =>
      Some (str "{"
            ++ join (str ",")
                 (flat_map (fun kv : jsstring * Value N =>
                              let (k, x) := kv in
                              match exampleJSON x with
                              | Some t => [quoted k ++ str ":" ++ t]
                              | None => []
                              end)
                    properties)
            ++ str "}")
  end.

(** The engine of the examples; as the trace of an error it gives the
    first line of one, the error written as a text. *)
Definition exampleEngine : Engine :=
  mkEngine N decimal nonZero (fun n => n) scaleUp exampleText exampleJSON v8Message
    errorToString eq_refl.
(** [v] occurs in [text] as a piece of it. *)
Definition occursIn (v text : jsstring) : Prop := exists pre post, text = pre ++ v ++ post.

(** [s] is what is left of [text] after some of its characters. *)
Definition restOf (text s : jsstring) : Prop := exists pre, text = pre ++ s.

(** Every capture is a piece of the text. *)
Definition capturesIn (text : jsstring) (c : captures) : Prop :=
  Forall (fun nv => occursIn (snd nv) text) c.


(** The characters that delimit the parts of a URL and of its query. *)
Definition isDelimiter (c : N) : bool := existsb (N.eqb c) (str "&=#?/ +").

(** A value read from JSON that is neither [null] nor [undefined]. *)
Definition notNullish {Number : Type} (v : Value Number) : Prop :=
  match v with
  | VNull | VUndefined => False
  | _ => True
  end.

(** The transaction the tool makes of an item of the answer: each member
    is the member of that name of the item, [blockTime] its [timestamp],
    a missing [memo], [type] or [fee] replaced by [null], [Unknown] or 0,
    and the status tells whether its [err] counts as true. *)
Definition madeFrom (engine : Engine) (item : Value (Number engine))
    (tx : History.TransactionData engine) : Prop :=
  get engine item "signature" = inr (History.signature engine tx)
  /\ get engine item "slot" = inr (History.slot engine tx)
  /\ get engine item "timestamp" = inr (History.timestamp engine tx)
  /\ get engine item "timestamp" = inr (History.blockTime engine tx)
  /\ get engine item "err" = inr (History.err engine tx)
  /\ (exists memo,
         get engine item "memo" = inr memo
         /\ History.memo engine tx = orValue engine memo VNull)
  /\ (exists type,
         get engine item "type" = inr type
         /\ History.type engine tx = orValue engine type (VString (str "Unknown")))
  /\ (exists fee,
         get engine item "fee" = inr fee
         /\ History.fee engine tx = orValue engine fee (VNumber (numberOf engine 0)))
  /\ History.status engine tx
     = VString (if toBoolean engine (History.err engine tx)
                then str "Failed" else str "Success").

(** ** The priority fee tool and its action

    What the functions write to the console is left out. *)

(** [try { body } catch (error) { handler }] *)
Definition tryCatch {A : Type} (body : Raises A) (handler : Exception -> Raises A)
    : Raises A :=
  match body with
  | inl error => handler error
  | inr a => inr a
  end.

Module Fee.

Section WithEngine.

Variable engine : Engine.

(** The texts of [timeEstimates] and of [highLoadBehavior]. *)
Record Texts : Type := mkTexts {
  forLow : jsstring;
  forMedium : jsstring;
  forHigh : jsstring
}.

Record PriorityFeeEstimate : Type := mkPriorityFeeEstimate {
  low : Value (Number engine);
  medium : Value (Number engine);
  high : Value (Number engine);
  veryHigh : Value (Number engine);
  min : Value (Number engine);
  unsafeMax : Value (Number engine);
  suggested : Value (Number engine);
  timeEstimates : Texts;
  highLoadBehavior : Texts;
  priorityFeeEstimate : Value (Number engine);
  priorityFeeLevels : Value (Number engine)
}.

(** The [options] of the two estimating functions. *)
Record EstimateOptions : Type := mkEstimateOptions {
  lookbackSlots : option (Number engine);
  includeVote : option bool
}.

(** The [options] of [estimatePriorityFee]. *)
Record Options : Type := mkOptions {
  method : option jsstring;
  accountKeys : option (list jsstring);
  serializedTransaction : option jsstring;
  o_lookbackSlots : option (Number engine);
  o_includeVote : option bool
}.

(** What [fetch] is called with: the URL, and the method, headers and
    body of its second argument. *)
Record Request : Type := mkRequest {
  req_url : jsstring;
  req_method : string;
  req_headers : list (string * string);
  req_body : option jsstring
}.

(** [fetch(url, init)] *)
Definition Fetch : Type := Request -> Raises (HttpResponse engine).

Record Connection : Type := mkConnection {
  rpcEndpoint : jsstring
}.

Definition blockTimes : Texts :=
  mkTexts (str "1-2 blocks (~0.8s)") (str "1 block (~0.4s)") (str "Usually immediate").

Definition secondTimes : Texts :=
  mkTexts (str "3-5 seconds") (str "2-3 seconds") (str "1-2 seconds").

Definition loadBehavior : Texts :=
  mkTexts (str "May be delayed or dropped") (str "More consistent inclusion")
    (str "Very likely first-in").

Definition number (n : N) : Value (Number engine) := VNumber (numberOf engine n).

Definition getDefaultPriorityFees : PriorityFeeEstimate :=
  mkPriorityFeeEstimate (number 1000) (number 10000) (number 100000) (number 150000)
    (number 0) (number 200000) (number 10000)
    blockTimes loadBehavior
    (number 10000)
    (VObject [(str "min", number 0); (str "low", number 1000);
              (str "medium", number 10000); (str "high", number 100000);
              (str "veryHigh", number 150000); (str "unsafeMax", number 200000)]).

(** What the request asks an estimate for. *)
Inductive Subject : Type :=
| AccountKeys (keys : list jsstring)
| Transaction (encoded : jsstring).

(** [options?.lookbackSlots || 150] *)
Definition lookbackOf (options : option EstimateOptions) : Number engine :=
  match options with
  | Some o =>
      match lookbackSlots o with
      | Some n => if numberToBoolean engine n then n else numberOf engine 150
      | None => numberOf engine 150
      end
  | None => numberOf engine 150
  end.

(** [options?.includeVote !== undefined ? options.includeVote : true] *)
Definition includeVoteOf (options : option EstimateOptions) : bool :=
  match options with
  | Some o => default true (includeVote o)
  | None => true
  end.

(** The object the body of the request is the JSON text of. *)
Definition requestBody (subject : Subject) (options : option EstimateOptions)
    : Value (Number engine) :=
  VObject
    [(str "jsonrpc", VString (str "2.0"));
     (str "id", number 1);
     (str "method", VString (str "getPriorityFeeEstimate"));
     (str "params",
      VArray
        [VObject
           [match subject with
            | AccountKeys keys => (str "accountKeys", VArray (map VString keys))
            | Transaction encoded => (str "transaction", VString encoded)
            end;
            (str "options",
             VObject
               [(str "includeAllPriorityFeeLevels", VBool true);
                (str "lookbackSlots", VNumber (lookbackOf options));
                (str "includeVote", VBool (includeVoteOf options))])]])].

(** The call of [fetch] of the two estimating functions. *)
Definition post (rpcUrl : jsstring) (subject : Subject) (options : option EstimateOptions)
    : Request :=
  mkRequest rpcUrl "POST" [("Content-Type", "application/json")%string]
    (stringify engine (requestBody subject options)).

(** What the two estimating functions do with the reply, which is the
    same up to the texts of [timeEstimates]: from [if (data.error)] to
    the defaults returned when the reply has not the expected members.
    In [a || b], [b] is computed only where [a] counts as false. *)
Definition readReply (times : Texts) (data : Value (Number engine))
    : Raises PriorityFeeEstimate :=
  let! error := get engine data "error" in
  if toBoolean engine error then
    let! message := get engine error "message" in
    let! written := valueToString engine message in
    inl (ErrorOf (str "Helius API error: " ++ written))
  else
    let! result := get engine data "result" in
    if toBoolean engine result then
      let! estimate := get engine result "priorityFeeEstimate" in
      let! priorityFeeEstimate :=
        if toBoolean engine estimate then inr estimate
        else get engine result "priorityFee" in
      let! priorityFeeLevels := get engine result "priorityFeeLevels" in
      if toBoolean engine priorityFeeLevels then
        let! min := get engine priorityFeeLevels "min" in
        let! low := get engine priorityFeeLevels "low" in
        let! medium := get engine priorityFeeLevels "medium" in
        let! high := get engine priorityFeeLevels "high" in
        let! veryHigh := get engine priorityFeeLevels "veryHigh" in
        let! unsafeMax := get engine priorityFeeLevels "unsafeMax" in
        let! suggested :=
          if toBoolean engine priorityFeeEstimate then inr priorityFeeEstimate
          else
            let! n := ceilOfTimes12 engine medium in
            inr (VNumber n) in
        inr (mkPriorityFeeEstimate
               (orValue engine low (number 0))
               (orValue engine medium (number 0))
               (orValue engine high (number 0))
               veryHigh min unsafeMax suggested
               times loadBehavior
               priorityFeeEstimate priorityFeeLevels)
      else inr getDefaultPriorityFees
    else inr getDefaultPriorityFees.

Definition JUPITER : jsstring := str "JUP6LkbZbjS1jKKwapdHNy74zcZ3tLUZoi5QNyVTaV4".

Definition estimatePriorityFeeByAccountKeys (fetch : Fetch) (connection : Connection)
    (accountKeys : option (list jsstring)) (options : option EstimateOptions)
    : Raises PriorityFeeEstimate :=
  let accountKeys := default [JUPITER] accountKeys in
  tryCatch
    (let rpcUrl := rpcEndpoint connection in
     let! response := fetch (post rpcUrl (AccountKeys accountKeys) options) in
     let! data := json engine response in
     readReply blockTimes data)
    (fun error => inr getDefaultPriorityFees).

(** Without a transaction, the second call, in the inner [catch], is
    returned without [await]: its failure would not be under the outer
    [try]. *)
Definition estimatePriorityFeeByTransaction (fetch : Fetch) (connection : Connection)
    (serializedTransaction : option jsstring) (options : option EstimateOptions)
    : Raises PriorityFeeEstimate :=
  let rpcUrl := rpcEndpoint connection in
  let encodedTransaction := serializedTransaction in
  if negb (truthyString encodedTransaction) then
    match estimatePriorityFeeByAccountKeys fetch connection None None with
    | inr estimate => inr estimate
    | inl txError => estimatePriorityFeeByAccountKeys fetch connection None None
    end
  else
    tryCatch
      (match encodedTransaction with
       | Some encoded =>
           if negb (falsy encoded) then
             let! response := fetch (post rpcUrl (Transaction encoded) options) in
             let! data := json engine response in
             readReply secondTimes data
           else inr getDefaultPriorityFees
       | None => inr getDefaultPriorityFees
       end)
      (fun error => inr getDefaultPriorityFees).

Definition TRANSACTION : jsstring := str "transaction".
Definition ACCOUNT_KEYS : jsstring := str "accountKeys".

(** [options?.method || 'accountKeys'] *)
Definition methodOf (options : option Options) : jsstring :=
  match options with
  | Some o =>
      match method o with
      | Some m => if falsy m then ACCOUNT_KEYS else m
      | None => ACCOUNT_KEYS
      end
  | None => ACCOUNT_KEYS
  end.

Definition estimatePriorityFee (fetch : Fetch) (connection : Connection)
    (options : option Options) : Raises PriorityFeeEstimate :=
  tryCatch
    (let method := methodOf options in
     let accountKeys := match options with Some o => accountKeys o | None => None end in
     let serializedTransaction :=
       match options with Some o => serializedTransaction o | None => None end in
     let inner :=
       Some (mkEstimateOptions
               (match options with Some o => o_lookbackSlots o | None => None end)
               (match options with Some o => o_includeVote o | None => None end)) in
     if bool_decide (method = TRANSACTION) then
       if truthyString serializedTransaction then
         estimatePriorityFeeByTransaction fetch connection serializedTransaction inner
       else estimatePriorityFeeByAccountKeys fetch connection accountKeys inner
     else estimatePriorityFeeByAccountKeys fetch connection accountKeys inner)
    (fun error => inr getDefaultPriorityFees).

(** The parameters of [GET_PRIORITY_FEE_ESTIMATE], each of which may be
    missing. *)
Record Params : Type := mkParams {
  p_method : option jsstring;
  p_accountKeys : option (list jsstring);
  p_serializedTransaction : option jsstring
}.

(** What the handler returns. *)
Record Response : Type := mkResponse {
  r_status : string;
  r_estimate : option PriorityFeeEstimate;
  r_message : jsstring;
  r_error : option jsstring;
  r_stack : option jsstring
}.

(** The message of a success; a list of account keys counts as true
    also where it is empty. *)
Definition successMessage (params : Params) : jsstring :=
  if bool_decide (p_method params = Some TRANSACTION) then
    str "Successfully estimated priority fees using transaction method"
  else if bool_decide (p_method params = Some ACCOUNT_KEYS)
          && bool_decide (p_accountKeys params <> None) then
    str "Successfully estimated priority fees for specific account keys"
  else str "Successfully estimated priority fees".

Definition handler (fetch : Fetch) (connection : Connection) (params : Params) : Response :=
  let method := p_method params in
  let accountKeys := p_accountKeys params in
  let serializedTransaction := p_serializedTransaction params in
  match estimatePriorityFee fetch connection
          (Some (mkOptions method accountKeys serializedTransaction None None)) with
  | inr feeEstimate =>
      mkResponse "success" (Some feeEstimate) (successMessage params) None None
  | inl error =>
      mkResponse "error" None
        (str "Failed to estimate priority fees: " ++ messageOf error)
        (Some (errorToString error))
        (Some (errorStack engine error))
  end.

End WithEngine.

End Fee.

(** The one request the action makes: a POST to the endpoint of the
    connection, asking for every level, over 150 slots, votes included;
    for the transaction where the method is [transaction] and one is
    given, for the account keys otherwise, Jupiter's where none is
    given. *)
Definition feeSubject (params : Fee.Params) : Fee.Subject :=
  if bool_decide (Fee.p_method params = Some Fee.TRANSACTION)
     && truthyString (Fee.p_serializedTransaction params)
  then Fee.Transaction (default [] (Fee.p_serializedTransaction params))
  else Fee.AccountKeys (default [Fee.JUPITER] (Fee.p_accountKeys params)).

Definition feeRequest (engine : Engine) (connection : Fee.Connection) (params : Fee.Params)
    : Fee.Request :=
  Fee.mkRequest (Fee.rpcEndpoint connection) "POST"
    [("Content-Type", "application/json")%string]
    (stringify engine
       (VObject
          [(str "jsonrpc", VString (str "2.0"));
           (str "id", VNumber (numberOf engine 1));
           (str "method", VString (str "getPriorityFeeEstimate"));
           (str "params",
            VArray
              [VObject
                 [match feeSubject params with
                  | Fee.AccountKeys keys => (str "accountKeys", VArray (map VString keys))
                  | Fee.Transaction encoded => (str "transaction", VString encoded)
                  end;
                  (str "options",
                   VObject
                     [(str "includeAllPriorityFeeLevels", VBool true);
                      (str "lookbackSlots", VNumber (numberOf engine 150));
                      (str "includeVote", VBool true)])]])])).

(** A level that is neither [undefined] nor [null]. *)
Definition present {Number : Type} (v : Value Number) : bool :=
  match v with
  | VUndefined | VNull => false
  | _ => true
  end.

(** The texts of [timeEstimates] of an estimate read from a reply. *)
Definition feeTimes (params : Fee.Params) : Fee.Texts :=
  match feeSubject params with
  | Fee.AccountKeys _ => Fee.blockTimes
  | Fee.Transaction _ => Fee.secondTimes
  end.

(** The estimate a reply gives, the defaults where reading it fails. *)
Definition replyEstimate (engine : Engine) (times : Fee.Texts)
    (reply : Raises (HttpResponse engine)) : Fee.PriorityFeeEstimate engine :=
  match (let! response := reply in
         let! data := json engine response in
         Fee.readReply engine times data) with
  | inr estimate => estimate
  | inl _ => Fee.getDefaultPriorityFees engine
  end.

(** ** Properties of the primitives *)

(** ** Reasoning about the matcher *)

Lemma lit_cons a p : lit (String a p) = Seq (chr a) (lit p).
Proof. reflexivity. Qed.

Lemma str_cons a p : str (String a p) = ch a :: str p.
Proof. reflexivity. Qed.

Lemma matcher_seq ci r1 r2 k s i c :
  matcher ci (Seq r1 r2) k s i c = matcher ci r1 (matcher ci r2 k) s i c.
Proof. reflexivity. Qed.

Lemma matcher_chr ci a k s i c :
  matcher ci (chr a) k s i c =
  match s with
  | x :: s' => if chrTest ci (ch a) x then k s' (S i) c else None
  | [] => None
  end.
Proof. reflexivity. Qed.

Lemma matcher_lit ci p k s i c :
  matcher ci (lit p) k s i c =
  match stripPrefix ci (str p) s with
  | Some s' => k s' (i + length (str p))%nat c
  | None => None
  end.
Proof.
  revert s i. induction p as [|a p IH]; intros s i.
  - simpl. f_equal. lia.
  - rewrite lit_cons, matcher_seq, matcher_chr, str_cons.
    destruct s as [|x s]; [reflexivity|]. cbn [stripPrefix].
    destruct (chrTest ci (ch a) x); [|reflexivity].
    rewrite IH. 
    destruct (stripPrefix ci (str p) s); [|reflexivity]. f_equal. cbn [length]. lia.
Qed.

Lemma anyChar_test ci x : atomTest ci anyChar x = true.
Proof.
  unfold atomTest, anyChar, inCsetCI. simpl.
  destruct ci; destruct (isWhiteSpace x); reflexivity.
Qed.

(** A literal character that is no letter matches itself only, also under
    the [i] flag. *)
Lemma chrTest_nonletter ci a x :
  isUpperAZ a = false -> isLowerAZ a = false -> chrTest ci a x = (x =? a).
Proof.
  unfold chrTest, atomTest, inCsetCI, isUpperAZ, isLowerAZ, asciiUpper, asciiLower, isUpperAZ, isLowerAZ.
  cbn [inCset xorb]. intros Hu Hl.
  destruct ci; [|reflexivity].
  destruct (N.eqb_spec x a) as [->|Hne].
  - reflexivity.
  - cbn [orb].
    repeat match goal with
    | |- context [N.leb ?a ?b] => destruct (N.leb_spec a b)
    | H : context [N.leb ?a ?b] |- _ => destruct (N.leb_spec a b)
    | |- context [N.eqb ?a ?b] => destruct (N.eqb_spec a b)
    end; cbn in *; try reflexivity; try discriminate; try lia.
Qed.

Lemma chrTest_LF ci x : chrTest ci LF x = (x =? LF).
Proof. apply chrTest_nonletter; reflexivity. Qed.
Lemma chrTest_HASH ci x : chrTest ci HASH x = (x =? HASH).
Proof. apply chrTest_nonletter; reflexivity. Qed.
Lemma chrTest_SPACE ci x : chrTest ci SPACE x = (x =? SPACE).
Proof. apply chrTest_nonletter; reflexivity. Qed.

Lemma matcher_nl ci k s i c :
  matcher ci nl k s i c =
  match s with
  | x :: s' => if x =? LF then k s' (S i) c else None
  | [] => None
  end.
Proof.
  change nl with (Atom (AClass false (CChar LF))). cbn [matcher].
  destruct s as [|x s]; [reflexivity|].
  change (atomTest ci (AClass false (CChar LF)) x) with (chrTest ci LF x).
  now rewrite chrTest_LF.
Qed.

Lemma matcher_alt ci r1 r2 k s i c :
  matcher ci (Alt r1 r2) k s i c =
  match matcher ci r1 k s i c with
  | Some y => Some y
  | None => matcher ci r2 k s i c
  end.
Proof. reflexivity. Qed.

Lemma matcher_eol ci k s i c :
  matcher ci Eol k s i c = match s with [] => k s i c | _ :: _ => None end.
Proof. reflexivity. Qed.

Lemma blockEnd_match ci s i c :
  matcher ci blockEndRe accept s i c =
  if blockEnds s then
    Some (match s with [] => [] | _ :: s' => tl s' end,
          match s with [] => i | _ :: _ => S (S i) end, c)
  else None.
Proof.
  unfold blockEndRe. rewrite !matcher_alt, !matcher_seq, !matcher_nl, matcher_eol.
  destruct s as [|x s]; [reflexivity|]. cbn [blockEnds].
  destruct (x =? LF); [|reflexivity]. cbn [andb].
  rewrite matcher_nl, matcher_chr.
  destruct s as [|y s]; [reflexivity|].
  change (ch "#") with HASH. rewrite chrTest_HASH.
  destruct (y =? LF); [reflexivity|]. cbn [orb].
  destruct (y =? HASH); reflexivity.
Qed.

Lemma lazy_any_unfold ci k s i c :
  repeatMatcher (atomTest ci anyChar) false 0 None k s i c =
  match k s i c with
  | Some r => Some r
  | None =>
      match s with
      | x :: s' => repeatMatcher (atomTest ci anyChar) false 0 None k s' (S i) c
      | [] => None
      end
  end.
Proof. destruct s as [|x s]; cbn [repeatMatcher predHi]; [|rewrite anyChar_test]; reflexivity. Qed.

Lemma firstn_length_app {A} (p s : list A) i : firstn (i + length p - i) (p ++ s) = p.
Proof.
  replace (i + length p - i)%nat with (length p) by lia.
  rewrite firstn_app, firstn_all, Nat.sub_diag. cbn. apply app_nil_r.
Qed.

(** The lazy group of the standard pattern captures [blockOf]. *)
Lemma block_capture ci s : forall p i0 c,
  exists r e,
    repeatMatcher (atomTest ci anyChar) false 0 None
      (fun s' i' c' => matcher ci blockEndRe accept s' i' ((1%nat, firstn (i' - i0) (p ++ s)) :: c'))
      s (i0 + length p) c
    = Some (r, e, (1%nat, p ++ blockOf s) :: c).
Proof.
  induction s as [|x s IH]; intros p i0 c; rewrite lazy_any_unfold, blockEnd_match.
  - cbn [blockEnds blockOf]. rewrite firstn_length_app, app_nil_r. eauto.
  - cbn [blockOf]. destruct (blockEnds (x :: s)).
    + rewrite firstn_length_app, app_nil_r. eauto.
    + specialize (IH (p ++ [x]) i0 c).
      rewrite <- app_assoc, length_app in IH. cbn [length app] in IH.
      replace (i0 + (length p + 1))%nat with (S (i0 + length p)) in IH by lia.
      rewrite <- app_assoc in IH. exact IH.
Qed.

Lemma standardRe_eq : standardRe = (Bol ∣ nl) · afterAnchorRe.
Proof. reflexivity. Qed.

Lemma group_block ci s i c :
  exists r e,
    matcher ci (Group 1 (Rep false 0 None anyChar) · blockEndRe) accept s i c
    = Some (r, e, (1%nat, blockOf s) :: c).
Proof.
  rewrite matcher_seq. cbn [matcher].
  pose proof (block_capture ci s [] i c) as H. cbn [app length] in H.
  rewrite Nat.add_0_r in H. exact H.
Qed.

Lemma repeat_done test greedy k s i c :
  repeatMatcher test greedy 0 (Some 0%nat) k s i c = k s i c.
Proof. destruct s; reflexivity. Qed.

Lemma afterAnchor_match s i c :
  match headerRest s with
  | Some body => exists r e, matcher true afterAnchorRe accept s i c = Some (r, e, (1%nat, blockOf body) :: c)
  | None => matcher true afterAnchorRe accept s i c = None
  end.
Proof.
  unfold afterAnchorRe. rewrite matcher_seq, matcher_chr.
  change (ch "#") with HASH. unfold headerRest.
  destruct s as [|x s1]; [reflexivity|]. rewrite chrTest_HASH.
  destruct (x =? HASH); [|reflexivity].
  rewrite matcher_seq.
  set (K := matcher true (lit "security.txt" · (nl ∣ Eol) · Group 1 (Rep false 0 None anyChar) · blockEndRe) accept).
  assert (HK : forall s j,
     match stripPrefix true (str "security.txt") s with
     | Some [] => exists r e, K s j c = Some (r, e, (1%nat, blockOf []) :: c)
     | Some (z :: s4) => if z =? LF then exists r e, K s j c = Some (r, e, (1%nat, blockOf s4) :: c) else K s j c = None
     | None => K s j c = None
     end).
  { intros s j. unfold K. rewrite matcher_seq, matcher_lit.
    destruct (stripPrefix true (str "security.txt") s) as [s3|]; [|reflexivity].
    rewrite matcher_seq, matcher_alt, matcher_nl, matcher_eol.
    destruct s3 as [|z s4].
    - apply group_block.
    - destruct (z =? LF); [|reflexivity].
      destruct (group_block true s4 (S (j + length (str "security.txt"))) c) as (r & e & ->). eauto. }
  cbn [matcher].
  change (atomTest true (AClass false (CChar (ch " ")))) with (chrTest true SPACE).
  destruct s1 as [|y s2]; cbn [repeatMatcher predHi Nat.pred].
  - specialize (HK [] (S i)). cbn in HK. exact HK.
  - rewrite chrTest_SPACE, repeat_done. destruct (N.eqb_spec y SPACE) as [->|Hy].
    + pose proof (HK s2 (S (S i))) as H2.
      assert (HS : K (SPACE :: s2) (S i) c = None).
      { specialize (HK (SPACE :: s2) (S i)). cbn in HK. exact HK. }
      destruct (stripPrefix true (str "security.txt") s2) as [[|z s4]|].
      * destruct H2 as (r & e & ->). eauto.
      * destruct (z =? LF).
        -- destruct H2 as (r & e & ->). eauto.
        -- rewrite H2. exact HS.
      * rewrite H2. exact HS.
    + specialize (HK (y :: s2) (S i)).
      destruct (stripPrefix true (str "security.txt") (y :: s2)) as [[|z s4]|]; try exact HK.
      destruct (z =? LF); exact HK.
Qed.

(** *** The search for the first match *)

Lemma search_first ci re f :
  capturesAt ci re f ->
  forall s i,
    match firstMatch f (Nat.eqb i 0) s with
    | Some g => exists mt, search ci re s i = Some mt /\ group 1 mt = Some g
    | None => search ci re s i = None
    end.
Proof.
  intros Hf s. induction s as [|x s IH]; intros i; cbn [firstMatch search].
  - specialize (Hf [] i). destruct (f (Nat.eqb i 0) []) as [g|].
    + destruct Hf as (r & e & ->). eexists. split; [reflexivity|]. reflexivity.
    + now rewrite Hf.
  - specialize (Hf (x :: s) i). destruct (f (Nat.eqb i 0) (x :: s)) as [g|].
    + destruct Hf as (r & e & ->). eexists. split; [reflexivity|]. reflexivity.
    + rewrite Hf. apply (IH (S i)).
Qed.

Lemma jsMatch_first ci re f text :
  capturesAt ci re f ->
  truthyGroup (jsMatch ci re text) =
  match firstMatch f true text with
  | Some g => if falsy g then None else Some g
  | None => None
  end.
Proof.
  intros Hf. unfold jsMatch, truthyGroup.
  pose proof (search_first ci re f Hf text 0) as H. cbn [Nat.eqb] in H.
  destruct (firstMatch f true text) as [g|].
  - destruct H as (mt & -> & ->). reflexivity.
  - now rewrite H.
Qed.

Lemma matcher_bol ci k s i c :
  matcher ci Bol k s i c = if Nat.eqb i 0 then k s i c else None.
Proof. reflexivity. Qed.

Lemma standard_captures : capturesAt true standardRe blockAt.
Proof.
  intros s i. unfold blockAt, headerAt.
  rewrite standardRe_eq, matcher_seq, matcher_alt, matcher_bol, matcher_nl.
  pose proof (afterAnchor_match s i []) as H0.
  destruct (Nat.eqb i 0).
  - destruct (headerRest s) as [b|]; cbn [orElse option_map].
    + destruct H0 as (r & e & ->). eauto.
    + rewrite H0. destruct s as [|x s']; [reflexivity|].
      destruct (x =? LF); [|reflexivity].
      pose proof (afterAnchor_match s' (S i) []) as H1.
      destruct (headerRest s'); cbn [option_map]; exact H1.
  - cbn [orElse]. destruct s as [|x s']; [reflexivity|].
    destruct (x =? LF); [|reflexivity].
    pose proof (afterAnchor_match s' (S i) []) as H1.
    destruct (headerRest s'); cbn [option_map]; exact H1.
Qed.

(** *** The header of a standard block, in words *)

Lemma chrTest_lower a x : isUpperAZ a = false -> chrTest true a x = (asciiLower x =? a).
Proof.
  unfold chrTest, atomTest, inCsetCI, asciiUpper, asciiLower, isUpperAZ, isLowerAZ.
  cbn [inCset xorb]. intros Hu.
  repeat match goal with
    | |- context [N.leb ?a ?b] => destruct (N.leb_spec a b)
    | H : context [N.leb ?a ?b] |- _ => destruct (N.leb_spec a b)
    | |- context [N.eqb ?a ?b] => destruct (N.eqb_spec a b)
    end; cbn in *; try reflexivity; try discriminate; try lia.
Qed.

Lemma stripPrefix_lower p : notUpper p -> forall s r,
  stripPrefix true p s = Some r <-> exists w, s = w ++ r /\ map asciiLower w = p.
Proof.
  induction 1 as [|a p Ha Hp IH]; intros s r; cbn [stripPrefix].
  - split.
    + intros [= ->]. now exists [].
    + intros (w & -> & Hw). destruct w; [reflexivity|discriminate].
  - destruct s as [|x s].
    + split; [discriminate|]. intros (w & Hs & Hw).
      destruct w; [discriminate|]. discriminate.
    + rewrite (chrTest_lower a x Ha). destruct (N.eqb_spec (asciiLower x) a) as [Hx|Hx].
      * rewrite IH. split.
        -- intros (w & -> & Hw). exists (x :: w). split; [reflexivity|]. cbn. now rewrite Hx, Hw.
        -- intros (w & Hs & Hw). destruct w as [|y w]; [discriminate|].
           cbn in Hs, Hw. injection Hs as -> ->. injection Hw as _ Hw. eauto.
      * split; [discriminate|]. intros (w & Hs & Hw).
        destruct w as [|y w]; [discriminate|]. cbn in Hs, Hw.
        injection Hs as -> ->. injection Hw as Hy _. contradiction.
Qed.

Lemma notUpper_securitytxt : notUpper (str "security.txt").
Proof. repeat constructor. Qed.

Lemma headerRest_spec s body :
  headerRest s = Some body <->
  exists h post, s = h ++ post /\ isHeader h
                 /\ ((post = [] /\ body = []) \/ post = LF :: body).
Proof.
  unfold headerRest. split.
  - destruct s as [|x s1]; [discriminate|].
    destruct (N.eqb_spec x HASH) as [->|]; [|discriminate].
    match goal with |- context [stripPrefix _ _ ?t] => set (s2 := t) end.
    assert (Hs1 : exists sp, s1 = sp ++ s2 /\ (sp = [] \/ sp = [SPACE])).
    { subst s2. destruct s1 as [|y s2]; [exists []; auto|].
      destruct (N.eqb_spec y SPACE) as [->|]; [exists [SPACE]; auto|exists []; auto]. }
    clearbody s2. destruct Hs1 as (sp & -> & Hsp).
    destruct (stripPrefix true (str "security.txt") s2) as [s3|] eqn:E; [|intros [=]].
    apply (stripPrefix_lower _ notUpper_securitytxt) in E. destruct E as (w & -> & Hw).
    intros H. exists (HASH :: sp ++ w), s3. split; [cbn [app]; f_equal; apply app_assoc|].
    split; [exists sp, w; auto|].
    destruct s3 as [|z s4]; cbn beta iota in H.
    + injection H as <-. auto.
    + destruct (N.eqb_spec z LF) as [->|]; [|discriminate H]. injection H as <-. auto.
  - intros (h & post & -> & (sp & w & -> & Hsp & Hw) & Hpost).
    cbn [app]. rewrite N.eqb_refl.
    match goal with |- context [stripPrefix _ _ ?t] => assert (Hs2 : t = w ++ post) end.
    { destruct Hsp as [-> | ->]; cbn [app].
      - destruct w as [|y w]; [discriminate|]. cbn [app].
        destruct (N.eqb_spec y SPACE) as [->|]; [|reflexivity].
        cbn in Hw. discriminate.
      - now rewrite N.eqb_refl. }
    rewrite Hs2.
    assert (E : stripPrefix true (str "security.txt") (w ++ post) = Some post).
    { apply (stripPrefix_lower _ notUpper_securitytxt). eauto. }
    rewrite E. destruct Hpost as [[-> ->] | ->]; [reflexivity|].
    now rewrite N.eqb_refl.
Qed.

Lemma headerRest_header h post :
  isHeader h -> lineEnd post -> headerRest (h ++ post) = Some (tl post).
Proof.
  intros Hh Hp. apply headerRest_spec. exists h, post. split; [reflexivity|]. split; [assumption|].
  destruct Hp as [-> | (p & ->)]; auto.
Qed.

Lemma headerRest_inv s body :
  headerRest s = Some body ->
  exists h post, s = h ++ post /\ isHeader h /\ lineEnd post /\ body = tl post.
Proof.
  intros H. apply headerRest_spec in H. destruct H as (h & post & -> & Hh & Hp).
  exists h, post. split; [reflexivity|]. split; [assumption|].
  destruct Hp as [[-> ->] | ->]; (split; [|reflexivity]); [left|right]; eauto.
Qed.

Lemma snoc_cons_inv {A} (x : A) l l' y :
  x :: l = l' ++ [y] -> (l = [] /\ x = y /\ l' = []) \/ exists l'', l' = x :: l'' /\ l = l'' ++ [y].
Proof.
  destruct l' as [|z l']; cbn; intros [= -> ->].
  - left. auto.
  - right. exists l'. auto.
Qed.

Lemma firstMatch_header_iff s : forall b,
  is_Some (firstMatch headerAt b s) <-> hasHeaderFrom b s.
Proof.
  induction s as [|x s IH]; intros b; cbn [firstMatch].
  - split.
    + destruct (headerAt b []) as [body|] eqn:E; [|intros [? [=]]].
      intros _. unfold headerAt in E. destruct b; cbn in E; discriminate.
    + intros (pre & h & post & Hs & _ & (sp & w & -> & _) & _).
      destruct pre; discriminate.
  - split.
    + destruct (headerAt b (x :: s)) as [body|] eqn:E.
      * intros _. unfold headerAt in E.
        destruct (if b then headerRest (x :: s) else None) as [b1|] eqn:E1; cbn [orElse] in E.
        -- destruct b; [|discriminate].
           apply headerRest_inv in E1. destruct E1 as (h & post & Hs & Hh & Hp & _).
           exists [], h, post. cbn [app]. auto.
        -- destruct (N.eqb_spec x LF) as [->|]; [|discriminate].
           apply headerRest_inv in E. destruct E as (h & post & -> & Hh & Hp & _).
           exists [LF], h, post. split; [reflexivity|]. split; [right; now exists []|]. auto.
      * intros H. apply IH in H. destruct H as (pre & h & post & -> & Hpre & Hh & Hp).
        destruct Hpre as [[_ [=]] | (pre' & ->)].
        exists (x :: pre' ++ [LF]), h, post. split; [reflexivity|].
        split; [right; now exists (x :: pre')|]. auto.
    + intros (pre & h & post & Hs & Hpre & Hh & Hp).
      destruct (headerAt b (x :: s)) as [body|] eqn:E; [eauto|].
      apply IH. destruct Hpre as [[-> ->] | (pre' & ->)].
      * cbn [app] in Hs. unfold headerAt in E. rewrite Hs, (headerRest_header h post Hh Hp) in E.
        discriminate.
      * destruct pre' as [|y pre'].
        -- cbn [app] in Hs. injection Hs as -> ->.
           unfold headerAt in E. rewrite N.eqb_refl, (headerRest_header h post Hh Hp) in E.
           destruct (if b then _ else _); discriminate.
        -- cbn [app] in Hs. injection Hs as -> ->.
           exists (pre' ++ [LF]), h, post. split; [reflexivity|].
           split; [right; eauto|]. auto.
Qed.

Lemma hasHeader_iff text :
  hasHeader text <-> is_Some (firstMatch headerAt true text).
Proof.
  rewrite firstMatch_header_iff. unfold hasHeader, hasHeaderFrom, lineStart.
  split; intros (pre & h & post & Hs & Hpre & Hh & Hp); exists pre, h, post;
    (split; [exact Hs|]); (split; [|auto]); destruct Hpre as [H|H]; auto.
  destruct H as [-> _]. auto.
Qed.

Lemma header_no_LF h : isHeader h -> ~ In LF h.
Proof.
  intros (sp & w & -> & Hsp & Hw) [H|H]; [discriminate|].
  apply in_app_or in H. destruct H as [H|H].
  - destruct Hsp as [-> | ->]; [destruct H|]. destruct H as [H|[]]. discriminate.
  - apply (in_map asciiLower) in H. rewrite Hw in H. cbn in H.
    repeat (destruct H as [H|H]; [discriminate|]). destruct H.
Qed.

Lemma app_eq_prefix {A} (x : A) l2 : forall l1 r1 r2,
  l1 ++ x :: r1 = l2 ++ r2 -> ~ In x l2 -> exists m, l1 = l2 ++ m /\ r2 = m ++ x :: r1.
Proof.
  induction l2 as [|a l2 IH]; intros l1 r1 r2 H Hx.
  - exists l1. cbn in *. auto.
  - destruct l1 as [|a' l1]; cbn in H; injection H as -> H.
    + exfalso. apply Hx. now left.
    + destruct (IH l1 r1 r2 H) as (m & -> & ->); [intros ?; apply Hx; now right|].
      exists m. auto.
Qed.

Lemma headerRest_local u' rest :
  is_Some (headerRest ((u' ++ [LF]) ++ rest)) -> is_Some (headerRest (u' ++ [LF])).
Proof.
  intros [body H]. apply headerRest_inv in H.
  destruct H as (h & post & Hs & Hh & Hp & _).
  rewrite <- app_assoc in Hs. cbn [app] in Hs.
  destruct (app_eq_prefix LF h u' rest post Hs (header_no_LF h Hh)) as (m & -> & ->).
  rewrite <- app_assoc.
  assert (Hm : lineEnd (m ++ [LF])).
  { destruct m as [|z m]; [right; now exists []|].
    destruct Hp as [Hp | (p & Hp)]; [discriminate|].
    cbn in Hp. injection Hp as -> _. right. eauto. }
  rewrite (headerRest_header h _ Hh Hm). eauto.
Qed.

Lemma firstMatch_unfold {A} (f : bool -> jsstring -> option A) b s :
  firstMatch f b s =
  match f b s with
  | Some a => Some a
  | None => match s with _ :: s' => firstMatch f false s' | [] => None end
  end.
Proof. destruct s; reflexivity. Qed.

Lemma not_is_Some_None {A} (o : option A) : (is_Some o -> False) -> o = None.
Proof. destruct o; [intros H; destruct H; eauto | reflexivity]. Qed.

Lemma headerAt_local b x u' rest :
  headerAt b (x :: u' ++ [LF]) = None -> headerAt b ((x :: u' ++ [LF]) ++ rest) = None.
Proof.
  unfold headerAt. intros H.
  assert (H1 : (if b then headerRest (x :: u' ++ [LF]) else None) = None).
  { destruct (if b then _ else _); [discriminate|reflexivity]. }
  rewrite H1 in H. cbn [orElse] in H.
  assert (H1' : (if b then headerRest ((x :: u' ++ [LF]) ++ rest) else None) = None).
  { destruct b; [|reflexivity]. apply not_is_Some_None. intros Hs.
    apply (headerRest_local (x :: u') rest) in Hs. cbn [app] in Hs. rewrite H1 in Hs.
    destruct Hs; discriminate. }
  rewrite H1'. cbn [orElse app].
  destruct (x =? LF); [|reflexivity].
  apply not_is_Some_None. intros Hs. apply headerRest_local in Hs. rewrite H in Hs.
  destruct Hs; discriminate.
Qed.

Lemma firstMatch_header_app pre : forall b rest body,
  ((pre = [] /\ b = true) \/ exists pre', pre = pre' ++ [LF]) ->
  firstMatch headerAt b pre = None ->
  headerRest rest = Some body ->
  firstMatch headerAt b (pre ++ rest) = Some body.
Proof.
  induction pre as [|x pre1 IH]; intros b rest body Hpre Hnone Hrest.
  - destruct Hpre as [[_ ->] | (p & Hp)]; [|destruct p; discriminate].
    cbn [app]. rewrite firstMatch_unfold. unfold headerAt. now rewrite Hrest.
  - destruct Hpre as [[[=] _] | (p & Hp)].
    cbn [firstMatch] in Hnone.
    destruct (headerAt b (x :: pre1)) eqn:E; [discriminate|].
    apply snoc_cons_inv in Hp. destruct Hp as [(-> & -> & ->) | (l & -> & ->)].
    + cbn [app firstMatch]. unfold headerAt. rewrite N.eqb_refl, Hrest.
      destruct b; reflexivity.
    + cbn [app firstMatch].
      pose proof (headerAt_local b x l rest E) as E'. cbn [app] in E'. rewrite E'.
      apply IH; [right; eauto | assumption | assumption].
Qed.

(** The first header of the text decides what the standard pattern
    captures. *)
Lemma first_header pre h post :
  lineStart pre -> ~ hasHeader pre -> isHeader h -> lineEnd post ->
  firstMatch headerAt true (pre ++ h ++ post) = Some (tl post).
Proof.
  intros Hpre Hno Hh Hp. apply firstMatch_header_app.
  - destruct Hpre as [-> | ?]; auto.
  - apply not_is_Some_None. intros Hs. apply Hno. now apply hasHeader_iff.
  - now apply headerRest_header.
Qed.

Lemma firstMatch_map {A B} (g : A -> B) (f : bool -> jsstring -> option A) s : forall b,
  firstMatch (fun b s => option_map g (f b s)) b s = option_map g (firstMatch f b s).
Proof.
  induction s as [|x s IH]; intros b; cbn [firstMatch]; destruct (f b _); cbn; auto.
Qed.

Lemma standard_truthy text :
  truthyGroup (jsMatch true standardRe text) =
  match firstMatch headerAt true text with
  | Some body => if falsy (blockOf body) then None else Some (blockOf body)
  | None => None
  end.
Proof.
  rewrite (jsMatch_first true standardRe blockAt text standard_captures).
  unfold blockAt. rewrite (firstMatch_map blockOf headerAt text true).
  destruct (firstMatch headerAt true text); reflexivity.
Qed.

(** *** Lines *)

Lemma blockOf_noLF l rest : noLF l -> blockOf (l ++ rest) = l ++ blockOf rest.
Proof.
  induction 1 as [|x l Hx Hl IH]; [reflexivity|].
  cbn [app blockOf blockEnds]. apply N.eqb_neq in Hx. rewrite Hx. cbn [andb]. now rewrite IH.
Qed.

Lemma blockOf_ends s : blockEnds s = true -> blockOf s = [].
Proof. destruct s; [reflexivity|]. cbn [blockOf]. now intros ->. Qed.

Lemma blockOf_lines ls tail :
  ls <> [] -> Forall blockLine ls -> blockEnds tail = true ->
  blockOf (joinLines ls ++ tail) = joinLines ls.
Proof.
  intros Hne Hls Ht. induction Hls as [|l ls Hl Hls IH]; [contradiction|].
  destruct ls as [|l2 ls].
  - cbn [joinLines]. destruct Hl as [Hl _].
    rewrite (blockOf_noLF l tail Hl), (blockOf_ends tail Ht). apply app_nil_r.
  - change (joinLines (l :: l2 :: ls)) with (l ++ LF :: joinLines (l2 :: ls)).
    destruct Hl as [Hl _]. rewrite <- app_assoc, (blockOf_noLF _ _ Hl). f_equal.
    cbn [app]. specialize (IH ltac:(discriminate)).
    inversion Hls as [|? ? Hl2 _]; subst.
    destruct Hl2 as [Hn2 (y & l2' & -> & Hy)].
    assert (E : blockEnds (LF :: joinLines ((y :: l2') :: ls) ++ tail) = false).
    { assert (Hj : exists r, joinLines ((y :: l2') :: ls) ++ tail = y :: r).
      { destruct ls; cbn; eauto. }
      destruct Hj as (r & ->). cbn [blockEnds].
      inversion Hn2 as [|? ? Hy' _]; subst.
      apply N.eqb_neq in Hy, Hy'. now rewrite N.eqb_refl, Hy, Hy'. }
    cbn [blockOf]. rewrite E. now rewrite IH.
Qed.

Lemma split_noLF l : noLF l -> split LF l = [l].
Proof.
  induction 1 as [|x l Hx Hl IH]; [reflexivity|].
  cbn [split]. apply N.eqb_neq in Hx. now rewrite Hx, IH.
Qed.

Lemma split_app_noLF l rest :
  noLF l -> split LF (l ++ LF :: rest) = l :: split LF rest.
Proof.
  induction 1 as [|x l Hx Hl IH]; cbn [app split].
  - now rewrite N.eqb_refl.
  - apply N.eqb_neq in Hx. now rewrite Hx, IH.
Qed.

Lemma split_joinLines ls :
  ls <> [] -> Forall noLF ls -> split LF (joinLines ls) = ls.
Proof.
  intros Hne Hls. induction Hls as [|l ls Hl Hls IH]; [contradiction|].
  destruct ls as [|l2 ls].
  - now apply split_noLF.
  - change (joinLines (l :: l2 :: ls)) with (l ++ LF :: joinLines (l2 :: ls)).
    rewrite (split_app_noLF _ _ Hl). f_equal. apply IH. discriminate.
Qed.

(** The standard pattern on a text whose first header is followed by a
    block of lines. *)
Lemma standard_block_found pre h ls tail :
  lineStart pre -> ~ hasHeader pre -> isHeader h ->
  ls <> [] -> Forall blockLine ls -> blockEnds tail = true ->
  truthyGroup (jsMatch true standardRe (pre ++ h ++ LF :: joinLines ls ++ tail))
  = Some (joinLines ls).
Proof.
  intros Hpre Hno Hh Hne Hls Ht.
  rewrite standard_truthy, (first_header pre h (LF :: joinLines ls ++ tail) Hpre Hno Hh).
  2:{ right. eauto. }
  cbn [tl]. rewrite (blockOf_lines ls tail Hne Hls Ht).
  destruct ls as [|l ls]; [contradiction|].
  inversion Hls as [|? ? Hl _]; subst. destruct Hl as [_ (x & l' & -> & _)].
  destruct ls; reflexivity.
Qed.

(** *** Literals up to case, and the delimited pattern *)

Lemma chrTest_ci a x : chrTest true a x = (asciiLower x =? asciiLower a).
Proof.
  unfold chrTest, atomTest, inCsetCI, asciiUpper, asciiLower, isUpperAZ, isLowerAZ.
  cbn [inCset xorb].
  repeat match goal with
    | |- context [N.leb ?a ?b] => destruct (N.leb_spec a b)
    | |- context [N.eqb ?a ?b] => destruct (N.eqb_spec a b)
    end; cbn in *; try reflexivity; try discriminate; try lia.
Qed.

Lemma stripPrefix_ci p : forall s r,
  stripPrefix true p s = Some r <->
  exists w, s = w ++ r /\ map asciiLower w = map asciiLower p.
Proof.
  induction p as [|a p IH]; intros s r; cbn [stripPrefix].
  - split.
    + intros [= ->]. now exists [].
    + intros (w & -> & Hw). destruct w; [reflexivity|discriminate].
  - destruct s as [|x s].
    + split; [discriminate|]. intros (w & Hs & Hw).
      destruct w; discriminate.
    + rewrite chrTest_ci. destruct (N.eqb_spec (asciiLower x) (asciiLower a)) as [Hx|Hx].
      * rewrite IH. split.
        -- intros (w & -> & Hw). exists (x :: w). split; [reflexivity|]. cbn. now rewrite Hx, Hw.
        -- intros (w & Hs & Hw). destruct w as [|y w]; [discriminate|].
           cbn in Hs, Hw. injection Hs as -> ->. injection Hw as _ Hw. eauto.
      * split; [discriminate|]. intros (w & Hs & Hw).
        destruct w as [|y w]; [discriminate|]. cbn in Hs, Hw.
        injection Hs as -> ->. injection Hw as Hy _. contradiction.
Qed.

Lemma stripPrefix_self p rest : stripPrefix true p (p ++ rest) = Some rest.
Proof. apply stripPrefix_ci. now exists p. Qed.

Lemma untilLit_capture ci E s : forall p i0 c,
  match untilLit ci (str E) s with
  | Some g =>
      exists r e,
        repeatMatcher (atomTest ci anyChar) false 0 None
          (fun s' i' c' => matcher ci (lit E) accept s' i' ((1%nat, firstn (i' - i0) (p ++ s)) :: c'))
          s (i0 + length p) c
        = Some (r, e, (1%nat, p ++ g) :: c)
  | None =>
      repeatMatcher (atomTest ci anyChar) false 0 None
        (fun s' i' c' => matcher ci (lit E) accept s' i' ((1%nat, firstn (i' - i0) (p ++ s)) :: c'))
        s (i0 + length p) c
      = None
  end.
Proof.
  induction s as [|x s IH]; intros p i0 c; rewrite lazy_any_unfold, matcher_lit; cbn [untilLit].
  - destruct (stripPrefix ci (str E) []) as [r|].
    + rewrite firstn_length_app, app_nil_r. unfold accept. eauto.
    + reflexivity.
  - destruct (stripPrefix ci (str E) (x :: s)) as [r|].
    + rewrite firstn_length_app, app_nil_r. unfold accept. eauto.
    + specialize (IH (p ++ [x]) i0 c).
      rewrite <- app_assoc, length_app in IH. cbn [length app] in IH.
      replace (i0 + (length p + 1))%nat with (S (i0 + length p)) in IH by lia.
      destruct (untilLit ci (str E) s) as [g|]; cbn [option_map].
      * destruct IH as (r & e & IH). rewrite <- app_assoc in IH. eauto.
      * exact IH.
Qed.

Lemma delimited_captures_gen ci B E :
  capturesAt ci (lit B · Group 1 (Rep false 0 None anyChar) · lit E) (delimitedAt ci B E).
Proof.
  intros s i. unfold delimitedAt. rewrite matcher_seq, matcher_lit.
  destruct (stripPrefix ci (str B) s) as [s'|]; [|reflexivity].
  rewrite matcher_seq. cbn [matcher].
  pose proof (untilLit_capture ci E s' [] (i + length (str B)) []) as H.
  cbn [app length] in H. rewrite Nat.add_0_r in H. exact H.
Qed.

Lemma delimited_captures : capturesAt true delimitedRe (delimitedAt true BEGIN_MARK END_MARK).
Proof. apply delimited_captures_gen. Qed.

Lemma occurs_unfold ci E s :
  occurs ci E s =
  match stripPrefix ci E s with
  | Some _ => true
  | None => match s with _ :: s' => occurs ci E s' | [] => false end
  end.
Proof. destruct s; reflexivity. Qed.

Lemma untilLit_unfold ci E s :
  untilLit ci E s =
  match stripPrefix ci E s with
  | Some _ => Some []
  | None => match s with x :: s' => option_map (cons x) (untilLit ci E s') | [] => None end
  end.
Proof. destruct s; reflexivity. Qed.

(** A literal without newline cannot match across a newline. *)
Lemma stripPrefix_barrier E : Forall (fun a => chrTest true a LF = false) E ->
  forall b rest, is_Some (stripPrefix true E (b ++ LF :: rest)) -> is_Some (stripPrefix true E b).
Proof.
  induction 1 as [|a E Ha HE IH]; intros b rest; cbn [stripPrefix]; [eauto|].
  destruct b as [|x b]; cbn [app].
  - rewrite Ha. intros [? [=]].
  - destruct (chrTest true a x); [apply IH | intros [? [=]]].
Qed.

Lemma untilLit_lines E c rest :
  E <> [] ->
  Forall (fun a => chrTest true a LF = false) E ->
  occurs true E c = false ->
  is_Some (stripPrefix true E rest) ->
  untilLit true E (c ++ LF :: rest) = Some (c ++ [LF]).
Proof.
  intros HE Hbar. induction c as [|x c IH]; intros Hocc Hrest.
  - cbn [app]. rewrite untilLit_unfold.
    destruct E as [|a E]; [contradiction|]. inversion Hbar as [|? ? Ha _]; subst.
    cbn [stripPrefix]. rewrite Ha.
    rewrite untilLit_unfold. destruct Hrest as [r ->]. reflexivity.
  - rewrite occurs_unfold in Hocc.
    destruct (stripPrefix true E (x :: c)) eqn:E1; [discriminate|].
    cbn [app]. rewrite untilLit_unfold.
    assert (E2 : stripPrefix true E (x :: c ++ LF :: rest) = None).
    { apply not_is_Some_None. intros Hs.
      apply (stripPrefix_barrier E Hbar (x :: c) rest) in Hs. rewrite E1 in Hs.
      destruct Hs; discriminate. }
    rewrite E2, (IH Hocc Hrest). reflexivity.
Qed.

Lemma headerRest_hash s : is_Some (headerRest s) -> exists s', s = HASH :: s'.
Proof.
  destruct s as [|x s]; cbn [headerRest]; [intros [? [=]]|].
  destruct (N.eqb_spec x HASH) as [->|]; [eauto | intros [? [=]]].
Qed.

Lemma hashLine_mono s : hashLine true s = false -> hashLine false s = false.
Proof. destruct s as [|x s]; [reflexivity|]. cbn [hashLine andb orb]. destruct (x =? HASH); [discriminate|auto]. Qed.

Lemma firstMatch_hash s : forall b, hashLine b s = false -> firstMatch headerAt b s = None.
Proof.
  induction s as [|x s IH]; intros b Hb; rewrite firstMatch_unfold.
  - unfold headerAt. destruct b; reflexivity.
  - assert (E : headerAt b (x :: s) = None).
    { apply not_is_Some_None. unfold headerAt. intros Hs.
      destruct b.
      - destruct (headerRest (x :: s)) eqn:E1.
        + destruct (headerRest_hash (x :: s)) as (s' & Hs'); [rewrite E1; eauto|].
          injection Hs' as -> _. cbn in Hb. discriminate.
        + cbn [orElse] in Hs. destruct (N.eqb_spec x LF) as [->|]; [|destruct Hs; discriminate].
          destruct (headerRest_hash s Hs) as (s' & ->). cbn in Hb. discriminate.
      - cbn [orElse] in Hs. destruct (N.eqb_spec x LF) as [->|]; [|destruct Hs; discriminate].
        destruct (headerRest_hash s Hs) as (s' & ->). cbn in Hb. discriminate. }
    rewrite E. apply IH. cbn [hashLine] in Hb. apply orb_false_iff in Hb. destruct Hb as [_ Hb].
    destruct (x =? LF); [now apply hashLine_mono | assumption].
Qed.

Lemma hashLine_noLF l rest : noLF l -> hashLine false (l ++ LF :: rest) = hashLine true rest.
Proof.
  induction 1 as [|x l Hx Hl IH]; cbn [app hashLine andb orb].
  - now rewrite N.eqb_refl.
  - apply N.eqb_neq in Hx. now rewrite Hx.
Qed.

Lemma hashLine_line l rest : blockLine l -> hashLine true (l ++ LF :: rest) = hashLine true rest.
Proof.
  intros [Hn (x & l' & -> & Hx)]. inversion Hn as [|? ? Hx' Hl']; subst.
  cbn [app hashLine andb]. apply N.eqb_neq in Hx, Hx'. rewrite Hx, Hx'. cbn [orb].
  now apply hashLine_noLF.
Qed.

Lemma hashLine_lines ls rest :
  ls <> [] -> Forall blockLine ls ->
  hashLine true (joinLines ls ++ LF :: rest) = hashLine true rest.
Proof.
  intros Hne Hls. induction Hls as [|l ls Hl Hls IH]; [contradiction|].
  destruct ls as [|l2 ls].
  - now apply hashLine_line.
  - change (joinLines (l :: l2 :: ls)) with (l ++ LF :: joinLines (l2 :: ls)).
    rewrite <- app_assoc. cbn [app]. rewrite (hashLine_line _ _ Hl). apply IH. discriminate.
Qed.

Lemma split_nonempty sep s : split sep s <> [].
Proof. destruct s as [|x s]; cbn; [discriminate|]. destruct (x =? sep); [discriminate|]. destruct (split sep s); discriminate. Qed.

Lemma split_snoc s : split LF (s ++ [LF]) = split LF s ++ [[]].
Proof.
  induction s as [|x s IH]; [reflexivity|]. cbn [app split].
  destruct (x =? LF); [now rewrite IH|]. rewrite IH.
  pose proof (split_nonempty LF s). destruct (split LF s); [contradiction|reflexivity].
Qed.

Section ParseLemmas.
Variable lower : jsstring -> jsstring.

Lemma parseLine_empty r : parseLine lower r [] = r.
Proof. reflexivity. Qed.

Lemma parse_framed c : parseSecurityTxt lower (LF :: c ++ [LF]) = parseSecurityTxt lower c.
Proof.
  unfold parseSecurityTxt. cbn [split]. rewrite N.eqb_refl, split_snoc.
  cbn [fold_left]. rewrite parseLine_empty, fold_left_app. reflexivity.
Qed.
End ParseLemmas.

Lemma isHeader_plain : isHeader (str "# security.txt").
Proof. exists [SPACE], (str "security.txt"). auto. Qed.

Lemma no_header_nil : ~ hasHeader [].
Proof. rewrite hasHeader_iff. cbn. intros [? [=]]. Qed.

Lemma standardForm_block ls :
  ls <> [] -> Forall blockLine ls ->
  truthyGroup (jsMatch true standardRe (standardForm (joinLines ls))) = Some (joinLines ls).
Proof.
  intros Hne Hls.
  pose proof (standard_block_found [] (str "# security.txt") ls [] (or_introl eq_refl)
                no_header_nil isHeader_plain Hne Hls eq_refl) as H.
  rewrite app_nil_r in H. exact H.
Qed.

Lemma delimitedForm_no_header ls :
  ls <> [] -> Forall blockLine ls ->
  truthyGroup (jsMatch true standardRe (delimitedForm (joinLines ls))) = None.
Proof.
  intros Hne Hls. rewrite standard_truthy, firstMatch_hash; [reflexivity|].
  unfold delimitedForm. cbn [str BEGIN_MARK list_ascii_of_string map app hashLine].
  cbn. rewrite (hashLine_lines ls _ Hne Hls). reflexivity.
Qed.

Lemma delimitedForm_block c :
  occurs true (str END_MARK) c = false ->
  truthyGroup (jsMatch true delimitedRe (delimitedForm c)) = Some (LF :: c ++ [LF]).
Proof.
  intros Hocc. rewrite (jsMatch_first true delimitedRe _ _ delimited_captures).
  rewrite firstMatch_unfold. unfold delimitedForm, delimitedAt at 1.
  rewrite stripPrefix_self, untilLit_unfold.
  change (stripPrefix true (str END_MARK) (LF :: c ++ LF :: str END_MARK)) with (@None jsstring).
  rewrite (untilLit_lines (str END_MARK) c (str END_MARK)); try assumption.
  - reflexivity.
  - discriminate.
  - repeat constructor.
  - eauto.
Qed.

(** *** Greedy runs and the single-field patterns *)

Lemma firstn_takeRun test s : firstn (length (takeRun test s)) s = takeRun test s.
Proof. induction s as [|x s IH]; [reflexivity|]. cbn. destruct (test x); cbn; [now rewrite IH|reflexivity]. Qed.

(** A greedy quantifier in front of a continuation that always succeeds
    takes the longest run. *)
Lemma greedy_total test (k : Continuation) :
  (forall s i c, is_Some (k s i c)) ->
  forall s i c,
    repeatMatcher test true 0 None k s i c
    = k (dropRun test s) (i + length (takeRun test s))%nat c.
Proof.
  intros Hk. induction s as [|x s IH]; intros i c; cbn [repeatMatcher predHi takeRun dropRun length].
  - now rewrite Nat.add_0_r.
  - destruct (test x); cbn [length].
    + rewrite IH. destruct (Hk (dropRun test s) (S i + length (takeRun test s))%nat c) as [r Hr].
      rewrite Hr, <- Hr. f_equal. lia.
    + now rewrite Nat.add_0_r.
Qed.

Lemma notNewline_test ci x : atomTest ci notNewline x = notLF x.
Proof.
  unfold atomTest, notNewline, notLF. destruct ci; [|reflexivity].
  change (inCsetCI true (CChar LF) x) with (chrTest true LF x). now rewrite chrTest_LF.
Qed.

Lemma field_captures name :
  capturesAt true (lit name · Group 1 (Rep true 1 None notNewline)) (fieldAt name).
Proof.
  intros s i. unfold fieldAt. rewrite matcher_seq, matcher_lit.
  destruct (stripPrefix true (str name) s) as [s'|]; [|reflexivity].
  cbn [matcher]. set (j := (i + length (str name))%nat).
  destruct s' as [|x s']; [reflexivity|].
  cbn [repeatMatcher predHi takeRun]. rewrite notNewline_test.
  destruct (notLF x) eqn:Ex; [|reflexivity].
  rewrite (greedy_total (atomTest true notNewline)); [|unfold accept; eauto].
  unfold accept.
  assert (Hrun : takeRun (atomTest true notNewline) s' = takeRun notLF s').
  { clear. induction s' as [|y s' IH]; [reflexivity|].
    cbn [takeRun]. rewrite notNewline_test. destruct (notLF y); [now rewrite IH|reflexivity]. }
  replace (S j + length (takeRun (atomTest true notNewline) s') - j)%nat
    with (S (length (takeRun (atomTest true notNewline) s'))) by lia.
  cbn [firstn]. rewrite firstn_takeRun, Hrun. eauto.
Qed.

Lemma contact_captures : capturesAt true contactRe (fieldAt "Contact: ").
Proof. apply field_captures. Qed.

Lemma securityContact_captures : capturesAt true securityContactRe (fieldAt "Security-Contact: ").
Proof. apply field_captures. Qed.

Lemma stripPrefix_app ci p1 p2 s :
  stripPrefix ci (p1 ++ p2) s =
  match stripPrefix ci p1 s with
  | Some s1 => stripPrefix ci p2 s1
  | None => None
  end.
Proof.
  revert s. induction p1 as [|a p1 IH]; intros s; [reflexivity|].
  cbn [app stripPrefix]. destruct s as [|x s]; [reflexivity|].
  destruct (chrTest ci a x); [apply IH|reflexivity].
Qed.

Lemma stripPrefix_suffix ci p : forall s r,
  stripPrefix ci p s = Some r -> exists w, s = w ++ r /\ length w = length p.
Proof.
  induction p as [|a p IH]; intros s r; cbn [stripPrefix].
  - intros [= ->]. now exists [].
  - destruct s as [|x s]; [discriminate|]. destruct (chrTest ci a x); [|discriminate].
    intros H. destruct (IH s r H) as (w & -> & Hw). exists (x :: w). cbn. auto.
Qed.

Lemma firstMatch_none_suffix {A} (f : bool -> jsstring -> option A) pre : forall b suf,
  firstMatch f b (pre ++ suf) = None -> pre <> [] -> firstMatch f false suf = None.
Proof.
  induction pre as [|x pre IH]; intros b suf H Hne; [contradiction|].
  cbn [app firstMatch] in H. destruct (f b (x :: pre ++ suf)); [discriminate|].
  destruct pre as [|y pre]; [exact H|]. apply (IH false); [exact H|discriminate].
Qed.

(** Whatever [Security-Contact: ] matches, [Contact: ] matches as well. *)
Lemma securityContact_shadowed s : forall b,
  firstMatch (fieldAt "Contact: ") b s = None ->
  firstMatch (fieldAt "Security-Contact: ") b s = None.
Proof.
  induction s as [|x s IH]; intros b H.
  - reflexivity.
  - cbn [firstMatch] in H |- *.
    destruct (fieldAt "Contact: " b (x :: s)) eqn:E0; [discriminate|].
    assert (E : fieldAt "Security-Contact: " b (x :: s) = None).
    { unfold fieldAt.
      change (str "Security-Contact: ") with (str "Security-" ++ str "Contact: ").
      rewrite stripPrefix_app.
      destruct (stripPrefix true (str "Security-") (x :: s)) as [s1|] eqn:E1; [|reflexivity].
      apply stripPrefix_suffix in E1. destruct E1 as (w & Hw & Hlen).
      destruct w as [|y w]; [discriminate|]. cbn [app] in Hw. injection Hw as <- ->.
      destruct w as [|z w]; [discriminate|].
      pose proof (firstMatch_none_suffix (fieldAt "Contact: ") (z :: w) false s1 H ltac:(discriminate)) as H1.
      rewrite firstMatch_unfold in H1. unfold fieldAt at 1 in H1.
      destruct (stripPrefix true (str "Contact: ") s1); [|reflexivity].
      destruct (takeRun notLF l); [reflexivity|discriminate]. }
    rewrite E. now apply IH.
Qed.

(** *** Kebab case to camel case *)

Lemma kebab_at s i :
  matcher false kebabRe accept s i [] =
  match s with
  | x :: y :: s'' =>
      if (x =? HYPHEN) && isLowerAZ y then Some (s'', S (S i), [(1%nat, [y])]) else None
  | _ => None
  end.
Proof.
  unfold kebabRe. rewrite matcher_seq, matcher_chr.
  destruct s as [|x [|y s'']]; [reflexivity| |].
  - change (chrTest false (ch "-") x) with (x =? HYPHEN). destruct (x =? HYPHEN); reflexivity.
  - change (chrTest false (ch "-") x) with (x =? HYPHEN). destruct (x =? HYPHEN); [|reflexivity].
    cbn [matcher andb]. change (atomTest false (AClass false (rng "a" "z")) y) with (isLowerAZ y).
    destruct (isLowerAZ y); [|reflexivity].
    unfold accept. replace (S (S i) - S i)%nat with 1%nat by lia. reflexivity.
Qed.

Lemma kebabFind_search s : forall i,
  search false kebabRe s i =
  match kebabFind s with
  | Some (pre, y, rest) =>
      Some (mkMatch (i + length pre) [HYPHEN; y] rest (S (S (i + length pre))) [(1%nat, [y])])
  | None => None
  end.
Proof.
  induction s as [|x s IH]; intros i; cbn [search kebabFind]; rewrite kebab_at; [reflexivity|].
  destruct s as [|y s'']; [reflexivity|].
  destruct ((x =? HYPHEN) && isLowerAZ y) eqn:E.
  - apply andb_true_iff in E. destruct E as [Ex _]. apply N.eqb_eq in Ex. subst x.
    cbn [length]. rewrite Nat.add_0_r. replace (S (S i) - i)%nat with 2%nat by lia. reflexivity.
  - rewrite IH. destruct (kebabFind (y :: s'')) as [[[pre z] rest]|]; [|reflexivity].
    cbn [length]. do 2 f_equal; lia.
Qed.

Lemma kebabFind_split s : forall pre y rest,
  kebabFind s = Some (pre, y, rest) -> s = pre ++ HYPHEN :: y :: rest.
Proof.
  induction s as [|x s IH]; intros pre y rest; cbn [kebabFind]; [discriminate|].
  destruct s as [|y' s'']; [discriminate|].
  destruct ((x =? HYPHEN) && isLowerAZ y') eqn:E.
  - intros [= <- <- <-]. apply andb_true_iff in E. destruct E as [Ex _].
    apply N.eqb_eq in Ex. now subst x.
  - destruct (kebabFind (y' :: s'')) as [[[pre' z] rest']|] eqn:E'; [|discriminate].
    intros [= <- <- <-]. cbn [app]. f_equal. now apply IH.
Qed.

Lemma kebabFind_fold s :
  foldKebab s =
  match kebabFind s with
  | Some (pre, y, rest) => pre ++ asciiUpper y :: foldKebab rest
  | None => s
  end.
Proof.
  induction s as [|x s IH]; [reflexivity|]. cbn [foldKebab kebabFind].
  destruct s as [|y s'']; [reflexivity|].
  destruct ((x =? HYPHEN) && isLowerAZ y); [reflexivity|].
  rewrite IH. destruct (kebabFind (y :: s'')) as [[[pre z] rest]|]; reflexivity.
Qed.

Lemma kebab_replace fuel : forall s i,
  (length s < fuel)%nat -> replaceFrom fuel false kebabRe upperLetter s i = foldKebab s.
Proof.
  induction fuel as [|fuel IH]; intros s i Hlen; [lia|].
  cbn [replaceFrom]. rewrite kebabFind_search, kebabFind_fold.
  destruct (kebabFind s) as [[[pre y] rest]|] eqn:E; [|reflexivity].
  apply kebabFind_split in E. subst s. cbn [m_index m_end m_rest].
  replace (i + length pre - i)%nat with (length pre) by lia.
  rewrite firstn_app, firstn_all, Nat.sub_diag. cbn [firstn]. rewrite app_nil_r.
  replace (Nat.eqb (S (S (i + length pre))) (i + length pre)) with false
    by (symmetry; apply Nat.eqb_neq; lia).
  f_equal. unfold upperLetter at 1. cbn [group m_caps lookupCap Nat.eqb default toUpperCase map app].
  f_equal.
  apply IH. rewrite length_app in Hlen. cbn [length] in Hlen. lia.
Qed.

Lemma kebab_replaceAll s :
  jsReplaceAll false kebabRe upperLetter s = foldKebab s.
Proof. apply kebab_replace. lia. Qed.

(** *** The line pattern *)

Lemma greedy_stop test (k : Continuation) p : forall q i c r,
  Forall (fun x => test x = true) p ->
  match q with [] => True | y :: _ => test y = false end ->
  k q (i + length p)%nat c = Some r ->
  repeatMatcher test true 0 None k (p ++ q) i c = Some r.
Proof.
  induction p as [|x p IH]; intros q i c r Hp Hq Hk.
  - cbn [app length] in *. rewrite Nat.add_0_r in Hk.
    destruct q as [|y q]; cbn [repeatMatcher predHi]; [exact Hk|]. now rewrite Hq.
  - inversion Hp as [|? ? Hx Hp']; subst. cbn [app repeatMatcher predHi]. rewrite Hx.
    rewrite (IH q (S i) c r Hp' Hq); [reflexivity|].
    rewrite <- Hk. f_equal. cbn [length]. lia.
Qed.

Lemma takeRun_dropRun test s : s = takeRun test s ++ dropRun test s.
Proof. induction s as [|x s IH]; [reflexivity|]. cbn. destruct (test x); cbn; [now rewrite <- IH|reflexivity]. Qed.

Lemma takeRun_Forall test s : Forall (fun x => test x = true) (takeRun test s).
Proof. induction s as [|x s IH]; cbn; [constructor|]. destruct (test x) eqn:E; constructor; assumption. Qed.

Lemma dropRun_head test s : match dropRun test s with [] => True | y :: _ => test y = false end.
Proof. induction s as [|x s IH]; cbn; [exact I|]. destruct (test x) eqn:E; [exact IH|exact E]. Qed.

Lemma dropRun_trimStart s : dropRun isWhiteSpace s = trimStart s.
Proof. induction s as [|x s IH]; [reflexivity|]. cbn. now rewrite IH. Qed.

Lemma line_match k v :
  k <> [] -> noColon k -> noTerminator v ->
  exists mt, jsMatch false lineRe (k ++ COLON :: v) = Some mt
             /\ group 1 mt = Some k /\ group 2 mt = Some (trimStart v).
Proof.
  intros Hne Hk Hv. destruct k as [|x k']; [contradiction|].
  inversion Hk as [|? ? Hx Hk']; subst.
  set (s := (x :: k') ++ COLON :: v).
  assert (Hm : matcher false lineRe accept s 0 []
               = Some ([], (S (S (length k')) + length v)%nat,
                       [(2%nat, trimStart v); (1%nat, x :: k')])).
  { unfold lineRe. rewrite matcher_seq, matcher_bol. cbn [Nat.eqb].
    rewrite matcher_seq. cbn [matcher]. subst s. cbn [app repeatMatcher predHi].
    change (atomTest false (AClass true (CChar (ch ":"))) x) with (negb (x =? COLON)).
    apply N.eqb_neq in Hx. rewrite Hx. cbn [negb].
    apply greedy_stop.
    - clear -Hk'. induction Hk' as [|y l Hy Hl IH]; constructor; [|exact IH].
      change (negb (y =? COLON) = true). apply N.eqb_neq in Hy. now rewrite Hy.
    - change (negb (COLON =? COLON) = false). now rewrite N.eqb_refl.
    - cbv beta. rewrite matcher_chr.
      change (chrTest false (ch ":") COLON) with (COLON =? COLON). rewrite N.eqb_refl.
      change (atomTest false (AClass false CWhite)) with isWhiteSpace.
      rewrite (takeRun_dropRun isWhiteSpace v) at 1.
      apply greedy_stop; [apply takeRun_Forall | apply dropRun_head |].
      rewrite <- (app_nil_r (dropRun isWhiteSpace v)) at 1.
      apply greedy_stop.
      + rewrite dropRun_trimStart.
        assert (Hd : Forall (fun c => atomTest false ADot c = true) v).
        { clear -Hv. induction Hv as [|y l Hy Hl IH]; constructor; [|exact IH].
          cbn [atomTest]. now rewrite Hy. }
        clear -Hd. induction Hd as [|y l Hy Hl IH]; cbn [trimStart]; [constructor|].
        destruct (isWhiteSpace y); [exact IH|]. now constructor.
      + exact I.
      + unfold accept.
        pose proof (f_equal (@length N) (takeRun_dropRun isWhiteSpace v)) as HL.
        rewrite length_app in HL.
        match goal with |- context [firstn ?n (dropRun isWhiteSpace v)] =>
          replace n with (length (dropRun isWhiteSpace v)) by lia end.
        rewrite firstn_all, dropRun_trimStart.
        replace (1 + length k' - 0)%nat with (length (x :: k')) by (cbn; lia).
        change (x :: k' ++ COLON :: v) with ((x :: k') ++ COLON :: v).
        rewrite firstn_app, firstn_all, Nat.sub_diag, app_nil_r.
        do 3 f_equal. rewrite <- dropRun_trimStart. lia. }
  unfold jsMatch. subst s. cbn [app] in Hm |- *. cbn [search]. rewrite Hm.
  eexists. split; [reflexivity|]. split; reflexivity.
Qed.

(** *** Trimming *)

Lemma trimStart_head x s : isWhiteSpace x = false -> trimStart (x :: s) = x :: s.
Proof. intros H. cbn. now rewrite H. Qed.

Lemma trimStart_snoc x : isWhiteSpace x = false ->
  forall l, exists l', trimStart (l ++ [x]) = l' ++ [x].
Proof.
  intros Hx. induction l as [|y l IH]; cbn [app trimStart].
  - rewrite Hx. now exists [].
  - destruct (isWhiteSpace y); [exact IH|]. now exists (y :: l).
Qed.

Lemma trim_head x s : isWhiteSpace x = false -> exists t, trim (x :: s) = x :: t.
Proof.
  intros Hx. unfold trim, trimEnd. rewrite (trimStart_head x s Hx). cbn [rev].
  destruct (trimStart_snoc x Hx (rev s)) as (l' & ->). rewrite rev_app_distr. cbn. eauto.
Qed.

Lemma trimStart_noSpace k : noSpace k -> trimStart k = k.
Proof. destruct 1 as [|x k Hx _]; [reflexivity|]. now apply trimStart_head. Qed.

Lemma trim_noSpace k : noSpace k -> trim k = k.
Proof.
  intros Hk. unfold trim, trimEnd. rewrite (trimStart_noSpace k Hk).
  rewrite trimStart_noSpace; [apply rev_involutive|]. now apply Forall_rev.
Qed.

Lemma trimStart_idem v : trimStart (trimStart v) = trimStart v.
Proof.
  induction v as [|x v IH]; [reflexivity|]. cbn [trimStart].
  destruct (isWhiteSpace x) eqn:E; [exact IH|]. cbn [trimStart]. now rewrite E.
Qed.

Lemma trim_trimStart v : trim (trimStart v) = trim v.
Proof. unfold trim. now rewrite trimStart_idem. Qed.

(** *** Field lines *)

Lemma fieldChar_range c :
  fieldChar c = true ->
  (97 <= c <= 122) \/ (65 <= c <= 90) \/ (48 <= c <= 57) \/ c = 45.
Proof.
  unfold fieldChar, isLowerAZ, isUpperAZ, isDigit. change HYPHEN with 45.
  rewrite !orb_true_iff, !andb_true_iff, !N.leb_le, N.eqb_eq. tauto.
Qed.

Lemma fieldChar_noSpace c : fieldChar c = true -> isWhiteSpace c = false.
Proof. intros H. apply fieldChar_range in H. unfold isWhiteSpace. decide_cmp. reflexivity. Qed.

Lemma fieldChar_ascii c : fieldChar c = true -> isAscii c = true.
Proof. intros H. apply fieldChar_range in H. unfold isAscii. decide_cmp. reflexivity. Qed.

Lemma fieldChar_plain c :
  fieldChar c = true -> c <> HASH /\ c <> COLON /\ c <> LF.
Proof.
  intros H. apply fieldChar_range in H.
  change HASH with 35. change COLON with 58. change LF with 10. lia.
Qed.

Lemma fieldChar_lower c : fieldChar c = true -> asciiLower c <> UNDERSCORE /\ asciiUpper (asciiLower c) <> UNDERSCORE.
Proof.
  intros H. apply fieldChar_range in H. change UNDERSCORE with 95.
  unfold asciiLower, asciiUpper, isUpperAZ, isLowerAZ.
  destruct H as [H|[H|[H|H]]]; decide_cmp; cbn [andb]; decide_cmp; cbn [andb]; lia.
Qed.

Lemma foldKebab_cons x y s :
  foldKebab (x :: y :: s) =
  if (x =? HYPHEN) && isLowerAZ y then asciiUpper y :: foldKebab s
  else x :: foldKebab (y :: s).
Proof. reflexivity. Qed.

Lemma foldKebab_chars_le (P : N -> Prop) n : forall s,
  (length s <= n)%nat ->
  Forall (fun c => P c /\ P (asciiUpper c)) s -> Forall P (foldKebab s).
Proof.
  induction n as [|n IH]; intros s Hn Hs.
  - destruct s; [constructor|cbn in Hn; lia].
  - destruct s as [|x [|y s'']]; [constructor| |].
    + inversion Hs as [|? ? [Hx _] _]; subst. now repeat constructor.
    + rewrite foldKebab_cons.
      inversion Hs as [|? ? [Hx _] Hs']; subst. inversion Hs' as [|? ? [_ Hy] Hs'']; subst.
      cbn [length] in Hn.
      destruct ((x =? HYPHEN) && isLowerAZ y).
      * constructor; [exact Hy|]. apply IH; [lia|exact Hs''].
      * constructor; [exact Hx|]. apply IH; [cbn [length]; lia|exact Hs'].
Qed.

Lemma foldKebab_chars (P : N -> Prop) s :
  Forall (fun c => P c /\ P (asciiUpper c)) s -> Forall P (foldKebab s).
Proof. apply (foldKebab_chars_le P (length s)). lia. Qed.

Lemma camelKey_not_proto k : isFieldName k -> camelKey k <> str "__proto__".
Proof.
  intros [Hne Hk] E.
  assert (H : Forall (fun c => c <> UNDERSCORE) (camelKey k)).
  { apply foldKebab_chars. clear -Hk. induction Hk as [|c k Hc Hk IH]; constructor; [|exact IH].
    now apply fieldChar_lower. }
  rewrite E in H. inversion H as [|? ? Hx _]. now apply Hx.
Qed.

Lemma setProperty_insert (k v : jsstring) (o : gmap jsstring jsstring) :
  k <> str "__proto__" -> setProperty k v o = <[k := v]> o.
Proof. intros H. unfold setProperty. now destruct (decide (k = str "__proto__")). Qed.

Lemma Forall_weaken {A} (P Q : A -> Prop) l :
  (forall a, P a -> Q a) -> Forall P l -> Forall Q l.
Proof. intros H. induction 1; constructor; auto. Qed.

Lemma noTerminator_noLF v : noTerminator v -> noLF v.
Proof.
  apply Forall_weaken. intros c Hc ->. discriminate.
Qed.

Lemma fieldLine_blockLine kv : validField kv -> blockLine (fieldLine kv).
Proof.
  destruct kv as [k v]. intros [[Hne Hk] Hv]. unfold fieldLine. cbn [fst snd]. split.
  - apply Forall_app. split.
    + revert Hk. apply Forall_weaken. intros c Hc. now apply fieldChar_plain.
    + constructor; [discriminate|]. now apply noTerminator_noLF.
  - destruct k as [|x k]; [contradiction|]. exists x, (k ++ COLON :: v). split; [reflexivity|].
    inversion Hk; subst. now apply fieldChar_plain.
Qed.

Section FieldLines.
Variable lower : jsstring -> jsstring.

Lemma toLowerCase_ascii s : forallb isAscii s = true -> toLowerCase lower s = map asciiLower s.
Proof. intros H. unfold toLowerCase. now rewrite H. Qed.

Lemma parseLine_field r kv :
  validField kv -> parseLine lower r (fieldLine kv) = storeField r kv.
Proof.
  destruct kv as [k v]. intros [[Hne Hk] Hv]. unfold fieldLine, storeField. cbn [fst snd].
  unfold parseLine.
  destruct k as [|x k']; [contradiction|].
  assert (Hx : fieldChar x = true) by (inversion Hk; assumption).
  destruct (trim_head x (k' ++ COLON :: v) (fieldChar_noSpace x Hx)) as (t & Ht).
  cbn [app]. rewrite Ht. cbn [falsy startsWith orb].
  destruct (fieldChar_plain x Hx) as (HxH & _ & _). apply N.eqb_neq in HxH.
  change (ch "#") with HASH. rewrite HxH.
  destruct (line_match (x :: k') v Hne) as (mt & Hm & Hg1 & Hg2).
  { revert Hk. apply Forall_weaken. intros c Hc. now apply fieldChar_plain. }
  { exact Hv. }
  cbn [app] in Hm. rewrite Hm, Hg1, Hg2.
  rewrite trim_noSpace.
  2:{ revert Hk. apply Forall_weaken. intros c Hc. now apply fieldChar_noSpace. }
  rewrite toLowerCase_ascii.
  2:{ apply forallb_forall. intros c Hc. apply fieldChar_ascii.
      rewrite Forall_forall in Hk. apply Hk. now apply list_elem_of_In. }
  change (fun m : Match => toUpperCase (default [] (group 1 m))) with upperLetter.
  rewrite kebab_replaceAll, trim_trimStart.
  apply setProperty_insert. apply (camelKey_not_proto (x :: k')). now split.
Qed.

Lemma parse_fields fields : forall r,
  Forall validField fields ->
  fold_left (parseLine lower) (map fieldLine fields) r = fold_left storeField fields r.
Proof.
  induction fields as [|kv fields IH]; intros r Hf; [reflexivity|].
  inversion Hf as [|? ? Hkv Hf']; subst. cbn [map fold_left].
  rewrite (parseLine_field r kv Hkv). now apply IH.
Qed.

Lemma parseSecurityTxt_fields fields :
  fields <> [] -> Forall validField fields ->
  parseSecurityTxt lower (joinLines (map fieldLine fields)) = fold_left storeField fields ∅.
Proof.
  intros Hne Hf. unfold parseSecurityTxt. rewrite split_joinLines.
  - now apply parse_fields.
  - destruct fields; [contradiction|discriminate].
  - apply Forall_map. revert Hf. apply Forall_weaken. intros kv Hkv.
    apply (fieldLine_blockLine kv Hkv).
Qed.
End FieldLines.

(** *** Public keys and the resolver *)

Lemma bigEndian_bound l : forall acc,
  Forall (fun b => b < 256) l ->
  fold_left (fun acc b => acc * 256 + b) l acc < (acc + 1) * 256 ^ N.of_nat (length l).
Proof.
  induction l as [|b l IH]; intros acc Hl.
  - cbn. lia.
  - inversion Hl as [|? ? Hb Hl']; subst. cbn [fold_left length].
    specialize (IH (acc * 256 + b) Hl').
    rewrite Nat2N.inj_succ, N.pow_succ_r'. nia.
Qed.

Lemma size_bound n k : n < 2 ^ k -> N.size n <= k.
Proof.
  intros H. pose proof (N.size_le n) as Hs. rewrite N.succ_double_spec in Hs.
  apply N.lt_succ_r. apply (N.pow_lt_mono_r_iff 2); [lia|].
  rewrite N.pow_succ_r'. lia.
Qed.

Lemma publicKeyOfBytes_ok (bs : list Byte.byte) :
  (length bs <= 32)%nat -> publicKeyOfBytes bs = inr (bigEndian (map Byte.to_N bs)).
Proof.
  intros Hlen. unfold publicKeyOfBytes.
  assert (Hb : bigEndian (map Byte.to_N bs) < 2 ^ 256).
  { pose proof (bigEndian_bound (map Byte.to_N bs) 0) as H. 
    assert (HF : Forall (fun b => b < 256) (map Byte.to_N bs)).
    { apply Forall_map. apply Forall_forall. intros b _. pose proof (Byte.to_N_bounded b). cbn. lia. }
    specialize (H HF). unfold bigEndian. rewrite length_map in H.
    eapply N.lt_le_trans; [exact H|]. rewrite N.add_0_l, N.mul_1_l.
    change 256 with (2 ^ 8) at 1. rewrite <- N.pow_mul_r.
    apply N.pow_le_mono_r; lia. }
  apply size_bound in Hb. unfold byteLength.
  assert (Hd : (N.size (bigEndian (map Byte.to_N bs)) + 7) / 8 <= 32).
  { apply N.lt_succ_r. apply N.Div0.div_lt_upper_bound. lia. }
  destruct (N.ltb_spec 32 ((N.size (bigEndian (map Byte.to_N bs)) + 7) / 8)); [lia|reflexivity].
Qed.

Lemma slice_length {A} a b (l : list A) : (length (slice a b l) <= b - a)%nat.
Proof. unfold slice. rewrite length_firstn. lia. Qed.

Lemma matchAll_head ci r text :
  head (jsMatchAll ci r text) = option_map m_text (jsMatch ci r text).
Proof. unfold jsMatchAll, jsMatch. cbn [matchAllFrom]. destruct (search ci r text 0); reflexivity. Qed.

(** *** Whatever the matcher returns, its continuation returned *)

Lemma repeat_from_k test greedy (k : Continuation) s : forall lo hi i c res,
  repeatMatcher test greedy lo hi k s i c = Some res ->
  exists s' i' , k s' i' c = Some res.
Proof.
  induction s as [|x s IH]; intros lo hi i c res.
  - destruct lo as [|lo]; cbn [repeatMatcher]; [|discriminate].
    destruct hi as [[|n]|]; destruct greedy; try (intros H; eauto; fail);
      destruct (k [] i c) eqn:E; try discriminate; intros [= <-]; eauto.
  - destruct lo as [|lo]; cbn [repeatMatcher].
    + destruct hi as [[|n]|]; [eauto| |].
      * destruct greedy.
        -- destruct (test x); [|eauto].
           destruct (repeatMatcher test true 0 (predHi (Some (S n))) k s (S i) c) eqn:E.
           ++ intros [= <-]. eapply IH. exact E.
           ++ eauto.
        -- destruct (k (x :: s) i c) eqn:E; [intros [= <-]; eauto|].
           destruct (test x); [|discriminate]. apply IH.
      * destruct greedy.
        -- destruct (test x); [|eauto].
           destruct (repeatMatcher test true 0 (predHi None) k s (S i) c) eqn:E.
           ++ intros [= <-]. eapply IH. exact E.
           ++ eauto.
        -- destruct (k (x :: s) i c) eqn:E; [intros [= <-]; eauto|].
           destruct (test x); [|discriminate]. apply IH.
    + destruct (test x); [|discriminate]. apply IH.
Qed.

Lemma matcher_from_k ci r : forall (k : Continuation) s i c res,
  matcher ci r k s i c = Some res ->
  exists s' i' c', k s' i' c' = Some res.
Proof.
  induction r as [| a | | | r1 IH1 r2 IH2 | r1 IH1 r2 IH2 | g lo hi a | n r IH];
    intros k s i c res; cbn [matcher].
  - eauto.
  - destruct s as [|x s]; [discriminate|]. destruct (atomTest ci a x); [eauto|discriminate].
  - destruct (Nat.eqb i 0); [eauto|discriminate].
  - destruct s; [eauto|discriminate].
  - intros H. apply IH1 in H. destruct H as (s1 & i1 & c1 & H). now apply IH2 in H.
  - destruct (matcher ci r1 k s i c) eqn:E.
    + intros [= <-]. now apply IH1 in E.
    + apply IH2.
  - intros H. apply repeat_from_k in H. destruct H as (s' & i' & H). eauto.
  - intros H. apply IH in H. destruct H as (s1 & i1 & c1 & H). eauto.
Qed.

(** A match of a pattern that ends with its group 1 defines the group. *)
Lemma group1_defined ci p r s i res :
  matcher ci (lit p · Group 1 r) accept s i [] = Some res ->
  exists g, lookupCap 1 (snd res) = Some g.
Proof.
  rewrite matcher_seq. intros H. apply matcher_from_k in H.
  destruct H as (s1 & i1 & c1 & H). cbn [matcher] in H.
  apply matcher_from_k in H. destruct H as (s2 & i2 & c2 & H).
  unfold accept in H. injection H as <-. cbn. eauto.
Qed.

Lemma search_group1 ci p r s : forall i mt,
  search ci (lit p · Group 1 r) s i = Some mt -> is_Some (group 1 mt).
Proof.
  induction s as [|x s IH]; intros i mt; cbn [search].
  - destruct (matcher ci (lit p · Group 1 r) accept [] i []) as [[[rest e] c]|] eqn:E; [|discriminate].
    intros [= <-]. apply group1_defined in E. destruct E as (g & E). cbn in E. unfold group. cbn. eauto.
  - destruct (matcher ci (lit p · Group 1 r) accept (x :: s) i []) as [[[rest e] c]|] eqn:E.
    + intros [= <-]. apply group1_defined in E. destruct E as (g & E). cbn in E. unfold group. cbn. eauto.
    + apply IH.
Qed.

(** *** Literals with exact case *)

Lemma stripPrefix_exact p : forall s r,
  stripPrefix false p s = Some r <-> s = p ++ r.
Proof.
  induction p as [|a p IH]; intros s r; cbn [stripPrefix app].
  - split; [intros [= ->]|intros ->]; reflexivity.
  - destruct s as [|x s]; [split; discriminate|].
    change (chrTest false a x) with (x =? a).
    destruct (N.eqb_spec x a) as [->|Hne].
    + rewrite IH. split; [intros ->; reflexivity | intros [= ->]; reflexivity].
    + split; [discriminate|]. intros [= -> _]. contradiction.
Qed.

Lemma untilLit_some ci E s :
  is_Some (untilLit ci E s) <-> exists a b, s = a ++ b /\ is_Some (stripPrefix ci E b).
Proof.
  induction s as [|x s IH]; rewrite untilLit_unfold.
  - destruct (stripPrefix ci E []) eqn:E0.
    + split; [intros _; exists [], []; rewrite E0; eauto | eauto].
    + split; [intros [? [=]]|]. intros (a & b & Hs & Hb).
      destruct a; [|discriminate]. cbn in Hs. subst b. rewrite E0 in Hb. destruct Hb; discriminate.
  - destruct (stripPrefix ci E (x :: s)) eqn:E0.
    + split; [intros _; exists [], (x :: s); rewrite E0; eauto | eauto].
    + split.
      * intros H. assert (H' : is_Some (untilLit ci E s)).
        { destruct (untilLit ci E s); [eauto | destruct H; discriminate]. }
        apply IH in H'. destruct H' as (a & b & -> & Hb). exists (x :: a), b. auto.
      * intros (a & b & Hs & Hb). destruct a as [|y a].
        -- cbn in Hs. subst b. rewrite E0 in Hb. destruct Hb; discriminate.
        -- cbn in Hs. injection Hs as -> ->.
           assert (H' : is_Some (untilLit ci E (a ++ b))) by (apply IH; eauto).
           destruct H' as [g ->]. cbn. eauto.
Qed.

Lemma firstMatch_some {A} (f : bool -> jsstring -> option A) :
  (forall b s, f b s = f false s) ->
  forall s b, is_Some (firstMatch f b s) <-> exists a t, s = a ++ t /\ is_Some (f false t).
Proof.
  intros Hf. induction s as [|x s IH]; intros b; rewrite firstMatch_unfold, Hf.
  - destruct (f false []) eqn:E0.
    + split; [intros _; exists [], []; rewrite E0; eauto | eauto].
    + split; [intros [? [=]]|]. intros (a & t & Hs & Ht).
      destruct a; [|discriminate]. cbn in Hs. subst t. rewrite E0 in Ht. destruct Ht; discriminate.
  - destruct (f false (x :: s)) eqn:E0.
    + split; [intros _; exists [], (x :: s); rewrite E0; eauto | eauto].
    + rewrite IH. split.
      * intros (a & t & -> & Ht). exists (x :: a), t. auto.
      * intros (a & t & Hs & Ht). destruct a as [|y a].
        -- cbn in Hs. subst t. rewrite E0 in Ht. destruct Ht; discriminate.
        -- cbn in Hs. injection Hs as -> ->. eauto.
Qed.

(** *** The scanner and the handler *)

Lemma matchAll_nil ci r text : jsMatch ci r text = None -> jsMatchAll ci r text = [].
Proof. unfold jsMatchAll, jsMatch. cbn [matchAllFrom]. now intros ->. Qed.

Lemma head_app_orElse {A} (l1 l2 : list A) : head (l1 ++ l2) = orElse (head l1) (head l2).
Proof. destruct l1; reflexivity. Qed.

Lemma setProperty_contact (v : jsstring) (o : gmap jsstring jsstring) :
  setProperty (str "contact") v o = <[str "contact" := v]> o.
Proof. apply setProperty_insert. discriminate. Qed.

Lemma setProperty_encryption (v : jsstring) (o : gmap jsstring jsstring) :
  setProperty (str "encryption") v o = <[str "encryption" := v]> o.
Proof. apply setProperty_insert. discriminate. Qed.

Lemma pgp_captures : capturesAt false pgpRe (delimitedAt false PGP_BEGIN PGP_END).
Proof. apply delimited_captures_gen. Qed.

Lemma search_is_Some ci re f text :
  capturesAt ci re f ->
  is_Some (jsMatch ci re text) <-> is_Some (firstMatch f true text).
Proof.
  intros Hf. unfold jsMatch. pose proof (search_first ci re f Hf text 0) as H.
  cbn [Nat.eqb] in H. destruct (firstMatch f true text) as [g|].
  - destruct H as (mt & -> & _). split; eauto.
  - rewrite H. split; intros [? [=]].
Qed.

Lemma pgp_block_iff text : is_Some (jsMatch false pgpRe text) <-> hasPgpBlock text.
Proof.
  rewrite (search_is_Some false pgpRe _ text pgp_captures).
  rewrite firstMatch_some by reflexivity. unfold hasPgpBlock, delimitedAt. split.
  - intros (a & t & -> & Ht).
    destruct (stripPrefix false (str PGP_BEGIN) t) as [t'|] eqn:E1; [|destruct Ht; discriminate].
    apply stripPrefix_exact in E1. subst t.
    apply untilLit_some in Ht. destruct Ht as (key & b & -> & [post Hb]).
    apply stripPrefix_exact in Hb. subst b. eauto.
  - intros (pre & key & post & ->). exists pre, (str PGP_BEGIN ++ key ++ str PGP_END ++ post).
    split; [reflexivity|].
    assert (E1 : stripPrefix false (str PGP_BEGIN) (str PGP_BEGIN ++ key ++ str PGP_END ++ post)
                 = Some (key ++ str PGP_END ++ post)) by now apply stripPrefix_exact.
    rewrite E1. apply untilLit_some. exists key, (str PGP_END ++ post). split; [reflexivity|].
    exists post. now apply stripPrefix_exact.
Qed.

Lemma tag_program (d : Buffer) :
  accountTypeTag d = Some 2 -> exists rest, d = Byte.x02 :: rest.
Proof.
  destruct d as [|b0 [|b1 [|b2 [|b3 rest]]]]; try discriminate.
  cbn [accountTypeTag]. intros [= H].
  pose proof (Byte.to_N_bounded b0) as Hb.
  assert (Hv : Byte.to_N b0 = 2) by lia.
  exists (b1 :: b2 :: b3 :: rest). f_equal.
  pose proof (Byte.of_to_N b0) as Hof. rewrite Hv in Hof. now injection Hof.
Qed.

Section HandlerLemmas.
Variable lower : jsstring -> jsstring.

Lemma handler_resolved connection programId pk bytes :
  publicKeyOfString programId = inr pk ->
  resolveProgramData pk connection = inr bytes ->
  handler lower connection programId =
  if noKeys (findAndParseSecurityTxt lower bytes) then warningResponse
  else successResponse (findAndParseSecurityTxt lower bytes).
Proof.
  intros Hpk Hres. unfold handler, getSecurityTxtInfo. rewrite Hpk. cbn [bind].
  rewrite Hres. cbn [bind ret]. reflexivity.
Qed.

Lemma handler_failed connection programId pk e :
  publicKeyOfString programId = inr pk ->
  resolveProgramData pk connection = inl e ->
  handler lower connection programId = errorResponse e.
Proof.
  intros Hpk Hres. unfold handler, getSecurityTxtInfo. rewrite Hpk. cbn [bind].
  rewrite Hres. reflexivity.
Qed.
End HandlerLemmas.

Lemma resolve_direct programId (connection : Connection) account :
  connection programId = inr (Some account) ->
  owner account <> BPF_UPGRADEABLE_LOADER_ID ->
  resolveProgramData programId connection = inr (data account).
Proof.
  intros Hc Ho. unfold resolveProgramData. rewrite Hc. cbn [bind].
  apply N.eqb_neq in Ho. now rewrite Ho.
Qed.

Lemma resolve_upgradeable programId (connection : Connection) account rest :
  connection programId = inr (Some account) ->
  owner account = BPF_UPGRADEABLE_LOADER_ID ->
  data account = Byte.x02 :: rest ->
  resolveProgramData programId connection =
  match connection (bigEndian (map Byte.to_N (slice 4 36 (data account)))) with
  | inl e => inl e
  | inr None => inl ProgramDataAccountNotFound
  | inr (Some programDataAccount) => inr (skipn 8 (data programDataAccount))
  end.
Proof.
  intros Hc Ho Hd. unfold resolveProgramData. rewrite Hc. cbn [bind].
  rewrite Ho, N.eqb_refl.
  rewrite publicKeyOfBytes_ok by (pose proof (slice_length 4 36 (data account)); lia).
  cbn [bind]. rewrite Hd at 1. cbn [slice skipn firstn Nat.sub].
  destruct (connection _) as [e|[pda|]]; reflexivity.
Qed.

(** What the tag check does reject: data that do not begin with the byte 2. *)
Lemma resolve_not_program programId (connection : Connection) account :
  connection programId = inr (Some account) ->
  owner account = BPF_UPGRADEABLE_LOADER_ID ->
  forall bytes, resolveProgramData programId connection = inr bytes ->
  head (data account) <> Some Byte.x02 -> False.
Proof.
  intros Hc Ho bytes Hres Hhead. unfold resolveProgramData in Hres.
  rewrite Hc in Hres. cbn [bind] in Hres. rewrite Ho, N.eqb_refl in Hres.
  destruct (data account) as [|b0 rest]; [discriminate Hres|].
  cbn [slice skipn firstn Nat.sub] in Hres.
  destruct b0; try discriminate Hres. now apply Hhead.
Qed.

(** *** A block that ends with the last newline of the text *)

(** The block goes on through lines that are neither empty nor comments. *)
Lemma blockOf_lines_app ls tail :
  ls <> [] -> Forall blockLine ls ->
  blockOf (joinLines ls ++ tail) = joinLines ls ++ blockOf tail.
Proof.
  intros Hne Hls. induction Hls as [|l ls Hl Hls IH]; [contradiction|].
  destruct ls as [|l2 ls].
  - cbn [joinLines]. destruct Hl as [Hl _]. apply (blockOf_noLF l tail Hl).
  - change (joinLines (l :: l2 :: ls)) with (l ++ LF :: joinLines (l2 :: ls)).
    destruct Hl as [Hl _]. rewrite <- !app_assoc, (blockOf_noLF _ _ Hl). f_equal.
    cbn [app]. specialize (IH ltac:(discriminate)).
    inversion Hls as [|? ? Hl2 _]; subst.
    destruct Hl2 as [Hn2 (y & l2' & -> & Hy)].
    assert (E : blockEnds (LF :: joinLines ((y :: l2') :: ls) ++ tail) = false).
    { assert (Hj : exists r, joinLines ((y :: l2') :: ls) ++ tail = y :: r).
      { destruct ls; cbn; eauto. }
      destruct Hj as (r & ->). cbn [blockEnds].
      inversion Hn2 as [|? ? Hy' _]; subst.
      apply N.eqb_neq in Hy, Hy'. now rewrite N.eqb_refl, Hy, Hy'. }
    cbn [blockOf]. rewrite E. now rewrite IH.
Qed.

(** The standard pattern on a text whose first header is followed by a
    block of lines and one last newline: the newline is captured too. *)
Lemma standard_block_newline pre h ls :
  lineStart pre -> ~ hasHeader pre -> isHeader h ->
  ls <> [] -> Forall blockLine ls ->
  truthyGroup (jsMatch true standardRe (pre ++ h ++ LF :: joinLines ls ++ [LF]))
  = Some (joinLines ls ++ [LF]).
Proof.
  intros Hpre Hno Hh Hne Hls.
  rewrite standard_truthy, (first_header pre h (LF :: joinLines ls ++ [LF]) Hpre Hno Hh).
  2:{ right. eauto. }
  cbn [tl]. rewrite (blockOf_lines_app ls [LF] Hne Hls).
  change (blockOf [LF]) with [LF].
  destruct ls as [|l ls]; [contradiction|].
  inversion Hls as [|? ? Hl _]; subst. destruct Hl as [_ (x & l' & -> & _)].
  destruct ls; reflexivity.
Qed.

(** A newline at the end of a block adds an empty line, which is skipped. *)
Lemma parse_final_newline lower c :
  parseSecurityTxt lower (c ++ [LF]) = parseSecurityTxt lower c.
Proof.
  unfold parseSecurityTxt. rewrite split_snoc, fold_left_app. cbn [fold_left].
  apply parseLine_empty.
Qed.

(** ** The claims of the specification *)

Ltac no_header :=
  rewrite hasHeader_iff; vm_compute; intros [? H]; discriminate H.

Ltac all_chars tac :=
  cbv [str ch list_ascii_of_string map N_of_ascii N_of_digits fst snd];
  repeat (constructor; [tac|]); constructor.

Ltac valid_fields :=
  repeat (constructor;
          [split; [split; [discriminate | all_chars ltac:(reflexivity)]
                  | all_chars ltac:(reflexivity)]|]);
  constructor.

Ltac block_lines :=
  repeat (constructor;
          [split; [all_chars ltac:(discriminate)
                  | do 2 eexists; split; [reflexivity | discriminate]]|]);
  constructor.

Section Cascade.
Variable unicodeLower : jsstring -> jsstring.

Lemma findInText_standard text block :
  truthyGroup (jsMatch true standardRe text) = Some block ->
  findInText unicodeLower text = parseSecurityTxt unicodeLower block.
Proof. intros H. unfold findInText. now rewrite H. Qed.

Lemma findInText_delimited text block :
  truthyGroup (jsMatch true standardRe text) = None ->
  truthyGroup (jsMatch true delimitedRe text) = Some block ->
  findInText unicodeLower text = parseSecurityTxt unicodeLower block.
Proof. intros H1 H2. unfold findInText. now rewrite H1, H2. Qed.

Lemma findInText_block_of_lines pre h ls tail :
  lineStart pre -> ~ hasHeader pre -> isHeader h ->
  ls <> [] -> Forall blockLine ls -> blockEnds tail = true ->
  findInText unicodeLower (pre ++ h ++ LF :: joinLines ls ++ tail)
  = parseSecurityTxt unicodeLower (joinLines ls).
Proof.
  intros Hpre Hno Hh Hne Hls Ht. apply findInText_standard.
  now apply standard_block_found.
Qed.

Lemma findInText_first_block pre h ls tail :
  lineStart pre -> ~ hasHeader pre -> isHeader h ->
  ls <> [] -> Forall blockLine ls -> blockEnds tail = true \/ tail = [LF] ->
  findInText unicodeLower (pre ++ h ++ LF :: joinLines ls ++ tail)
  = parseSecurityTxt unicodeLower (joinLines ls).
Proof.
  intros Hpre Hno Hh Hne Hls [Ht| ->].
  - now apply findInText_block_of_lines.
  - rewrite (findInText_standard _ (joinLines ls ++ [LF])).
    + apply parse_final_newline.
    + now apply standard_block_newline.
Qed.
End Cascade.

Lemma match_head {A B} (l : list A) (f : A -> B) (d : B) :
  match l with x :: _ => f x | [] => d end
  = match head l with Some x => f x | None => d end.
Proof. destruct l; reflexivity. Qed.

(** C1, as stated, fails: a text may hold a valid standard block and yet
    give other pairs than those of the block, because the pattern stops at
    the first header line of the text. Here a first header with nothing
    under it makes the standard pattern capture an empty block, which
    counts as no match, and the [Contact:] line between the two headers
    decides the result; the fields of the valid block that follows are not
    returned. *)
Lemma C1_counterexample :
  exists (programData : Buffer) (pre h tail : jsstring)
         (fields : list (jsstring * jsstring)),
    decode programData = pre ++ h ++ LF :: joinLines (map fieldLine fields) ++ tail
    /\ lineStart pre /\ isHeader h
    /\ fields <> [] /\ Forall validField fields /\ blockEnds tail = true
    /\ forall unicodeLower : jsstring -> jsstring,
         findAndParseSecurityTxt unicodeLower programData
         = {[ str "contact" := str "z@z.io" ]}
         /\ findAndParseSecurityTxt unicodeLower programData
            <> fold_left storeField fields ∅.
Proof.
  exists (bytesOf "# security.txt


Contact: z@z.io
# security.txt
expires: 2030-01-01

").
  exists (str "# security.txt


Contact: z@z.io" ++ [LF]), (str "# security.txt"), [LF; LF],
    [(str "expires", str " 2030-01-01")].
  split; [vm_compute; reflexivity|].
  split; [right; now eexists|].
  split; [exact isHeader_plain|].
  split; [discriminate|].
  split; [valid_fields|].
  split; [reflexivity|].
  intros unicodeLower.
  assert (E : findAndParseSecurityTxt unicodeLower
                (bytesOf "# security.txt


Contact: z@z.io
# security.txt
expires: 2030-01-01

") = {[ str "contact" := str "z@z.io" ]}) by (vm_compute; reflexivity).
  split; [exact E|]. rewrite E. intros H.
  apply (f_equal (fun m : gmap jsstring jsstring => m !! str "contact")) in H.
  vm_compute in H. discriminate H.
Qed.

(** C1, amended: when the decoded text holds a standard block ([#], at
    most one space, [security.txt] in any case, a newline, then one or more
    lines [name:value] with names made of letters, digits and hyphens and
    values free of line terminators, up to an empty line, a comment line,
    the end of the text or one last newline) and its header is the first
    header line of the text, the extractor returns exactly the fields of
    the block, each name lowered and folded from kebab case to camel case,
    each value trimmed; on the bytes of the scenario the result is
    [contact] and [expires] as written, and the handler reports
    [success]. *)
Theorem C1_standard_block_fields :
  (forall (unicodeLower : jsstring -> jsstring) (programData : Buffer)
          (pre h tail : jsstring) (fields : list (jsstring * jsstring)),
      decode programData = pre ++ h ++ LF :: joinLines (map fieldLine fields) ++ tail ->
      lineStart pre -> ~ hasHeader pre -> isHeader h ->
      fields <> [] -> Forall validField fields ->
      blockEnds tail = true \/ tail = [LF] ->
      findAndParseSecurityTxt unicodeLower programData = fold_left storeField fields ∅)
  /\ (forall unicodeLower : jsstring -> jsstring,
         findAndParseSecurityTxt unicodeLower scenarioBytes = scenarioInfo)
  /\ (forall (unicodeLower : jsstring -> jsstring) (connection : Connection)
             (programId : string) (pk : PublicKey),
         publicKeyOfString programId = inr pk ->
         resolveProgramData pk connection = inr scenarioBytes ->
         handler unicodeLower connection programId = successResponse scenarioInfo)
  /\ storeField ∅ (str "preferred-languages", str " en")
     = {[ str "preferredLanguages" := str "en" ]}.
Proof.
  assert (Hscenario : forall unicodeLower : jsstring -> jsstring,
             findAndParseSecurityTxt unicodeLower scenarioBytes = scenarioInfo).
  { intros unicodeLower. vm_compute. reflexivity. }
  split; [|split; [exact Hscenario|split; [|vm_compute; reflexivity]]].
  - intros unicodeLower programData pre h tail fields Hd Hpre Hno Hh Hne Hf Ht.
    unfold findAndParseSecurityTxt. rewrite Hd.
    rewrite findInText_first_block; try assumption.
    + now apply parseSecurityTxt_fields.
    + destruct fields; [contradiction|discriminate].
    + apply Forall_map. revert Hf. apply Forall_weaken. intros kv. apply fieldLine_blockLine.
  - intros unicodeLower connection programId pk Hpk Hres.
    rewrite (handler_resolved unicodeLower connection programId pk scenarioBytes Hpk Hres).
    rewrite Hscenario. reflexivity.
Qed.

Lemma C1_witness :
  findAndParseSecurityTxt idLower
    (bytesOf "notes
#Security.TXT
Preferred-Languages: en, fr 
contact:mailto:a@b.io
")
  = fold_left storeField
      [(str "Preferred-Languages", str " en, fr "); (str "contact", str "mailto:a@b.io")] ∅.
Proof.
  apply (proj1 C1_standard_block_fields idLower _ (str "notes" ++ [LF]) (str "#Security.TXT")
           [LF]).
  - vm_compute. reflexivity.
  - right. now exists (str "notes").
  - no_header.
  - exists [], (str "Security.TXT"). repeat split. now left.
  - discriminate.
  - valid_fields.
  - now right.
Defined.

(** C2, evaluated where it fails: the account is owned by the upgradeable
    loader and its four tag bytes spell 258, not 2, yet the call goes on
    to the program-data account and returns a mapping, because only the
    first tag byte is compared with 2. *)
Theorem C2_tag_first_byte_only :
  owner oddProgram = BPF_UPGRADEABLE_LOADER_ID
  /\ accountTypeTag (data oddProgram) = Some 258
  /\ resolveProgramData 1 oddLedger = inr (bytesOf "Contact: team@example.com")
  /\ forall unicodeLower : jsstring -> jsstring,
       getSecurityTxtInfo unicodeLower 1 oddLedger
       = inr {[ str "contact" := str "team@example.com" ]}.
Proof. repeat split; vm_compute; reflexivity. Qed.

(** C3: for an account owned by the upgradeable loader whose tag is the
    Program tag, when the account the address window points to is absent
    the call fails with the account-not-found error of the program-data
    account, returns no mapping, and the handler answers with the status
    [error]. *)
Theorem C3_program_data_absent :
  forall (unicodeLower : jsstring -> jsstring) (connection : Connection)
         (programId : string) (pk : PublicKey) (account : AccountInfo),
    publicKeyOfString programId = inr pk ->
    connection pk = inr (Some account) ->
    owner account = BPF_UPGRADEABLE_LOADER_ID ->
    accountTypeTag (data account) = Some 2 ->
    connection (bigEndian (map Byte.to_N (slice 4 36 (data account)))) = inr None ->
    getSecurityTxtInfo unicodeLower pk connection = inl ProgramDataAccountNotFound
    /\ kind ProgramDataAccountNotFound = AccountNotFound
    /\ handler unicodeLower connection programId = errorResponse ProgramDataAccountNotFound
    /\ status (handler unicodeLower connection programId) = "error"%string.
Proof.
  intros unicodeLower connection programId pk account Hpk Hacc Ho Htag Hmissing.
  destruct (tag_program _ Htag) as (rest & Hd).
  assert (Hres : resolveProgramData pk connection = inl ProgramDataAccountNotFound).
  { rewrite (resolve_upgradeable pk connection account rest Hacc Ho Hd). now rewrite Hmissing. }
  assert (Hh : handler unicodeLower connection programId = errorResponse ProgramDataAccountNotFound)
    by now apply (handler_failed unicodeLower connection programId pk).
  repeat split.
  - unfold getSecurityTxtInfo. now rewrite Hres.
  - exact Hh.
  - now rewrite Hh.
Qed.

Lemma C3_witness :
  status (handler idLower
            (fun key => if key =? BPF_UPGRADEABLE_LOADER_ID
                        then inr (Some (mkAccount BPF_UPGRADEABLE_LOADER_ID
                                          (Byte.x02 :: Byte.x00 :: Byte.x00 :: Byte.x00
                                           :: repeat Byte.x09 32)))
                        else inr None)
            "BPFLoaderUpgradeab1e11111111111111111111111") = "error"%string.
Proof.
  eapply (C3_program_data_absent idLower _ _ BPF_UPGRADEABLE_LOADER_ID).
  - vm_compute. reflexivity.
  - vm_compute. reflexivity.
  - reflexivity.
  - reflexivity.
  - vm_compute. reflexivity.
Defined.

(** C4: the bytes handed to the search are the data of the account as
    they are when its owner is not the upgradeable loader; otherwise (the
    first byte being the Program tag) the address of the program-data
    account is the 32-byte window at offset 4 and the bytes are the data of
    that account without its first 8 bytes. *)
Theorem C4_program_image_bytes :
  forall (unicodeLower : jsstring -> jsstring) (connection : Connection)
         (programId : PublicKey) (account : AccountInfo),
    connection programId = inr (Some account) ->
    (owner account <> BPF_UPGRADEABLE_LOADER_ID ->
     resolveProgramData programId connection = inr (data account))
    /\ (forall (tag1 tag2 tag3 : Byte.byte) (window rest header image : Buffer)
               (programDataAccount : AccountInfo),
           owner account = BPF_UPGRADEABLE_LOADER_ID ->
           data account = Byte.x02 :: tag1 :: tag2 :: tag3 :: window ++ rest ->
           length window = 32%nat ->
           connection (bigEndian (map Byte.to_N window)) = inr (Some programDataAccount) ->
           data programDataAccount = header ++ image ->
           length header = 8%nat ->
           resolveProgramData programId connection = inr image)
    /\ (forall bytes : Buffer,
           resolveProgramData programId connection = inr bytes ->
           (owner account <> BPF_UPGRADEABLE_LOADER_ID /\ bytes = data account)
           \/ (owner account = BPF_UPGRADEABLE_LOADER_ID
               /\ exists programDataAccount,
                    connection (bigEndian (map Byte.to_N (slice 4 36 (data account))))
                    = inr (Some programDataAccount)
                    /\ bytes = skipn 8 (data programDataAccount)))
    /\ (forall bytes : Buffer,
           resolveProgramData programId connection = inr bytes ->
           getSecurityTxtInfo unicodeLower programId connection
           = inr (findInText unicodeLower (decode bytes))).
Proof.
  intros unicodeLower connection programId account Hacc.
  split; [|split; [|split]].
  - intros Ho. now apply resolve_direct.
  - intros tag1 tag2 tag3 window rest header image programDataAccount Ho Hd Hw Hpd Hdata Hh.
    rewrite (resolve_upgradeable programId connection account _ Hacc Ho Hd).
    assert (Hs : slice 4 36 (data account) = window).
    { rewrite Hd. unfold slice.
      change (skipn 4 (Byte.x02 :: tag1 :: tag2 :: tag3 :: window ++ rest)) with (window ++ rest).
      change (36 - 4)%nat with 32%nat. rewrite <- Hw.
      rewrite firstn_app, firstn_all, Nat.sub_diag. cbn [firstn]. apply app_nil_r. }
    rewrite Hs, Hpd, Hdata. f_equal.
    rewrite <- Hh. rewrite skipn_app, skipn_all, Nat.sub_diag. reflexivity.
  - intros bytes Hres.
    destruct (N.eq_dec (owner account) BPF_UPGRADEABLE_LOADER_ID) as [Ho|Ho].
    + right. split; [exact Ho|].
      assert (Hhead : head (data account) = Some Byte.x02).
      { destruct (head (data account)) as [b0|] eqn:E.
        - destruct (Byte.byte_eq_dec b0 Byte.x02) as [->|Hb]; [reflexivity|].
          exfalso. apply (resolve_not_program programId connection account Hacc Ho bytes Hres).
          rewrite E. intros [= Hx]. now apply Hb.
        - exfalso. apply (resolve_not_program programId connection account Hacc Ho bytes Hres).
          rewrite E. discriminate. }
      assert (Hd : exists rest, data account = Byte.x02 :: rest).
      { destruct (data account) as [|b0 r]; cbn in Hhead; [discriminate Hhead|].
        injection Hhead as ->. eauto. }
      destruct Hd as [rest Hd].
      rewrite (resolve_upgradeable programId connection account rest Hacc Ho Hd) in Hres.
      destruct (connection (bigEndian (map Byte.to_N (slice 4 36 (data account)))))
        as [e|[pda|]] eqn:Ec; try discriminate Hres.
      injection Hres as <-. eauto.
    + left. split; [exact Ho|].
      rewrite (resolve_direct programId connection account Hacc Ho) in Hres. now injection Hres.
  - intros bytes Hres. unfold getSecurityTxtInfo. now rewrite Hres.
Qed.

Lemma C4_witness :
  resolveProgramData 1 oddLedger = inr (bytesOf "Contact: team@example.com").
Proof.
  apply (proj1 (proj2 (C4_program_image_bytes idLower oddLedger 1 oddProgram eq_refl))
           Byte.x01 Byte.x00 Byte.x00 (repeat Byte.x07 32) [] (repeat Byte.x00 8)
           (bytesOf "Contact: team@example.com") oddProgramData);
    reflexivity.
Defined.

(** C5, as stated, fails twice. A text with a standard block and a bare
    [Contact:] line does not give the parse of the block when an earlier
    header line captures an empty block: the single-field matcher decides.
    And the cascade stops at the first matcher that yields a block, not a
    result: a block without any field gives an empty mapping, and the
    [Contact:] line that follows it is not looked at. *)
Lemma C5_counterexample :
  (exists (text pre h tail : jsstring) (ls : list jsstring),
      text = pre ++ h ++ LF :: joinLines ls ++ tail
      /\ lineStart pre /\ isHeader h
      /\ ls <> [] /\ Forall blockLine ls /\ blockEnds tail = true
      /\ forall unicodeLower : jsstring -> jsstring,
           findInText unicodeLower text = {[ str "contact" := str "team@example.com" ]}
           /\ findInText unicodeLower text
              <> parseSecurityTxt unicodeLower (joinLines ls))
  /\ (exists text block : jsstring,
         truthyGroup (jsMatch true standardRe text) = Some block
         /\ is_Some (jsMatch true contactRe text)
         /\ forall unicodeLower : jsstring -> jsstring,
              parseSecurityTxt unicodeLower block = ∅
              /\ findInText unicodeLower text = ∅).
Proof.
  split.
  - exists (str "#security.txt

# security.txt
policy: https://example.com/p

Contact: team@example.com").
    exists (str "#security.txt
" ++ [LF]), (str "# security.txt"), (LF :: LF :: str "Contact: team@example.com"),
      [str "policy: https://example.com/p"].
    split; [vm_compute; reflexivity|].
    split; [right; now eexists|].
    split; [exact isHeader_plain|].
    split; [discriminate|].
    split; [block_lines|].
    split; [reflexivity|].
    intros unicodeLower.
    assert (E : findInText unicodeLower (str "#security.txt

# security.txt
policy: https://example.com/p

Contact: team@example.com") = {[ str "contact" := str "team@example.com" ]})
      by (vm_compute; reflexivity).
    split; [exact E|]. rewrite E. intros H.
    apply (f_equal (fun m : gmap jsstring jsstring => m !! str "policy")) in H.
    vm_compute in H. discriminate H.
  - exists (str "# security.txt
no fields here

Contact: team@example.com"), (str "no fields here").
    split; [vm_compute; reflexivity|].
    split; [vm_compute; eexists; reflexivity|].
    intros unicodeLower. split; vm_compute; reflexivity.
Qed.

(** C5, amended: the matchers run in the order standard block, delimited
    block, single field, heuristic scan, and the first one that yields a
    block that is not empty (or a field) decides the result alone, also
    where that block holds no field and the result is empty; in particular
    a text whose first header line is followed by a block of lines gives
    the parse of that block, whatever stands before the header and after
    the block, a bare [Contact:] line included. *)
Theorem C5_cascade_order :
  forall (unicodeLower : jsstring -> jsstring) (text : jsstring),
    let standard := truthyGroup (jsMatch true standardRe text) in
    let delimited := truthyGroup (jsMatch true delimitedRe text) in
    let single :=
      orElse (jsMatch true contactRe text)
        (orElse (jsMatch true securityContactRe text) (jsMatch true mailtoFieldRe text)) in
    (forall block, standard = Some block ->
        findInText unicodeLower text = parseSecurityTxt unicodeLower block)
    /\ (forall block, standard = None -> delimited = Some block ->
        findInText unicodeLower text = parseSecurityTxt unicodeLower block)
    /\ (forall fm g, standard = None -> delimited = None ->
        single = Some fm -> group 1 fm = Some g ->
        findInText unicodeLower text = {[ str "contact" := trim g ]})
    /\ (standard = None -> delimited = None -> single = None ->
        findInText unicodeLower text = extractSecurityInfoFromText text)
    /\ (forall pre h ls tail,
        text = pre ++ h ++ LF :: joinLines ls ++ tail ->
        lineStart pre -> ~ hasHeader pre -> isHeader h ->
        ls <> [] -> Forall blockLine ls -> blockEnds tail = true \/ tail = [LF] ->
        findInText unicodeLower text = parseSecurityTxt unicodeLower (joinLines ls)).
Proof.
  intros unicodeLower text standard delimited single. repeat split.
  - intros block H. now apply findInText_standard.
  - intros block H1 H2. now apply findInText_delimited.
  - intros fm g H1 H2 H3 H4. unfold findInText.
    fold standard delimited single. rewrite H1, H2, H3, H4.
    rewrite setProperty_contact. apply insert_empty.
  - intros H1 H2 H3. unfold findInText.
    fold standard delimited single. now rewrite H1, H2, H3.
  - intros pre h ls tail -> Hpre Hno Hh Hne Hls Ht.
    now apply findInText_first_block.
Qed.

Lemma C5_witness :
  findInText idLower
    (str "Contact: first@example.com
# security.txt
policy: https://example.com/policy
expires: 2030-01-01

Contact: last@example.com")
  = parseSecurityTxt idLower
      (joinLines [str "policy: https://example.com/policy"; str "expires: 2030-01-01"]).
Proof.
  apply (proj2 (proj2 (proj2 (proj2 (C5_cascade_order idLower _))))
           (str "Contact: first@example.com" ++ [LF]) (str "# security.txt")
           [str "policy: https://example.com/policy"; str "expires: 2030-01-01"]
           (LF :: LF :: str "Contact: last@example.com")).
  - vm_compute. reflexivity.
  - right. now exists (str "Contact: first@example.com").
  - no_header.
  - exact isHeader_plain.
  - discriminate.
  - block_lines.
  - now left.
Defined.

(** C6, as stated, fails: a content with an empty line is cut at that line
    in the standard form and kept whole between the markers. *)
Lemma C6_counterexample :
  exists content : jsstring,
    forall unicodeLower : jsstring -> jsstring,
      findInText unicodeLower (standardForm content)
      <> findInText unicodeLower (delimitedForm content).
Proof.
  exists (str "contact: a

expires: b"). intros unicodeLower H.
  apply (f_equal (fun m : gmap jsstring jsstring => m !! str "expires")) in H.
  vm_compute in H. discriminate H.
Qed.

(** C6, amended: for a content of one or more lines, none empty, none
    beginning with [#], and free of the END marker, the standard form (the
    header line, then the content) and the delimited form (the content on
    lines of its own between the BEGIN and END markers) give the same
    mapping, the one the normalizer gives for the content. *)
Theorem C6_format_independence :
  forall (unicodeLower : jsstring -> jsstring) (ls : list jsstring),
    ls <> [] -> Forall blockLine ls ->
    occurs true (str END_MARK) (joinLines ls) = false ->
    findInText unicodeLower (standardForm (joinLines ls))
    = parseSecurityTxt unicodeLower (joinLines ls)
    /\ findInText unicodeLower (delimitedForm (joinLines ls))
       = parseSecurityTxt unicodeLower (joinLines ls).
Proof.
  intros unicodeLower ls Hne Hls Hocc. split.
  - apply findInText_standard. now apply standardForm_block.
  - rewrite (findInText_delimited unicodeLower _ (LF :: joinLines ls ++ [LF])).
    + apply parse_framed.
    + now apply delimitedForm_no_header.
    + now apply delimitedForm_block.
Qed.

Lemma C6_witness :
  findInText idLower (standardForm (joinLines [str "contact: a"; str "expires: b"]))
  = parseSecurityTxt idLower (joinLines [str "contact: a"; str "expires: b"])
  /\ findInText idLower (delimitedForm (joinLines [str "contact: a"; str "expires: b"]))
     = parseSecurityTxt idLower (joinLines [str "contact: a"; str "expires: b"]).
Proof.
  apply (C6_format_independence idLower [str "contact: a"; str "expires: b"]).
  - discriminate.
  - block_lines.
  - vm_compute. reflexivity.
Defined.

(** C7, as stated, fails: the [Contact: ] pattern is not tied to the
    start of a line, so it matches inside an earlier [Security-Contact: ]
    line and that line decides, not the line that begins with [Contact:]. *)
Lemma C7_counterexample :
  specSingleField (str "Security-Contact: a
Contact: b") = Some (str " b")
  /\ forall unicodeLower : jsstring -> jsstring,
       findInText unicodeLower (str "Security-Contact: a
Contact: b") = {[ str "contact" := str "a" ]}
       /\ findInText unicodeLower (str "Security-Contact: a
Contact: b") <> {[ str "contact" := trim (str " b") ]}.
Proof.
  split; [vm_compute; reflexivity|]. intros unicodeLower.
  split; [vm_compute; reflexivity|]. intros H.
  apply (f_equal (fun m : gmap jsstring jsstring => m !! str "contact")) in H.
  vm_compute in H. discriminate H.
Qed.

(** C7, amended: when neither block form yields a block, the result is
    decided by the leftmost place of the text, at a line start or not,
    where [Contact: ] (in any case, with its space) is followed by a
    character other than a newline: the mapping holds [contact] alone, set
    to the rest of that line, trimmed; [Security-Contact: ] never decides,
    since [Contact: ] matches wherever it does; without such a place the
    address of the first [mailto:] URI is taken the same way, and only
    without that too does the heuristic scan run. *)
Theorem C7_single_field :
  forall (unicodeLower : jsstring -> jsstring) (text : jsstring),
    truthyGroup (jsMatch true standardRe text) = None ->
    truthyGroup (jsMatch true delimitedRe text) = None ->
    findInText unicodeLower text =
    match firstMatch (fieldAt "Contact: ") true text with
    | Some value => {[ str "contact" := trim value ]}
    | None =>
        match mailtoValue text with
        | Some address => {[ str "contact" := trim address ]}
        | None => extractSecurityInfoFromText text
        end
    end.
Proof.
  intros unicodeLower text H1 H2. unfold findInText. rewrite H1, H2.
  pose proof (search_first true contactRe _ contact_captures text 0) as Hc.
  pose proof (search_first true securityContactRe _ securityContact_captures text 0) as Hs.
  cbn [Nat.eqb] in Hc, Hs. fold (jsMatch true contactRe text) in Hc.
  fold (jsMatch true securityContactRe text) in Hs.
  destruct (firstMatch (fieldAt "Contact: ") true text) as [value|] eqn:E.
  - destruct Hc as (mt & -> & Hg). cbn [orElse]. rewrite Hg, setProperty_contact.
    apply insert_empty.
  - rewrite (securityContact_shadowed text true E) in Hs. rewrite Hc, Hs. cbn [orElse].
    unfold mailtoValue. destruct (jsMatch true mailtoFieldRe text) as [fm|] eqn:Em; [|reflexivity].
    destruct (search_group1 true "mailto:" _ text 0 fm Em) as [g Hg]. rewrite Hg.
    rewrite setProperty_contact. apply insert_empty.
Qed.

Lemma C7_witness :
  findInText idLower (str "write to Security-Contact: team@example.com  
or call")
  = {[ str "contact" := str "team@example.com" ]}.
Proof.
  rewrite (C7_single_field idLower).
  - vm_compute. reflexivity.
  - vm_compute. reflexivity.
  - vm_compute. reflexivity.
Defined.

(** C8: once the bytes to search are resolved the call cannot fail: the
    handler answers [warning] when the mapping is empty and [success]
    otherwise; and when no matcher of the cascade and no pattern of the
    scanner finds anything in the decoded bytes, the mapping is empty and
    the answer is the warning. *)
Theorem C8_nothing_found :
  forall (unicodeLower : jsstring -> jsstring) (connection : Connection)
         (programId : string) (pk : PublicKey) (programData : Buffer),
    publicKeyOfString programId = inr pk ->
    resolveProgramData pk connection = inr programData ->
    getSecurityTxtInfo unicodeLower pk connection
    = inr (findAndParseSecurityTxt unicodeLower programData)
    /\ (handler unicodeLower connection programId = warningResponse
        \/ handler unicodeLower connection programId
           = successResponse (findAndParseSecurityTxt unicodeLower programData))
    /\ (nothingFound (decode programData) ->
        findAndParseSecurityTxt unicodeLower programData = ∅
        /\ handler unicodeLower connection programId = warningResponse).
Proof.
  intros unicodeLower connection programId pk programData Hpk Hres.
  pose proof (handler_resolved unicodeLower connection programId pk programData Hpk Hres) as Hh.
  repeat split.
  - unfold getSecurityTxtInfo. now rewrite Hres.
  - rewrite Hh. destruct (noKeys _); auto.
  - destruct H as (H1 & H2 & H3 & H4 & H5 & H6 & H7 & H8 & H9 & H10 & H11).
    unfold findAndParseSecurityTxt, findInText. rewrite H1, H2, H3, H4, H5. cbn [orElse].
    unfold extractSecurityInfoFromText.
    now rewrite !matchAll_nil by assumption.
  - destruct H as (H1 & H2 & H3 & H4 & H5 & H6 & H7 & H8 & H9 & H10 & H11).
    rewrite Hh.
    assert (E : findAndParseSecurityTxt unicodeLower programData = ∅).
    { unfold findAndParseSecurityTxt, findInText. rewrite H1, H2, H3, H4, H5. cbn [orElse].
      unfold extractSecurityInfoFromText.
      now rewrite !matchAll_nil by assumption. }
    rewrite E. reflexivity.
Qed.

Lemma C8_witness :
  handler idLower
    (fun _ => inr (Some (mkAccount 0 (bytesOf "plain program image, nothing else"))))
    "11111111111111111111111111111111"
  = warningResponse.
Proof.
  eapply (C8_nothing_found idLower _ _ 0).
  - vm_compute. reflexivity.
  - vm_compute. reflexivity.
  - vm_compute. repeat split.
Defined.

(** C9, as stated, fails: the three URL paths are three patterns tried
    in turn, not one category, so a [/security] URL wins over a
    [/vulnerability] URL that comes first in the text. *)
Lemma C9_counterexample :
  specContact (str "https://a.io/vulnerability https://b.io/security")
  = Some (str "https://a.io/vulnerability")
  /\ extractSecurityInfoFromText (str "https://a.io/vulnerability https://b.io/security")
     !! str "contact" = Some (str "https://b.io/security").
Proof. split; vm_compute; reflexivity. Qed.

(** C9, amended: the scanner tries five patterns in fixed order
    ([security@] addresses, [mailto:] URIs, URLs with the path [/security],
    with [/responsible-disclosure], with [/vulnerability]) and sets
    [contact] to the first match in the text of the first pattern that
    matches at all, wherever the matches of the later patterns are;
    whether or not a contact was found, [encryption] is set to the fixed
    sentinel exactly when a PGP public key block occurs in the text; the
    mapping holds nothing else. *)
Theorem C9_heuristic_scan :
  forall text : jsstring,
    let base : gmap jsstring jsstring :=
      match heuristicContact text with
      | Some first => {[ str "contact" := first ]}
      | None => ∅
      end in
    (hasPgpBlock text ->
     extractSecurityInfoFromText text = <[str "encryption" := PGP_FOUND]> base)
    /\ (~ hasPgpBlock text -> extractSecurityInfoFromText text = base).
Proof.
  intros text base.
  assert (Hbase : match jsMatchAll false securityEmailRe text
                        ++ jsMatchAll false mailtoRe text
                        ++ jsMatchAll false (urlRe "security") text
                        ++ jsMatchAll false (urlRe "responsible-disclosure") text
                        ++ jsMatchAll false (urlRe "vulnerability") text with
                  | first :: _ => setProperty (str "contact") first ∅
                  | [] => ∅
                  end = base).
  { rewrite (match_head _ (fun first => setProperty (str "contact") first ∅)).
    rewrite !head_app_orElse, !matchAll_head. subst base. unfold heuristicContact, firstText.
    destruct (orElse _ _); [|reflexivity]. rewrite setProperty_contact. apply insert_empty. }
  unfold extractSecurityInfoFromText. rewrite Hbase.
  rewrite (match_head _ (fun _ => setProperty (str "encryption") PGP_FOUND base)), matchAll_head.
  split; intros Hp.
  - apply pgp_block_iff in Hp. destruct Hp as [mt ->]. cbn [option_map].
    apply setProperty_encryption.
  - destruct (jsMatch false pgpRe text) as [mt|] eqn:E; [|reflexivity].
    exfalso. apply Hp. apply pgp_block_iff. rewrite E. eauto.
Qed.

Lemma C9_witness :
  extractSecurityInfoFromText
    (str "-----BEGIN PGP PUBLIC KEY BLOCK-----mQENBF-----END PGP PUBLIC KEY BLOCK----- see https://b.io/security or security@b.io")
  = <[str "encryption" := PGP_FOUND]> {[ str "contact" := str "security@b.io" ]}.
Proof.
  rewrite (proj1 (C9_heuristic_scan _)).
  - vm_compute. reflexivity.
  - exists [], (str "mQENBF"), (str " see https://b.io/security or security@b.io"). reflexivity.
Defined.

(** C10: the standard pattern matches exactly the texts that hold, at the
    start or right after a newline, a [#], then nothing or one space, then
    [security.txt] in any case, followed by a newline or the end of the
    text; a text without such a header (two spaces, a tab or anything else
    after the [#]) is left to the later matchers. *)
Theorem C10_header_shape :
  (forall text : jsstring, is_Some (jsMatch true standardRe text) <-> hasHeader text)
  /\ (forall (unicodeLower : jsstring -> jsstring) (text : jsstring),
         ~ hasHeader text ->
         findInText unicodeLower text =
         match truthyGroup (jsMatch true delimitedRe text) with
         | Some block => parseSecurityTxt unicodeLower block
         | None =>
             match orElse (jsMatch true contactRe text)
                     (orElse (jsMatch true securityContactRe text)
                        (jsMatch true mailtoFieldRe text)) with
             | Some fm =>
                 match group 1 fm with
                 | Some g => setProperty (str "contact") (trim g) ∅
                 | None => ∅
                 end
             | None => extractSecurityInfoFromText text
             end
         end)
  /\ hasHeader (str "#security.txt")
  /\ hasHeader (str "# SECURITY.TXT")
  /\ ~ hasHeader (str "#  security.txt")
  /\ ~ hasHeader (HASH :: 9 :: str "security.txt")
  /\ ~ hasHeader (str "# my security.txt").
Proof.
  assert (Hiff : forall text, is_Some (jsMatch true standardRe text) <-> hasHeader text).
  { intros text. rewrite hasHeader_iff.
    rewrite (search_is_Some true standardRe blockAt text standard_captures).
    unfold blockAt. rewrite (firstMatch_map blockOf headerAt text true).
    destruct (firstMatch headerAt true text); cbn; split; intros [? H]; eauto; discriminate H. }
  split; [exact Hiff|]. split.
  - intros unicodeLower text Hno. unfold findInText.
    assert (E : jsMatch true standardRe text = None).
    { apply not_is_Some_None. intros Hs. apply Hno. now apply Hiff. }
    rewrite E. reflexivity.
  - repeat split; try no_header.
    + exists [], (str "#security.txt"), []. repeat split; try (now left).
      exists [], (str "security.txt"). repeat split. now left.
    + exists [], (str "# SECURITY.TXT"), []. repeat split; try (now left).
      exists [SPACE], (str "SECURITY.TXT"). repeat split. now right.
Qed.

Lemma C10_witness :
  findInText idLower (str "#  security.txt
expires: 2030-01-01
Contact: team@example.com")
  = {[ str "contact" := str "team@example.com" ]}.
Proof.
  rewrite (proj1 (proj2 C10_header_shape) idLower).
  - vm_compute. reflexivity.
  - no_header.
Defined.

(** ** More properties of the parser, the decoder and the resolver *)

Lemma repeat_split test greedy (k : Continuation) s : forall lo hi i c res,
  repeatMatcher test greedy lo hi k s i c = Some res ->
  exists p q, s = p ++ q /\ Forall (fun x => test x = true) p /\ (lo <= length p)%nat
              /\ k q (i + length p)%nat c = Some res.
Proof.
  assert (Hnil : forall (q : jsstring) i c res, k q i c = Some res ->
            exists p q', q = p ++ q' /\ Forall (fun x => test x = true) p /\ (0 <= length p)%nat
                        /\ k q' (i + length p)%nat c = Some res).
  { intros q i c res H. exists [], q. cbn [app length]. rewrite Nat.add_0_r.
    repeat split; [constructor|lia|exact H]. }
  assert (Hcons : forall x (s : jsstring) lo i c res, test x = true ->
            (exists p q, s = p ++ q /\ Forall (fun x => test x = true) p /\ (lo <= length p)%nat
                         /\ k q (S i + length p)%nat c = Some res) ->
            exists p q, x :: s = p ++ q /\ Forall (fun x => test x = true) p
                        /\ (S lo <= length p)%nat /\ k q (i + length p)%nat c = Some res).
  { intros x s0 lo i c res Hx (p & q & -> & Hp & Hl & Hk). exists (x :: p), q.
    cbn [app length]. repeat split; [now constructor|lia|].
    rewrite <- Hk. f_equal. lia. }
  assert (Hweak : forall (s : jsstring) lo i c res,
            (exists p q, s = p ++ q /\ Forall (fun x => test x = true) p /\ (S lo <= length p)%nat
                         /\ k q (i + length p)%nat c = Some res) ->
            exists p q, s = p ++ q /\ Forall (fun x => test x = true) p /\ (0 <= length p)%nat
                        /\ k q (i + length p)%nat c = Some res).
  { intros s0 lo i c res (p & q & H1 & H2 & H3 & H4). exists p, q. repeat split; try assumption. lia. }
  induction s as [|x s IH]; intros lo hi i c res.
  - destruct lo as [|lo]; cbn [repeatMatcher]; [|discriminate].
    destruct hi as [[|n]|]; destruct greedy; try (intros H; now apply Hnil);
      destruct (k [] i c) eqn:E; try discriminate; intros [= <-]; now apply Hnil.
  - destruct lo as [|lo]; cbn [repeatMatcher].
    + destruct hi as [[|n]|]; [apply Hnil| |].
      * destruct greedy.
        -- destruct (test x) eqn:Ex; [|apply Hnil].
           destruct (repeatMatcher test true 0 (predHi (Some (S n))) k s (S i) c) eqn:E.
           ++ intros [= <-]. apply (Hweak _ 0%nat). apply Hcons; [exact Ex|]. eapply IH. exact E.
           ++ apply Hnil.
        -- destruct (k (x :: s) i c) eqn:E; [intros [= <-]; now apply Hnil|].
           destruct (test x) eqn:Ex; [|discriminate]. intros H.
           apply (Hweak _ 0%nat). apply Hcons; [exact Ex|]. eapply IH. exact H.
      * destruct greedy.
        -- destruct (test x) eqn:Ex; [|apply Hnil].
           destruct (repeatMatcher test true 0 (predHi None) k s (S i) c) eqn:E.
           ++ intros [= <-]. apply (Hweak _ 0%nat). apply Hcons; [exact Ex|]. eapply IH. exact E.
           ++ apply Hnil.
        -- destruct (k (x :: s) i c) eqn:E; [intros [= <-]; now apply Hnil|].
           destruct (test x) eqn:Ex; [|discriminate]. intros H.
           apply (Hweak _ 0%nat). apply Hcons; [exact Ex|]. eapply IH. exact H.
    + destruct (test x) eqn:Ex; [|discriminate]. intros H. apply Hcons; [exact Ex|].
      eapply IH. exact H.
Qed.

(** A pattern anchored at the start matches at index 0 or nowhere. *)
Lemma search_anchored ci r s : forall i, search ci (Bol · r) s (S i) = None.
Proof.
  induction s as [|x s IH]; intros i; cbn [search]; rewrite matcher_seq, matcher_bol;
    cbn [Nat.eqb]; [reflexivity|apply IH].
Qed.

Lemma jsMatch_anchored ci r s :
  jsMatch ci (Bol · r) s =
  match matcher ci (Bol · r) accept s 0 [] with
  | Some (rest, e, c) => Some (mkMatch 0 (firstn (e - 0) s) rest e c)
  | None => None
  end.
Proof.
  unfold jsMatch. destruct s as [|x s]; cbn [search];
    destruct (matcher ci (Bol · r) accept _ 0 []) as [[[rest e] c]|]; try reflexivity.
  apply search_anchored.
Qed.

Lemma cutAtColon_spec s k v :
  cutAtColon s = Some (k, v) <-> s = k ++ COLON :: v /\ noColon k.
Proof.
  revert k. induction s as [|x s IH]; intros k; cbn [cutAtColon].
  - split; [discriminate|]. intros [H _]. destruct k; discriminate H.
  - destruct (x =? COLON) eqn:Ex.
    + apply N.eqb_eq in Ex. subst x. split.
      * intros [= <- <-]. split; [reflexivity|constructor].
      * intros [H Hk]. destruct k as [|y k]; cbn [app] in H.
        -- now injection H as <-.
        -- injection H as <- _. inversion Hk; subst. contradiction.
    + apply N.eqb_neq in Ex. destruct (cutAtColon s) as [[k' v']|] eqn:E.
      * split.
        -- intros [= <- <-]. destruct (proj1 (IH k') eq_refl) as [-> Hk'].
           split; [reflexivity|now constructor].
        -- intros [H Hk]. destruct k as [|y k]; cbn [app] in H.
           ++ injection H as -> _. contradiction.
           ++ injection H as <- H. inversion Hk; subst.
              assert (E' : Some (k', v') = Some (k, v)) by (apply IH; now split).
              now injection E' as -> ->.
      * split; [discriminate|]. intros [H Hk]. destruct k as [|y k]; cbn [app] in H.
        -- injection H as -> _. contradiction.
        -- injection H as <- H. inversion Hk; subst.
           assert (E' : None = Some (k, v)) by (apply IH; now split). discriminate E'.
Qed.

Lemma trimStart_app_white w d :
  Forall (fun x => isWhiteSpace x = true) w -> trimStart (w ++ d) = trimStart d.
Proof. induction 1 as [|x w Hx _ IH]; [reflexivity|]. cbn [app trimStart]. now rewrite Hx. Qed.

Lemma trimStart_suffix s : exists w, s = w ++ trimStart s.
Proof. exists (takeRun isWhiteSpace s). rewrite <- dropRun_trimStart. apply takeRun_dropRun. Qed.

Lemma noTerminator_existsb v : noTerminator v <-> existsb isLineTerminator v = false.
Proof.
  unfold noTerminator. induction v as [|x v IH]; cbn [existsb].
  - split; [reflexivity|constructor].
  - rewrite orb_false_iff, <- IH. split.
    + intros H. inversion H; subst. now split.
    + intros [H1 H2]. now constructor.
Qed.

(** The line pattern reads a line in full: a name without colon, the
    colon, white space, and a value without line terminator. *)
Lemma line_match_gen k v :
  k <> [] -> noColon k -> noTerminator (trimStart v) ->
  exists mt, jsMatch false lineRe (k ++ COLON :: v) = Some mt
             /\ group 1 mt = Some k /\ group 2 mt = Some (trimStart v).
Proof.
  intros Hne Hk Hv. destruct k as [|x k']; [contradiction|].
  inversion Hk as [|? ? Hx Hk']; subst.
  set (s := (x :: k') ++ COLON :: v).
  assert (Hm : matcher false lineRe accept s 0 []
               = Some ([], (S (S (length k')) + length v)%nat,
                       [(2%nat, trimStart v); (1%nat, x :: k')])).
  { unfold lineRe. rewrite matcher_seq, matcher_bol. cbn [Nat.eqb].
    rewrite matcher_seq. cbn [matcher]. subst s. cbn [app repeatMatcher predHi].
    change (atomTest false (AClass true (CChar (ch ":"))) x) with (negb (x =? COLON)).
    apply N.eqb_neq in Hx. rewrite Hx. cbn [negb].
    apply greedy_stop.
    - clear -Hk'. induction Hk' as [|y l Hy Hl IH]; constructor; [|exact IH].
      change (negb (y =? COLON) = true). apply N.eqb_neq in Hy. now rewrite Hy.
    - change (negb (COLON =? COLON) = false). now rewrite N.eqb_refl.
    - cbv beta. rewrite matcher_chr.
      change (chrTest false (ch ":") COLON) with (COLON =? COLON). rewrite N.eqb_refl.
      change (atomTest false (AClass false CWhite)) with isWhiteSpace.
      rewrite (takeRun_dropRun isWhiteSpace v) at 1.
      apply greedy_stop; [apply takeRun_Forall | apply dropRun_head |].
      rewrite <- (app_nil_r (dropRun isWhiteSpace v)) at 1.
      apply greedy_stop.
      + rewrite dropRun_trimStart. revert Hv. apply Forall_weaken.
        intros y Hy. cbn [atomTest]. now rewrite Hy.
      + exact I.
      + unfold accept.
        pose proof (f_equal (@length N) (takeRun_dropRun isWhiteSpace v)) as HL.
        rewrite length_app in HL.
        match goal with |- context [firstn ?n (dropRun isWhiteSpace v)] =>
          replace n with (length (dropRun isWhiteSpace v)) by lia end.
        rewrite firstn_all, dropRun_trimStart.
        replace (1 + length k' - 0)%nat with (length (x :: k')) by (cbn; lia).
        change (x :: k' ++ COLON :: v) with ((x :: k') ++ COLON :: v).
        rewrite firstn_app, firstn_all, Nat.sub_diag, app_nil_r.
        do 3 f_equal. rewrite <- dropRun_trimStart. lia. }
  unfold jsMatch. subst s. cbn [app] in Hm |- *. cbn [search]. rewrite Hm.
  eexists. split; [reflexivity|]. split; reflexivity.
Qed.

(** Whatever the line pattern matches has that shape. *)
Lemma line_match_inv line mt :
  jsMatch false lineRe line = Some mt ->
  exists k v, line = k ++ COLON :: v /\ k <> [] /\ noColon k /\ noTerminator (trimStart v).
Proof.
  unfold lineRe. rewrite jsMatch_anchored.
  destruct (matcher false _ accept line 0 []) as [[[rest e] c]|] eqn:E; [|discriminate].
  intros _. rewrite matcher_seq, matcher_bol in E. cbn [Nat.eqb] in E.
  rewrite matcher_seq in E. cbn [matcher] in E.
  apply repeat_split in E. destruct E as (p & q & -> & Hp & Hl & E).
  cbv beta in E. rewrite matcher_chr in E. destruct q as [|x q]; [discriminate E|].
  change (chrTest false (ch ":") x) with (x =? COLON) in E.
  destruct (x =? COLON) eqn:Ex; [|discriminate E]. apply N.eqb_eq in Ex. subst x.
  apply repeat_split in E. destruct E as (w & u & -> & Hw & _ & E).
  apply repeat_split in E. destruct E as (d & e' & -> & Hd & _ & E).
  destruct e' as [|y e']; [|discriminate E].
  exists p, (w ++ d ++ []). repeat split.
  - intros ->. cbn in Hl. lia.
  - revert Hp. apply Forall_weaken. intros y Hy ->.
    change (negb (COLON =? COLON) = true) in Hy. now rewrite N.eqb_refl in Hy.
  - rewrite app_nil_r, trimStart_app_white by exact Hw.
    destruct (trimStart_suffix d) as [w' Hw']. rewrite Hw' in Hd.
    apply Forall_app in Hd. destruct Hd as [_ Hd]. revert Hd. apply Forall_weaken.
    intros y Hy. cbn [atomTest] in Hy. now destruct (isLineTerminator y).
Qed.

Lemma line_nomatch_nocolon line : noColon line -> jsMatch false lineRe line = None.
Proof.
  intros Hn. destruct (jsMatch false lineRe line) as [mt|] eqn:E; [|reflexivity].
  apply line_match_inv in E. destruct E as (k & v & -> & _ & _ & _).
  apply Forall_app in Hn. destruct Hn as [_ Hn]. inversion Hn; subst. contradiction.
Qed.

Lemma cut_unique k v k' v' :
  k ++ COLON :: v = k' ++ COLON :: v' -> noColon k -> noColon k' -> k = k' /\ v = v'.
Proof.
  intros H Hk Hk'.
  assert (E : Some (k, v) = Some (k', v')).
  { rewrite <- (proj2 (cutAtColon_spec (k ++ COLON :: v) k v)) by now split.
    apply cutAtColon_spec. now split. }
  now injection E as -> ->.
Qed.

Lemma cutAtColon_none s : cutAtColon s = None -> noColon s.
Proof.
  induction s as [|x s IH]; cbn [cutAtColon]; [constructor|].
  destruct (x =? COLON) eqn:Ex; [discriminate|]. apply N.eqb_neq in Ex.
  destruct (cutAtColon s) as [[k v]|]; [discriminate|]. intros _.
  constructor; [exact Ex|now apply IH].
Qed.

Section ReadLine.
Variable lower : jsstring -> jsstring.

(** The loop body of the parser, without the patterns. *)
Lemma parseLine_readLine r line :
  parseLine lower r line =
  match readLine line with
  | Some (k, v) => setProperty (foldKebab (toLowerCase lower (trim k))) (trim v) r
  | None => r
  end.
Proof.
  unfold parseLine, readLine. change (ch "#") with HASH.
  destruct (falsy (trim line) || startsWith HASH (trim line)); [reflexivity|].
  destruct (cutAtColon line) as [[k v]|] eqn:Ec.
  - apply cutAtColon_spec in Ec. destruct Ec as [-> Hk].
    destruct (falsy k || existsb isLineTerminator (trimStart v)) eqn:Eb.
    + destruct (jsMatch false lineRe (k ++ COLON :: v)) as [mt|] eqn:Em; [|reflexivity].
      exfalso. apply line_match_inv in Em. destruct Em as (k' & v' & Heq & Hne & Hk' & Hv').
      destruct (cut_unique _ _ _ _ Heq Hk Hk') as [-> ->].
      apply orb_true_iff in Eb. destruct Eb as [Eb|Eb].
      * destruct k'; [contradiction|discriminate Eb].
      * apply noTerminator_existsb in Hv'. congruence.
    + apply orb_false_iff in Eb. destruct Eb as [Ek Ev].
      destruct (line_match_gen k v) as (mt & -> & -> & ->).
      * intros ->. discriminate Ek.
      * exact Hk.
      * now apply noTerminator_existsb.
      * change (fun m : Match => toUpperCase (default [] (group 1 m))) with upperLetter.
        now rewrite kebab_replaceAll, trim_trimStart.
  - now rewrite (line_nomatch_nocolon line (cutAtColon_none line Ec)).
Qed.
End ReadLine.

Lemma split_app s b : split LF (s ++ LF :: b) = split LF s ++ split LF b.
Proof.
  induction s as [|x s IH]; cbn [app split].
  - now rewrite N.eqb_refl.
  - rewrite IH. destruct (x =? LF); [reflexivity|].
    pose proof (split_nonempty LF s). destruct (split LF s); [contradiction|reflexivity].
Qed.

Lemma trimStart_app_nonblank v t : trimStart v <> [] -> trimStart (v ++ t) = trimStart v ++ t.
Proof.
  induction v as [|x v IH]; cbn [app trimStart]; [contradiction|].
  destruct (isWhiteSpace x); [exact IH|reflexivity].
Qed.

Lemma trimStart_nonwhite s x u : trimStart s = x :: u -> isWhiteSpace x = false.
Proof.
  intros H. pose proof (dropRun_head isWhiteSpace s) as Hd.
  rewrite dropRun_trimStart, H in Hd. exact Hd.
Qed.

Lemma trimEnd_idem u : trimEnd (trimEnd u) = trimEnd u.
Proof. unfold trimEnd. now rewrite rev_involutive, trimStart_idem. Qed.

Lemma trim_idem v : trim (trim v) = trim v.
Proof.
  unfold trim at 2 3. destruct (trimStart v) as [|x u] eqn:E; [reflexivity|].
  pose proof (trimStart_nonwhite v x u E) as Hx.
  destruct (trim_head x u Hx) as [t Ht]. unfold trim in Ht.
  rewrite (trimStart_head x u Hx) in Ht. unfold trim. rewrite Ht.
  rewrite (trimStart_head x t Hx), <- Ht. apply trimEnd_idem.
Qed.

Lemma asciiUpper_notLower y : isLowerAZ (asciiUpper y) = false.
Proof.
  unfold asciiUpper. destruct (isLowerAZ y) eqn:E; [|exact E].
  unfold isLowerAZ in *. apply andb_true_iff in E. destruct E as [E1 E2].
  apply N.leb_le in E1, E2. apply andb_false_iff. left. apply N.leb_gt. lia.
Qed.

Lemma asciiUpper_notHyphen y : isLowerAZ y = true -> (asciiUpper y =? HYPHEN) = false.
Proof.
  intros E. unfold asciiUpper. rewrite E. unfold isLowerAZ in E.
  apply andb_true_iff in E. destruct E as [E1 E2]. apply N.leb_le in E1, E2.
  apply N.eqb_neq. change HYPHEN with 45. lia.
Qed.

Lemma foldKebab_head y s h t :
  foldKebab (y :: s) = h :: t -> isLowerAZ h = true -> isLowerAZ y = true.
Proof.
  destruct s as [|z s].
  - cbn [foldKebab]. now intros [= <- _].
  - rewrite foldKebab_cons. destruct ((y =? HYPHEN) && isLowerAZ z).
    + intros [= <- _]. now rewrite asciiUpper_notLower.
    + now intros [= <- _].
Qed.

Lemma kebabFind_cons x t :
  kebabFind (x :: t) =
  match t with
  | y :: s'' =>
      if (x =? HYPHEN) && isLowerAZ y then Some ([], y, s'')
      else match kebabFind t with
           | Some (pre, z, rest) => Some (x :: pre, z, rest)
           | None => None
           end
  | [] => None
  end.
Proof. reflexivity. Qed.

Lemma kebabFree_le n : forall s, (length s <= n)%nat -> kebabFind (foldKebab s) = None.
Proof.
  induction n as [|n IH]; intros s Hl.
  - destruct s; [reflexivity|cbn in Hl; lia].
  - destruct s as [|x [|y s]]; [reflexivity|reflexivity|].
    rewrite foldKebab_cons. destruct ((x =? HYPHEN) && isLowerAZ y) eqn:E.
    + apply andb_true_iff in E. destruct E as [_ Ey].
      rewrite kebabFind_cons, (asciiUpper_notHyphen y Ey). cbn [andb].
      rewrite IH by (cbn [length] in Hl; lia). now destruct (foldKebab s).
    + rewrite kebabFind_cons. rewrite IH by (cbn [length] in Hl |- *; lia).
      destruct (foldKebab (y :: s)) as [|h t] eqn:Eh; [reflexivity|].
      destruct ((x =? HYPHEN) && isLowerAZ h) eqn:E'; [|reflexivity].
      apply andb_true_iff in E'. destruct E' as [Ex Eh'].
      rewrite Ex, (foldKebab_head y s h t Eh Eh') in E. discriminate E.
Qed.

Lemma kebabFree s : kebabFind (foldKebab s) = None.
Proof. now apply (kebabFree_le (length s)). Qed.

Lemma setProperty_Forall (P : jsstring -> jsstring -> Prop) (k v : jsstring)
    (o : gmap jsstring jsstring) :
  (k <> str "__proto__" -> P k v) -> map_Forall P o -> map_Forall P (setProperty k v o).
Proof.
  intros Hkv Ho. unfold setProperty. destruct (decide (k = str "__proto__")) as [|Hn]; [exact Ho|].
  apply map_Forall_insert_2; auto.
Qed.

Section Extras1.
Variable lower : jsstring -> jsstring.

Lemma parseLine_normal r line :
  map_Forall normalEntry r -> map_Forall normalEntry (parseLine lower r line).
Proof.
  intros Hr. rewrite parseLine_readLine. destruct (readLine line) as [[k v]|]; [|exact Hr].
  apply setProperty_Forall; [|exact Hr]. intros Hn. repeat split.
  - exact Hn.
  - apply kebabFree.
  - apply trim_idem.
Qed.

Lemma parse_normal ls : forall r,
  map_Forall normalEntry r -> map_Forall normalEntry (fold_left (parseLine lower) ls r).
Proof.
  induction ls as [|l ls IH]; intros r Hr; [exact Hr|]. cbn [fold_left].
  apply IH. now apply parseLine_normal.
Qed.

Lemma parseLine_cr r k v :
  noColon k -> trimStart v <> [] -> parseLine lower r (k ++ COLON :: v ++ [CR]) = r.
Proof.
  intros Hk Hv. rewrite parseLine_readLine. unfold readLine.
  destruct (falsy _ || startsWith _ _); [reflexivity|].
  rewrite (proj2 (cutAtColon_spec (k ++ COLON :: v ++ [CR]) k (v ++ [CR]))) by now split.
  rewrite (trimStart_app_nonblank v [CR] Hv), existsb_app. cbn [existsb].
  change (isLineTerminator CR) with true. now rewrite orb_true_r, orb_true_r.
Qed.

Lemma parse_crlf fields : forall r,
  Forall (fun kv => noColon (fst kv) /\ noLF (fst kv) /\ noLF (snd kv)
                    /\ trimStart (snd kv) <> []) fields ->
  fold_left (parseLine lower) (split LF (crlfLines fields)) r = r.
Proof.
  induction fields as [|[k v] fields IH]; intros r Hf; [reflexivity|].
  inversion Hf as [|? ? (Hk & Hkl & Hvl & Hv) Hf']; subst. cbn [fst snd] in *.
  unfold crlfLines. cbn [flat_map]. fold (crlfLines fields).
  unfold fieldLine. cbn [fst snd].
  replace ((k ++ COLON :: v) ++ [CR; LF]) with ((k ++ COLON :: v ++ [CR]) ++ [LF])
    by (rewrite <- !app_assoc; cbn [app]; rewrite <- app_assoc; reflexivity).
  rewrite <- app_assoc. cbn [app]. rewrite split_app_noLF.
  - cbn [fold_left]. rewrite (parseLine_cr r k v Hk Hv). now apply IH.
  - apply Forall_app. split; [exact Hkl|]. constructor; [discriminate|].
    apply Forall_app. split; [exact Hvl|]. constructor; [discriminate|constructor].
Qed.
End Extras1.

Lemma utf8Lead_ascii b : b < 128 -> utf8Lead b = inl b.
Proof. intros H. unfold utf8Lead. now rewrite (proj2 (N.leb_le b 127)) by lia. Qed.

Lemma utf8_ascii_run t rest :
  Forall (fun b => b < 128) t ->
  utf8Decode (t ++ rest) 0 O 128 191 = t ++ utf8Decode rest 0 O 128 191.
Proof.
  induction 1 as [|b t Hb _ IH]; [reflexivity|].
  cbn [app utf8Decode]. now rewrite (utf8Lead_ascii b Hb), IH.
Qed.

Lemma utf8_ascii_step b rest cp n lo hi :
  b < 128 -> 128 <= lo ->
  exists pre, utf8Decode (b :: rest) cp n lo hi = pre ++ b :: utf8Decode rest 0 O 128 191.
Proof.
  intros Hb Hlo. cbn [utf8Decode]. rewrite (utf8Lead_ascii b Hb). destruct n as [|n].
  - now exists [].
  - rewrite (proj2 (N.leb_gt lo b)) by lia. cbn [andb]. now exists [REPLACEMENT].
Qed.

Lemma utf8Lead_lower b c n lo hi : utf8Lead b = inr (c, n, lo, hi) -> 128 <= lo.
Proof.
  unfold utf8Lead. destruct (b <=? 127); [discriminate|].
  destruct ((194 <=? b) && (b <=? 223)); [intros [= <- <- <- <-]; lia|].
  destruct ((224 <=? b) && (b <=? 239)).
  { intros [= <- <- <- <-]. destruct (b =? 224); lia. }
  destruct ((240 <=? b) && (b <=? 244)); [|discriminate].
  intros [= <- <- <- <-]. destruct (b =? 240); lia.
Qed.

Lemma utf8_prefix a rest : forall cp n lo hi,
  128 <= lo ->
  exists out cp' n' lo' hi',
    128 <= lo'
    /\ utf8Decode (a ++ rest) cp n lo hi = out ++ utf8Decode rest cp' n' lo' hi'.
Proof.
  induction a as [|b a IH]; intros cp n lo hi Hlo.
  - exists [], cp, n, lo, hi. now split.
  - cbn [app utf8Decode].
    assert (Hlead : forall pre,
              exists out cp' n' lo' hi',
                128 <= lo'
                /\ pre ++ match utf8Lead b with
                          | inl c => c :: utf8Decode (a ++ rest) 0 O 128 191
                          | inr (c, n0, lo0, hi0) => utf8Decode (a ++ rest) c n0 lo0 hi0
                          end
                   = out ++ utf8Decode rest cp' n' lo' hi').
    { intros pre. destruct (utf8Lead b) as [c|[[[c n0] lo0] hi0]] eqn:El.
      - destruct (IH 0 O 128 191) as (out & cp' & n' & lo' & hi' & H1 & H2); [lia|].
        exists (pre ++ c :: out), cp', n', lo', hi'. split; [exact H1|].
        rewrite H2, <- app_assoc. reflexivity.
      - destruct (IH c n0 lo0 hi0) as (out & cp' & n' & lo' & hi' & H1 & H2).
        { exact (utf8Lead_lower b c n0 lo0 hi0 El). }
        exists (pre ++ out), cp', n', lo', hi'. split; [exact H1|].
        rewrite H2, <- app_assoc. reflexivity. }
    destruct n as [|n]; [exact (Hlead [])|].
    destruct ((lo <=? b) && (b <=? hi)).
    + destruct n as [|n].
      * destruct (IH 0 O 128 191) as (out & cp' & n' & lo' & hi' & H1 & H2); [lia|].
        eexists (_ :: out), cp', n', lo', hi'. split; [exact H1|]. now rewrite H2.
      * apply IH. lia.
    + exact (Hlead [REPLACEMENT]).
Qed.

Lemma flat_map_utf16_small t : Forall (fun b => b < 128) t -> flat_map utf16 t = t.
Proof.
  induction 1 as [|b t Hb _ IH]; [reflexivity|]. cbn [flat_map]. rewrite IH.
  unfold utf16. now rewrite (proj2 (N.ltb_lt b 65536)) by lia.
Qed.

Lemma dropBOM_ascii t : Forall (fun b => b < 128) t -> dropBOM t = t.
Proof.
  destruct 1 as [|b t Hb _]; [reflexivity|]. cbn [dropBOM].
  now rewrite (proj2 (N.eqb_neq b 65279)) by lia.
Qed.

Lemma asciiBytes_map t : asciiBytes t -> Forall (fun b => b < 128) (map Byte.to_N t).
Proof. intros H. apply Forall_map. exact H. Qed.

Lemma decode_ascii t : asciiBytes t -> decode t = map Byte.to_N t.
Proof.
  intros H. apply asciiBytes_map in H. unfold decode.
  rewrite <- (app_nil_r (map Byte.to_N t)) at 1. rewrite (utf8_ascii_run _ [] H).
  cbn [utf8Decode]. rewrite app_nil_r, (dropBOM_ascii _ H). now apply flat_map_utf16_small.
Qed.

Lemma dropBOM_app l t r :
  (l = [] -> Forall (fun b => b < 128) t /\ t <> []) ->
  exists l', dropBOM (l ++ t ++ r) = l' ++ t ++ r.
Proof.
  intros H. destruct l as [|c l].
  - destruct (H eq_refl) as [Ht Hne]. exists []. cbn [app].
    destruct Ht as [|b t Hb _]; [contradiction|]. cbn [app dropBOM].
    now rewrite (proj2 (N.eqb_neq b 65279)) by lia.
  - cbn [app dropBOM]. destruct (c =? 65279); [now exists l|now exists (c :: l)].
Qed.

Lemma decode_embedded a t b :
  asciiBytes t -> exists x y, decode (a ++ t ++ b) = x ++ map Byte.to_N t ++ y.
Proof.
  intros H. apply asciiBytes_map in H. unfold decode. rewrite !map_app.
  set (A := map Byte.to_N a). set (T := map Byte.to_N t) in *. set (B := map Byte.to_N b).
  destruct T as [|c T'] eqn:ET.
  - eexists _, []. cbn [app]. now rewrite app_nil_r.
  - destruct (utf8_prefix A ((c :: T') ++ B) 0 O 128 191) as (out & cp & n & lo & hi & Hlo & ->); [lia|].
    inversion H as [|? ? Hc HT']; subst.
    cbn [app]. destruct (utf8_ascii_step c (T' ++ B) cp n lo hi Hc Hlo) as [pre ->].
    rewrite (utf8_ascii_run T' B HT').
    destruct (dropBOM_app (out ++ pre) (c :: T') (utf8Decode B 0 O 128 191)) as [l' Hl'].
    { intros _. split; [exact H|discriminate]. }
    rewrite <- !app_assoc in Hl'. cbn [app] in Hl'.
    replace (out ++ pre ++ c :: T' ++ utf8Decode B 0 O 128 191)
      with (out ++ pre ++ c :: T' ++ utf8Decode B 0 0 128 191) by reflexivity.
    rewrite Hl'. change (c :: T' ++ utf8Decode B 0 O 128 191)
      with ((c :: T') ++ utf8Decode B 0 O 128 191).
    rewrite !flat_map_app, (flat_map_utf16_small _ H). eauto.
Qed.

Lemma window_key d : publicKeyOfBytes (slice 4 36 d) = inr (windowAddress d).
Proof. apply publicKeyOfBytes_ok. pose proof (slice_length 4 36 d). lia. Qed.

(** The resolver, case by case. *)
Lemma resolve_cases programId (connection : Connection) :
  resolveProgramData programId connection =
  match connection programId with
  | inl e => inl e
  | inr None => inl ProgramAccountNotFound
  | inr (Some account) =>
      if N.eqb (owner account) BPF_UPGRADEABLE_LOADER_ID then
        if isProgramTag (data account) then
          match connection (windowAddress (data account)) with
          | inl e => inl e
          | inr None => inl ProgramDataAccountNotFound
          | inr (Some programDataAccount) => inr (skipn 8 (data programDataAccount))
          end
        else inl NotValidUpgradeableProgram
      else inr (data account)
  end.
Proof.
  unfold resolveProgramData. destruct (connection programId) as [e|[account|]]; try reflexivity.
  cbn [bind]. destruct (N.eqb (owner account) BPF_UPGRADEABLE_LOADER_ID); [|reflexivity].
  destruct (data account) as [|b0 rest] eqn:Ed; [reflexivity|].
  assert (Hs : slice 0 4 (b0 :: rest) = b0 :: firstn 3 rest) by reflexivity.
  rewrite Hs. cbn [isProgramTag]. destruct b0; try reflexivity.
  rewrite <- Ed, window_key. cbn [bind].
  change (Byte.eqb Byte.x02 Byte.x02) with true. cbv iota.
  destruct (connection (windowAddress (data account))) as [e|[pda|]]; reflexivity.
Qed.

Lemma indexIn_bound a l : forall i d, indexIn a l i = Some d -> d < i + N.of_nat (length l).
Proof.
  induction l as [|x l IH]; intros i d; cbn [indexIn length]; [discriminate|].
  destruct (Ascii.eqb a x).
  - intros [= <-]. lia.
  - intros H. apply IH in H. lia.
Qed.

Lemma base58Digits_bound s : forall ds,
  base58Digits s = inr ds -> Forall (fun d => d < 58) ds /\ length ds = length s.
Proof.
  induction s as [|a s IH]; intros ds; cbn [base58Digits].
  - intros [= <-]. split; [constructor|reflexivity].
  - destruct (indexIn a base58Alphabet 0) as [d|] eqn:E; [|discriminate].
    destruct (base58Digits s) as [e|ds']; [discriminate|]. cbn [bind ret].
    intros [= <-]. destruct (IH ds' eq_refl) as [H1 H2]. split.
    + constructor; [|exact H1]. apply indexIn_bound in E. exact E.
    + cbn [length]. now rewrite H2.
Qed.

Lemma base58Digits_error s e : base58Digits s = inl e -> e = NonBase58Character.
Proof.
  induction s as [|a s IH]; cbn [base58Digits]; [discriminate|].
  destruct (indexIn a base58Alphabet 0); [|now intros [= <-]].
  destruct (base58Digits s); [|discriminate]. cbn [bind]. intros [= <-]. now apply IH.
Qed.

Lemma base58Digits_reject s :
  existsb (fun a => negb (isBase58 a)) s = true -> base58Digits s = inl NonBase58Character.
Proof.
  induction s as [|a s IH]; cbn [existsb base58Digits]; [discriminate|].
  unfold isBase58 at 1. destruct (indexIn a base58Alphabet 0); [|reflexivity].
  cbn [negb orb]. intros H. now rewrite (IH H).
Qed.

Lemma base58Digits_accept s :
  existsb (fun a => negb (isBase58 a)) s = false -> exists ds, base58Digits s = inr ds.
Proof.
  induction s as [|a s IH]; cbn [existsb base58Digits]; [eauto|].
  unfold isBase58 at 1. destruct (indexIn a base58Alphabet 0); [|discriminate].
  cbn [negb orb]. intros H. destruct (IH H) as [ds ->]. cbn. eauto.
Qed.

Lemma digits58_bound ds : forall acc,
  Forall (fun d => d < 58) ds ->
  fold_left (fun acc d => acc * 58 + d) ds acc < (acc + 1) * 58 ^ N.of_nat (length ds).
Proof.
  induction ds as [|d ds IH]; intros acc Hd.
  - cbn. lia.
  - inversion Hd as [|? ? Hb Hd']; subst. cbn [fold_left length].
    specialize (IH (acc * 58 + d) Hd').
    rewrite Nat2N.inj_succ, N.pow_succ_r'. nia.
Qed.

Lemma byteLength_bound n m : n < 256 ^ m -> byteLength n <= m.
Proof.
  intros H. change 256 with (2 ^ 8) in H. rewrite <- N.pow_mul_r in H.
  apply size_bound in H. unfold byteLength.
  apply N.lt_succ_r. apply N.Div0.div_lt_upper_bound. lia.
Qed.

(** Base-58 digits spell at most as many bytes as there are digits. *)
Lemma decoded_length ds :
  Forall (fun d => d < 58) ds ->
  leadingZeros ds + byteLength (fold_left (fun acc d => acc * 58 + d) ds 0)
  <= N.of_nat (length ds).
Proof.
  induction 1 as [|d ds Hd Hds IH]; [vm_compute; discriminate|].
  cbn [leadingZeros]. destruct (d =? 0) eqn:E.
  - apply N.eqb_eq in E. subst d. cbn [fold_left length]. change (0 * 58 + 0) with 0.
    rewrite Nat2N.inj_succ. lia.
  - rewrite N.add_0_l. apply byteLength_bound.
    assert (Hb : fold_left (fun acc d => acc * 58 + d) (d :: ds) 0
                 < (0 + 1) * 58 ^ N.of_nat (length (d :: ds))).
    { apply digits58_bound. now constructor. }
    eapply N.lt_le_trans; [exact Hb|]. rewrite N.add_0_l, N.mul_1_l.
    apply N.pow_le_mono_l. lia.
Qed.

(** A text of fewer than 32 characters spells no key. *)
Lemma publicKeyOfString_short s :
  (String.length s < 32)%nat ->
  publicKeyOfString s = inl NonBase58Character
  \/ publicKeyOfString s = inl InvalidPublicKeyInput.
Proof.
  intros Hl. unfold publicKeyOfString.
  destruct (base58Digits (list_ascii_of_string s)) as [e|ds] eqn:E.
  - left. cbn [bind]. now rewrite (base58Digits_error _ e E).
  - right. cbn [bind]. apply base58Digits_bound in E. destruct E as [Hd Hlen].
    pose proof (decoded_length ds Hd) as Hb.
    assert (Hs : length (list_ascii_of_string s) = String.length s).
    { clear. induction s as [|a s IH]; [reflexivity|]. cbn. now rewrite IH. }
    rewrite (proj2 (N.eqb_neq _ 32)) by lia. reflexivity.
Qed.

Lemma publicKeyOfString_alphabet s :
  existsb (fun a => negb (isBase58 a)) (list_ascii_of_string s) = true ->
  publicKeyOfString s = inl NonBase58Character.
Proof. intros H. unfold publicKeyOfString. now rewrite (base58Digits_reject _ H). Qed.

Lemma value58_snoc ds d : value58 (ds ++ [d]) = value58 ds * 58 + d.
Proof. unfold value58. now rewrite fold_left_app. Qed.

Lemma fold58_zeros z ds :
  fold_left (fun acc d => acc * 58 + d) (repeat 0 z ++ ds) 0
  = fold_left (fun acc d => acc * 58 + d) ds 0.
Proof. induction z as [|z IH]; [reflexivity|]. cbn [repeat app fold_left]. exact IH. Qed.

Lemma size_half m n : n <> 0 -> m <= n / 58 -> (N.to_nat (N.size m) < N.to_nat (N.size n))%nat.
Proof.
  intros Hn Hm.
  assert (H2 : m <= n / 2).
  { etransitivity; [exact Hm|]. apply N.div_le_compat_l. lia. }
  destruct (N.eq_dec m 0) as [->|Hm0].
  - rewrite (N.size_log2 n Hn). cbn. lia.
  - rewrite !N.size_log2 by assumption.
    assert (H1 : 1 < n).
    { destruct (N.le_gt_cases n 1) as [Hle|]; [|assumption].
      assert (n = 1) by lia. subst n. change (1 / 2) with 0 in H2. lia. }
    assert (N.log2 m < N.log2 n); [|lia].
    apply N.le_lt_trans with (N.log2 (n / 2)); [now apply N.log2_le_mono|].
    change 2 with (2 ^ 1). rewrite <- N.shiftr_div_pow2, N.log2_shiftr.
    pose proof (N.log2_pos n H1). lia.
Qed.

Lemma digits58_zero fuel acc : digits58 fuel 0 acc = acc.
Proof. destruct fuel; reflexivity. Qed.

Lemma value58_pos ds d : d <> 0 -> value58 (d :: ds) <> 0.
Proof.
  intros Hd. revert d Hd. induction ds as [|x ds IH] using rev_ind; intros d Hd.
  - cbn. lia.
  - change (d :: ds ++ [x]) with ((d :: ds) ++ [x]). rewrite value58_snoc.
    specialize (IH d Hd). lia.
Qed.

(** The digits of the value of a digit string without leading zero are
    that string. *)
Lemma digits58_value ds : forall fuel acc,
  Forall (fun d => d < 58) ds -> head ds <> Some 0 ->
  (N.to_nat (N.size (value58 ds)) <= fuel)%nat ->
  digits58 fuel (value58 ds) acc = ds ++ acc.
Proof.
  induction ds as [|d ds IH] using rev_ind; intros fuel acc Hd Hh Hf.
  - apply digits58_zero.
  - apply Forall_app in Hd. destruct Hd as [Hds Hd]. inversion Hd as [|? ? Hd58 _]; subst.
    assert (Hn : value58 (ds ++ [d]) <> 0).
    { destruct ds as [|x ds].
      - cbn in Hh |- *. intros H. apply Hh. f_equal. lia.
      - apply value58_pos. cbn in Hh. intros ->. now apply Hh. }
    destruct fuel as [|fuel].
    { destruct (value58 (ds ++ [d])); [contradiction|cbn in Hf; lia]. }
    cbn [digits58]. rewrite (proj2 (N.eqb_neq _ 0) Hn).
    assert (Hq : value58 (ds ++ [d]) / 58 = value58 ds).
    { rewrite value58_snoc. rewrite N.add_comm, N.div_add by lia.
      rewrite N.div_small by lia. reflexivity. }
    assert (Hr : value58 (ds ++ [d]) mod 58 = d).
    { rewrite value58_snoc. rewrite N.add_comm, N.Div0.mod_add. now apply N.mod_small. }
    rewrite Hq, Hr, IH.
    + now rewrite <- app_assoc.
    + exact Hds.
    + destruct ds; [discriminate|exact Hh].
    + pose proof (size_half (value58 ds) (value58 (ds ++ [d])) Hn) as Hs.
      rewrite Hq in Hs. specialize (Hs (N.le_refl _)). lia.
Qed.

Lemma digits58_correct fuel : forall n acc,
  (N.to_nat (N.size n) <= fuel)%nat ->
  exists ds, digits58 fuel n acc = ds ++ acc /\ value58 ds = n
             /\ Forall (fun d => d < 58) ds /\ head ds <> Some 0.
Proof.
  induction fuel as [|fuel IH]; intros n acc Hf.
  - assert (n = 0) by (destruct n; [reflexivity|cbn in Hf; lia]). subst n.
    exists []. repeat split; [constructor|discriminate].
  - cbn [digits58]. destruct (n =? 0) eqn:E.
    + apply N.eqb_eq in E. subst n. exists []. repeat split; [constructor|discriminate].
    + apply N.eqb_neq in E.
      destruct (IH (n / 58) (n mod 58 :: acc)) as (ds & H1 & H2 & H3 & H4).
      { pose proof (size_half (n / 58) n E (N.le_refl _)). lia. }
      exists (ds ++ [n mod 58]). rewrite H1, <- app_assoc. split; [reflexivity|].
      rewrite value58_snoc, H2. split; [|split].
      * rewrite N.mul_comm. symmetry. apply N.Div0.div_mod.
      * apply Forall_app. split; [exact H3|]. constructor; [|constructor].
        apply N.mod_lt. lia.
      * destruct ds as [|x ds]; [|exact H4]. cbn. intros [= H].
        cbn in H2. rewrite <- H2 in *. 
        assert (n = 0); [|contradiction].
        rewrite (N.Div0.div_mod n 58). lia.
Qed.

Lemma base58Char_index d : d < 58 -> indexIn (base58Char d) base58Alphabet 0 = Some d.
Proof.
  intros H.
  assert (Hall : forallb (fun d => match indexIn (base58Char d) base58Alphabet 0 with
                                   | Some d' => d' =? d
                                   | None => false
                                   end) (map N.of_nat (seq 0 58)) = true) by (vm_compute; reflexivity).
  rewrite forallb_forall in Hall. specialize (Hall d).
  destruct (indexIn (base58Char d) base58Alphabet 0) as [d'|].
  - f_equal. apply N.eqb_eq. apply Hall. apply in_map_iff. exists (N.to_nat d).
    split; [lia|]. apply in_seq. lia.
  - assert (false = true); [|discriminate]. apply Hall. apply in_map_iff. exists (N.to_nat d).
    split; [lia|]. apply in_seq. lia.
Qed.

Lemma indexIn_char a l : forall i d,
  indexIn a l i = Some d -> i <= d /\ nth (N.to_nat (d - i)) l "1"%char = a.
Proof.
  induction l as [|x l IH]; intros i d; cbn [indexIn]; [discriminate|].
  destruct (Ascii.eqb a x) eqn:E.
  - intros [= <-]. apply Ascii.eqb_eq in E. subst x. rewrite N.sub_diag. split; [lia|reflexivity].
  - intros H. apply IH in H. destruct H as [H1 H2]. split; [lia|].
    replace (N.to_nat (d - i)) with (S (N.to_nat (d - (i + 1)))) by lia. exact H2.
Qed.

Lemma index_base58Char a d : indexIn a base58Alphabet 0 = Some d -> base58Char d = a.
Proof. intros H. apply indexIn_char in H. destruct H as [_ H]. now rewrite N.sub_0_r in H. Qed.

Lemma base58Digits_chars ds :
  Forall (fun d => d < 58) ds -> base58Digits (map base58Char ds) = inr ds.
Proof.
  induction 1 as [|d ds Hd _ IH]; [reflexivity|]. cbn [map base58Digits].
  now rewrite (base58Char_index d Hd), IH.
Qed.

Lemma base58Digits_inv s : forall ds, base58Digits s = inr ds -> map base58Char ds = s.
Proof.
  induction s as [|a s IH]; intros ds; cbn [base58Digits].
  - now intros [= <-].
  - destruct (indexIn a base58Alphabet 0) as [d|] eqn:E; [|discriminate].
    destruct (base58Digits s) as [e|ds']; [discriminate|]. cbn [bind ret].
    intros [= <-]. cbn [map]. now rewrite (index_base58Char a d E), (IH ds' eq_refl).
Qed.

Lemma leadingZeros_repeat z ds :
  head ds <> Some 0 -> leadingZeros (repeat 0 z ++ ds) = N.of_nat z.
Proof.
  intros Hh. induction z as [|z IH].
  - cbn [repeat app]. destruct ds as [|d ds]; [reflexivity|]. cbn [leadingZeros].
    destruct (d =? 0) eqn:E; [|reflexivity]. apply N.eqb_eq in E. subst d. now contradiction Hh.
  - cbn [repeat app leadingZeros]. rewrite N.eqb_refl, IH. lia.
Qed.

Lemma leadingZeros_split ds :
  exists rest, ds = repeat 0 (N.to_nat (leadingZeros ds)) ++ rest /\ head rest <> Some 0.
Proof.
  induction ds as [|d ds IH]; [exists []; split; [reflexivity|discriminate]|].
  cbn [leadingZeros]. destruct (d =? 0) eqn:E.
  - apply N.eqb_eq in E. subst d. destruct IH as (rest & H1 & H2). exists rest.
    split; [|exact H2]. replace (N.to_nat (1 + leadingZeros ds)) with (S (N.to_nat (leadingZeros ds))) by lia.
    cbn [repeat app]. now rewrite <- H1.
  - exists (d :: ds). split; [reflexivity|]. cbn. intros [= ->]. discriminate E.
Qed.

Lemma map_repeat_char z : map base58Char (repeat 0 z) = repeat "1"%char z.
Proof. induction z as [|z IH]; [reflexivity|]. cbn [repeat map]. now rewrite IH. Qed.

(** Writing a key and reading it back gives the key. *)
Lemma toBase58_read k : byteLength k <= 32 -> publicKeyOfString (toBase58 k) = inr k.
Proof.
  intros Hk. unfold publicKeyOfString, toBase58.
  rewrite list_ascii_of_string_of_list_ascii.
  destruct (digits58_correct (N.to_nat (N.size k)) k [] (Nat.le_refl _)) as (ds & Hds & Hv & Hd & Hh).
  rewrite app_nil_r in Hds. rewrite Hds, <- map_repeat_char, <- map_app.
  rewrite base58Digits_chars.
  - cbn [bind]. rewrite fold58_zeros. fold (value58 ds). rewrite Hv.
    rewrite (leadingZeros_repeat _ ds Hh).
    rewrite (proj2 (N.eqb_eq _ 32)) by lia. reflexivity.
  - apply Forall_app. split; [|exact Hd].
    clear. induction (32 - N.to_nat (byteLength k))%nat; constructor; [lia|assumption].
Qed.

(** Reading a text as a key and writing the key gives the text. *)
Lemma toBase58_write s k : publicKeyOfString s = inr k -> toBase58 k = s.
Proof.
  unfold publicKeyOfString.
  destruct (base58Digits (list_ascii_of_string s)) as [e|ds] eqn:E; [discriminate|].
  cbn [bind]. fold (value58 ds).
  destruct (leadingZeros ds + byteLength (value58 ds) =? 32) eqn:E32; [|discriminate].
  intros [= <-]. apply N.eqb_eq in E32.
  pose proof (base58Digits_bound _ ds E) as [Hd _].
  apply base58Digits_inv in E.
  destruct (leadingZeros_split ds) as (rest & Hsplit & Hh).
  assert (Hv : value58 ds = value58 rest).
  { rewrite Hsplit at 1. unfold value58. apply fold58_zeros. }
  unfold toBase58. rewrite Hv in E32 |- *.
  rewrite (digits58_value rest _ []); [| |exact Hh|lia].
  - rewrite app_nil_r.
    replace (32 - N.to_nat (byteLength (value58 rest)))%nat with (N.to_nat (leadingZeros ds)) by lia.
    rewrite <- map_repeat_char, <- map_app, <- Hsplit, E.
    apply string_of_list_ascii_of_string.
  - rewrite Hsplit in Hd. apply Forall_app in Hd. apply Hd.
Qed.

Lemma skip_separator sep p : forall cur rest,
  splitOn sep (length p) cur (p ++ rest) = splitOn sep 0 cur rest.
Proof.
  induction p as [|x p IH]; intros cur rest; [reflexivity|].
  cbn [length app splitOn]. apply IH.
Qed.

Lemma splitOn_none sep s : forall cur,
  occurs false sep s = false -> splitOn sep 0 cur s = [rev cur ++ s].
Proof.
  induction s as [|c s IH]; intros cur; cbn [splitOn].
  - now rewrite app_nil_r.
  - rewrite occurs_unfold. destruct (stripPrefix false sep (c :: s)); [discriminate|].
    intros H. rewrite (IH (c :: cur) H). cbn [rev]. now rewrite <- app_assoc.
Qed.

Lemma splitOn_first sep pre rest : forall cur,
  sep <> [] ->
  untilLit false sep (pre ++ sep ++ rest) = Some pre ->
  splitOn sep 0 cur (pre ++ sep ++ rest) = (rev cur ++ pre) :: splitOn sep 0 [] rest.
Proof.
  intros cur Hsep. revert cur. induction pre as [|x pre IH]; intros cur Hu.
  - cbn [app]. destruct sep as [|c sep']; [contradiction|]. cbn [app splitOn].
    change (c :: sep' ++ rest) with ((c :: sep') ++ rest).
    rewrite (proj2 (stripPrefix_exact (c :: sep') ((c :: sep') ++ rest) rest) eq_refl).
    rewrite app_nil_r. f_equal.
    replace (length (c :: sep') - 1)%nat with (length sep') by (cbn [length]; lia).
    apply skip_separator.
  - cbn [app] in Hu |- *. rewrite untilLit_unfold in Hu. cbn [splitOn].
    destruct (stripPrefix false sep (x :: pre ++ sep ++ rest)); [discriminate Hu|].
    destruct (untilLit false sep (pre ++ sep ++ rest)) as [p|] eqn:E; [|discriminate Hu].
    cbn [option_map] in Hu. injection Hu as ->.
    rewrite (IH (x :: cur) eq_refl). cbn [rev]. now rewrite <- app_assoc.
Qed.

(** The piece after the first separator, when no second one follows. *)
Lemma split_key sep pre key :
  sep <> [] ->
  untilLit false sep (pre ++ sep ++ key) = Some pre ->
  occurs false sep key = false ->
  nth_error (jsSplit sep (pre ++ sep ++ key)) 1 = Some key.
Proof.
  intros Hsep Hu Ho. unfold jsSplit. rewrite (splitOn_first sep pre key [] Hsep Hu).
  now rewrite (splitOn_none sep key [] Ho).
Qed.

Lemma split_nokey sep s :
  occurs false sep s = false -> nth_error (jsSplit sep s) 1 = None.
Proof. intros H. unfold jsSplit. now rewrite (splitOn_none sep s [] H). Qed.

Lemma join_cons sep x l : exists r, join sep (x :: l) = x ++ r.
Proof. destruct l; cbn [join]; [exists []; now rewrite app_nil_r|eauto]. Qed.

Section HistoryLemmas.
Variable engine : Engine.

Lemma limitOf_true (params : History.Params engine) :
  numberToBoolean engine (History.limitOf engine params) = true.
Proof.
  unfold History.limitOf. destruct (History.p_limit engine params) as [n|]; [|apply ten_true].
  destruct (numberToBoolean engine n) eqn:E; [exact E|apply ten_true].
Qed.

Lemma copy_transactions (l : list (History.TransactionData engine)) :
  map (fun tx =>
         History.mkTransactionData engine (History.signature engine tx) (History.slot engine tx)
           (History.timestamp engine tx) (History.err engine tx) (History.memo engine tx)
           (History.blockTime engine tx) (History.type engine tx) (History.fee engine tx)
           (History.status engine tx)) l = l.
Proof. induction l as [|[] l IH]; [reflexivity|]. cbn [map]. now rewrite IH. Qed.

Lemma queryString_limit params q :
  History.queryString engine (History.optionsOf engine params) = inr q ->
  exists rest, q = str "limit=" ++ rest.
Proof.
  unfold History.queryString, History.queryParams, History.optionsOf.
  cbn [History.limit]. rewrite limitOf_true. cbn [app mapRaises fst snd].
  destruct (encodeURIComponent _ _) as [e|v]; [discriminate|]. cbn [andThen].
  destruct (mapRaises _ _) as [e|parts]; [discriminate|]. cbn [andThen].
  intros H. destruct (join_cons (str "&") (str "limit" ++ str "=" ++ v) parts) as [r Hr].
  exists (v ++ r).
  assert (Hq : q = join (str "&") ((str "limit" ++ str "=" ++ v) :: parts)) by congruence.
  rewrite Hq, Hr, <- !app_assoc. reflexivity.
Qed.

Lemma history_valid fetch connection params address pk :
  History.p_address engine params = Some address ->
  publicKeyOfString address = inr pk ->
  History.handler engine fetch connection params =
  match History.getTransactionHistory engine fetch pk connection
          (History.optionsOf engine params) with
  | inr transactions => historySuccess engine params transactions
  | inl error => historyFailed engine error
  end.
Proof.
  intros Ha Hpk. unfold History.handler. rewrite Ha.
  destruct address as [|a address]; [discriminate Hpk|].
  unfold newPublicKey. rewrite Hpk.
  destruct (History.getTransactionHistory _ _ _ _ _); [reflexivity|].
  now rewrite copy_transactions.
Qed.

Lemma history_invalid fetch connection params address e :
  History.p_address engine params = Some address ->
  address <> EmptyString ->
  publicKeyOfString address = inl e ->
  History.handler engine fetch connection params = invalidAddress engine.
Proof.
  intros Ha Hne He. unfold History.handler. rewrite Ha.
  destruct address as [|a address]; [contradiction|].
  unfold newPublicKey. now rewrite He.
Qed.

(** With a key in the endpoint, the tool makes the request of
    [requestUrl] and reads its answer. *)
Lemma history_request fetch connection pk address params pre key q :
  toBase58 pk = address ->
  History.rpcEndpoint connection = pre ++ API_KEY ++ key ->
  untilLit false API_KEY (History.rpcEndpoint connection) = Some pre ->
  occurs false API_KEY key = false ->
  key <> [] ->
  History.queryString engine (History.optionsOf engine params) = inr q ->
  History.getTransactionHistory engine fetch pk connection (History.optionsOf engine params) =
  let! response := fetch (requestUrl address key q) in
  if negb (ok engine response) then
    let! errorText := text engine response in
    inl (ErrorOf (str "Helius API error: "
                  ++ numberToString engine (http_status engine response)
                  ++ str " " ++ errorText))
  else
    let! data := json engine response in
    match data with
    | VArray items => mapRaises (History.toTransactionData engine) items
    | VUndefined => inl (typeError (faultMessage engine) (PropertyOfUndefined "map"))
    | VNull => inl (typeError (faultMessage engine) (PropertyOfNull "map"))
    | _ => inl (typeError (faultMessage engine) (NotAFunction "map"))
    end.
Proof.
  intros Hb Hep Hu Ho Hk Hq.
  unfold History.getTransactionHistory, History.fetchTransactionHistory.
  rewrite Hq. cbn [andThen]. change (str "api-key=") with API_KEY. rewrite Hep in Hu |- *.
  rewrite (split_key API_KEY pre key) by (try discriminate; assumption).
  unfold truthyString. destruct key as [|c key]; [contradiction|].
  cbn [falsy negb default]. rewrite Hb.
  destruct (queryString_limit params q Hq) as [rest ->].
  reflexivity.
Qed.
End HistoryLemmas.

Lemma last_differs (a b : jsstring) x y : x <> y -> a ++ [x] <> b ++ [y].
Proof. intros Hxy H. apply app_inj_tail in H. destruct H as [_ H]. contradiction. Qed.

Lemma head_differs (a b : jsstring) x y : x <> y -> x :: a <> y :: b.
Proof. intros Hxy [= H _]. contradiction. Qed.

(** The success message is never the one the handler starts from. *)
Lemma successMessage_cases (engine : Engine) (params : History.Params engine) :
  History.successMessage engine params =
  match History.p_types engine params with
  | Some (t :: ts) =>
      str "Successfully retrieved " ++ join (str ", ") (t :: ts) ++ str " transactions"
  | _ =>
      if truthyString (History.p_until engine params) then
        str "Successfully retrieved transaction history until specified signature"
      else if truthyString (History.p_before engine params) then
        str "Successfully retrieved transaction history before specified signature"
      else
        str "Successfully retrieved "
        ++ numberToString engine (History.limitOf engine params)
        ++ str " most recent transactions"
  end.
Proof.
  unfold History.successMessage. rewrite limitOf_true.
  destruct (History.p_types engine params) as [[|t ts]|];
    destruct (truthyString (History.p_until engine params));
    destruct (truthyString (History.p_before engine params)); reflexivity.
Qed.

Lemma successMessage_changed (engine : Engine) (params : History.Params engine) :
  History.successMessage engine params <> str "Successfully retrieved transaction history".
Proof.
  rewrite successMessage_cases.
  change (str "Successfully retrieved transaction history")
    with (str "Successfully retrieved transaction histor" ++ [ch "y"]).
  assert (Hs : forall a b : jsstring,
             a ++ b ++ str " transactions" <> str "Successfully retrieved transaction histor" ++ [ch "y"]).
  { intros a b. change (str " transactions") with (str " transaction" ++ [ch "s"]).
    rewrite !app_assoc. apply last_differs. discriminate. }
  assert (Hl : forall a b : jsstring,
             a ++ b ++ str " most recent transactions"
             <> str "Successfully retrieved transaction histor" ++ [ch "y"]).
  { intros a b. change (str " most recent transactions")
      with (str " most recent transaction" ++ [ch "s"]).
    rewrite !app_assoc. apply last_differs. discriminate. }
  destruct (History.p_types engine params) as [[|t ts]|]; try apply Hs;
    destruct (truthyString (History.p_until engine params));
    try (intros H; apply (f_equal (@length N)) in H; vm_compute in H; discriminate H);
    destruct (truthyString (History.p_before engine params));
    try (intros H; apply (f_equal (@length N)) in H; vm_compute in H; discriminate H);
    apply Hl.
Qed.

Lemma publicKeyOfString_empty : publicKeyOfString EmptyString = inl InvalidPublicKeyInput.
Proof. reflexivity. Qed.

Lemma find_none_address (address : string) (l : list Validator.VoteAccountInfo) :
  Forall (fun account => Validator.votePubkey account <> address) l ->
  find (fun account => String.eqb (Validator.votePubkey account) address) l = None.
Proof.
  induction 1 as [|a l Ha _ IH]; [reflexivity|]. cbn [find].
  apply String.eqb_neq in Ha. now rewrite Ha.
Qed.

Lemma find_first_address (address : string) before account after :
  Forall (fun a => Validator.votePubkey a <> address) before ->
  Validator.votePubkey account = address ->
  find (fun a => String.eqb (Validator.votePubkey a) address) (before ++ account :: after)
  = Some account.
Proof.
  intros Hb Ha. induction Hb as [|a l Hne _ IH]; cbn [app find].
  - apply String.eqb_eq in Ha. now rewrite Ha.
  - apply String.eqb_neq in Hne. now rewrite Hne.
Qed.
Lemma occursIn_refl v : occursIn v v.
Proof. exists [], []. now rewrite app_nil_r. Qed.

Lemma occursIn_trans a b c : occursIn a b -> occursIn b c -> occursIn a c.
Proof.
  intros (p1 & q1 & ->) (p2 & q2 & ->). exists (p2 ++ p1), (q1 ++ q2).
  now rewrite <- !app_assoc.
Qed.

Lemma occursIn_firstn n s text : restOf text s -> occursIn (firstn n s) text.
Proof.
  intros [pre ->]. exists pre, (skipn n s). now rewrite firstn_skipn.
Qed.

Lemma restOf_cons text x s : restOf text (x :: s) -> restOf text s.
Proof. intros [pre ->]. exists (pre ++ [x]). now rewrite <- app_assoc. Qed.

Lemma restOf_app text p s : restOf text (p ++ s) -> restOf text s.
Proof. intros [pre ->]. exists (pre ++ p). now rewrite <- app_assoc. Qed.

Lemma occursIn_trimStart v : occursIn (trimStart v) v.
Proof. destruct (trimStart_suffix v) as [w Hw]. exists w, []. now rewrite app_nil_r. Qed.

Lemma occursIn_trim v : occursIn (trim v) v.
Proof.
  apply occursIn_trans with (trimStart v); [|apply occursIn_trimStart].
  unfold trim, trimEnd. destruct (trimStart_suffix (rev (trimStart v))) as [w Hw].
  exists [], (rev w). cbn [app]. rewrite <- rev_app_distr, <- Hw. now rewrite rev_involutive.
Qed.

Lemma occursIn_split l s : In l (split LF s) -> occursIn l s.
Proof.
  revert l. induction s as [|x s IH]; intros l; cbn [split].
  - intros [<-|[]]. apply occursIn_refl.
  - destruct (x =? LF).
    + intros [<-|H]; [exists [], (x :: s); reflexivity|].
      destruct (IH l H) as (p & q & ->). exists (x :: p), q. reflexivity.
    + pose proof (split_nonempty LF s) as Hne.
      destruct (split LF s) as [|l0 ls] eqn:E; [contradiction|].
      intros [<-|H].
      * destruct (IH l0 (or_introl eq_refl)) as (p & q & Hs).
        (* the first piece starts the text *)
        assert (Hfirst : exists q', s = l0 ++ q').
        { clear -E. revert l0 ls E. induction s as [|y s IHs]; intros l0 ls E; cbn [split] in E.
          - injection E as <- _. now exists [].
          - destruct (y =? LF); [injection E as <- _; now exists (y :: s)|].
            pose proof (split_nonempty LF s) as Hne.
            destruct (split LF s) as [|l1 ls1] eqn:E1; [contradiction|].
            injection E as <- _. destruct (IHs l1 ls1 eq_refl) as [q' ->]. now exists q'. }
        destruct Hfirst as [q' ->]. exists [], q'. reflexivity.
      * destruct (IH l (or_intror H)) as (p & q & ->). exists (x :: p), q. reflexivity.
Qed.

(** Whatever the matcher returns, its continuation returned it on what is
    left of the text, with captures that are pieces of the text. *)
Lemma repeat_in_text text test greedy (k : Continuation) s : forall lo hi i c res,
  repeatMatcher test greedy lo hi k s i c = Some res ->
  restOf text s ->
  exists s' i', k s' i' c = Some res /\ restOf text s'.
Proof.
  intros lo hi i c res H Hs. apply repeat_split in H.
  destruct H as (p & q & -> & _ & _ & H). exists q, (i + length p)%nat.
  split; [exact H|]. now apply restOf_app in Hs.
Qed.

Lemma matcher_in_text text ci r : forall (k : Continuation) s i c res,
  matcher ci r k s i c = Some res ->
  restOf text s -> capturesIn text c ->
  exists s' i' c', k s' i' c' = Some res /\ restOf text s' /\ capturesIn text c'.
Proof.
  induction r as [| a | | | r1 IH1 r2 IH2 | r1 IH1 r2 IH2 | g lo hi a | n r IH];
    intros k s i c res; cbn [matcher]; intros H Hs Hc.
  - eauto 6.
  - destruct s as [|x s]; [discriminate|]. destruct (atomTest ci a x); [|discriminate].
    exists s, (S i), c. split; [exact H|]. split; [now apply restOf_cons in Hs|exact Hc].
  - destruct (Nat.eqb i 0); [eauto 6|discriminate].
  - destruct s; [eauto 6|discriminate].
  - apply IH1 in H; [|exact Hs|exact Hc]. destruct H as (s1 & i1 & c1 & H & Hs1 & Hc1).
    now apply IH2 in H.
  - destruct (matcher ci r1 k s i c) eqn:E.
    + injection H as <-. now apply IH1 in E.
    + now apply IH2 in H.
  - apply (repeat_in_text text) in H; [|exact Hs]. destruct H as (s' & i' & H & Hs').
    eauto 6.
  - apply IH in H; [|exact Hs|exact Hc]. destruct H as (s1 & i1 & c1 & H & Hs1 & Hc1).
    exists s1, i1, ((n, firstn (i1 - i) s) :: c1). split; [exact H|]. split; [exact Hs1|].
    constructor; [|exact Hc1]. cbn [snd]. now apply occursIn_firstn.
Qed.

Lemma search_in_text text ci r s : forall i mt,
  search ci r s i = Some mt ->
  restOf text s ->
  occursIn (m_text mt) text /\ capturesIn text (m_caps mt).
Proof.
  induction s as [|x s IH]; intros i mt; cbn [search].
  - destruct (matcher ci r accept [] i []) as [[[rest e] c]|] eqn:E; [|discriminate].
    intros [= <-] Hs. cbn [m_text m_caps].
    apply (matcher_in_text text) in E; [|exact Hs|constructor].
    destruct E as (s' & i' & c' & E & _ & Hc). unfold accept in E. injection E as _ _ <-.
    split; [now apply occursIn_firstn|exact Hc].
  - destruct (matcher ci r accept (x :: s) i []) as [[[rest e] c]|] eqn:E.
    + intros [= <-] Hs. cbn [m_text m_caps].
      apply (matcher_in_text text) in E; [|exact Hs|constructor].
      destruct E as (s' & i' & c' & E & _ & Hc). unfold accept in E. injection E as _ _ <-.
      split; [now apply occursIn_firstn|exact Hc].
    + intros H Hs. apply (IH _ _ H). now apply restOf_cons in Hs.
Qed.

Lemma restOf_refl text : restOf text text.
Proof. now exists []. Qed.

Lemma lookupCap_in text n c g : capturesIn text c -> lookupCap n c = Some g -> occursIn g text.
Proof.
  induction 1 as [|[k v] c Hv _ IH]; cbn [lookupCap]; [discriminate|].
  destruct (Nat.eqb k n); [now intros [= <-]|exact IH].
Qed.

(** The text and the groups of a match are pieces of the text searched. *)
Lemma jsMatch_in_text ci r text mt :
  jsMatch ci r text = Some mt ->
  occursIn (m_text mt) text /\ forall n g, group n mt = Some g -> occursIn g text.
Proof.
  intros H. apply (search_in_text text) in H; [|apply restOf_refl].
  destruct H as [H1 H2]. split; [exact H1|]. intros n g Hg.
  now apply (lookupCap_in text n (m_caps mt)).
Qed.

Lemma truthyGroup_in_text ci r text g :
  truthyGroup (jsMatch ci r text) = Some g -> occursIn g text.
Proof.
  unfold truthyGroup. destruct (jsMatch ci r text) as [mt|] eqn:E; [|discriminate].
  destruct (group 1 mt) as [g'|] eqn:Eg; [|discriminate].
  destruct (falsy g'); [discriminate|]. intros [= <-].
  now apply (proj2 (jsMatch_in_text ci r text mt E) 1%nat).
Qed.

Lemma firstText_in_text r text v : firstText r text = Some v -> occursIn v text.
Proof.
  unfold firstText. destruct (jsMatch false r text) as [mt|] eqn:E; [|discriminate].
  intros [= <-]. apply (jsMatch_in_text false r text mt E).
Qed.

Lemma cutAtColon_value line k v : cutAtColon line = Some (k, v) -> occursIn v line.
Proof.
  intros H. apply cutAtColon_spec in H. destruct H as [-> _].
  exists (k ++ [COLON]), []. now rewrite app_nil_r, <- app_assoc.
Qed.

(** What the scanner stores as contact. *)
Lemma scanner_contact text :
  match jsMatchAll false securityEmailRe text
        ++ jsMatchAll false mailtoRe text
        ++ jsMatchAll false (urlRe "security") text
        ++ jsMatchAll false (urlRe "responsible-disclosure") text
        ++ jsMatchAll false (urlRe "vulnerability") text with
  | first :: _ => setProperty (str "contact") first (∅ : SecurityTxtInfo)
  | [] => ∅
  end
  = match heuristicContact text with
    | Some first => {[ str "contact" := first ]}
    | None => ∅
    end.
Proof.
  rewrite (match_head _ (fun first => setProperty (str "contact") first ∅)).
  rewrite !head_app_orElse, !matchAll_head. unfold heuristicContact, firstText.
  destruct (orElse _ _); [|reflexivity]. rewrite setProperty_contact. apply insert_empty.
Qed.

Lemma heuristicContact_in_text text v : heuristicContact text = Some v -> occursIn v text.
Proof.
  unfold heuristicContact.
  repeat match goal with
         | |- orElse ?a _ = Some _ -> _ =>
             let E := fresh "E" in
             destruct a eqn:E; cbn [orElse];
             [intros [= <-]; now apply firstText_in_text in E|]
         end.
  apply firstText_in_text.
Qed.

Section InText.
Variable lower : jsstring -> jsstring.

Lemma parseLine_in_text block r line :
  occursIn line block ->
  map_Forall (fun _ v => occursIn v block) r ->
  map_Forall (fun _ v => occursIn v block) (parseLine lower r line).
Proof.
  intros Hl Hr. rewrite parseLine_readLine. unfold readLine.
  destruct (falsy _ || startsWith _ _); [exact Hr|].
  destruct (cutAtColon line) as [[k v]|] eqn:E; [|exact Hr].
  destruct (falsy k || existsb isLineTerminator (trimStart v)); [exact Hr|].
  apply (setProperty_Forall (fun _ v => occursIn v block)); [|exact Hr]. intros _.
  apply occursIn_trans with v; [apply occursIn_trim|].
  apply occursIn_trans with line; [now apply (cutAtColon_value line k)|exact Hl].
Qed.

Lemma parse_in_text block ls : forall r,
  Forall (fun l => occursIn l block) ls ->
  map_Forall (fun _ v => occursIn v block) r ->
  map_Forall (fun _ v => occursIn v block) (fold_left (parseLine lower) ls r).
Proof.
  induction ls as [|l ls IH]; intros r Hls Hr; [exact Hr|]. cbn [fold_left].
  inversion Hls; subst. apply IH; [assumption|]. now apply parseLine_in_text.
Qed.

Lemma parseSecurityTxt_in_text block :
  map_Forall (fun _ v => occursIn v block) (parseSecurityTxt lower block).
Proof.
  unfold parseSecurityTxt. apply parse_in_text; [|apply map_Forall_empty].
  apply Forall_forall. intros l Hl. apply occursIn_split. now apply list_elem_of_In.
Qed.

Lemma map_Forall_weaken (P Q : jsstring -> jsstring -> Prop) (m : gmap jsstring jsstring) :
  (forall k v, P k v -> Q k v) -> map_Forall P m -> map_Forall Q m.
Proof. intros H Hm k v Hkv. apply H. now apply Hm. Qed.

Lemma findInText_in_text text :
  map_Forall (fun k v => (k = str "encryption" /\ v = PGP_FOUND) \/ occursIn v text) (findInText lower text).
Proof.
  assert (Hblock : forall block, occursIn block text ->
            map_Forall (fun k v => (k = str "encryption" /\ v = PGP_FOUND) \/ occursIn v text)
              (parseSecurityTxt lower block)).
  { intros block Hb. apply (map_Forall_weaken (fun _ v => occursIn v block)).
    - intros k v Hv. right. now apply occursIn_trans with block.
    - apply parseSecurityTxt_in_text. }
  unfold findInText.
  destruct (truthyGroup (jsMatch true standardRe text)) as [block|] eqn:E1.
  { apply Hblock. now apply truthyGroup_in_text in E1. }
  destruct (truthyGroup (jsMatch true delimitedRe text)) as [block|] eqn:E2.
  { apply Hblock. now apply truthyGroup_in_text in E2. }
  assert (Hfm : forall re fm, jsMatch true re text = Some fm ->
            map_Forall (fun k v => (k = str "encryption" /\ v = PGP_FOUND) \/ occursIn v text)
              match group 1 fm with
              | Some g => setProperty (str "contact") (trim g) ∅
              | None => ∅
              end).
  { intros re fm Hm. destruct (group 1 fm) as [g|] eqn:Eg; [|apply map_Forall_empty].
    apply setProperty_Forall; [|apply map_Forall_empty]. intros _. right.
    apply occursIn_trans with g; [apply occursIn_trim|].
    now apply (proj2 (jsMatch_in_text true re text fm Hm) 1%nat). }
  destruct (jsMatch true contactRe text) as [fm|] eqn:E3; cbn [orElse].
  { now apply (Hfm contactRe). }
  destruct (jsMatch true securityContactRe text) as [fm|] eqn:E4; cbn [orElse].
  { now apply (Hfm securityContactRe). }
  destruct (jsMatch true mailtoFieldRe text) as [fm|] eqn:E5.
  { now apply (Hfm mailtoFieldRe). }
  unfold extractSecurityInfoFromText. rewrite scanner_contact.
  assert (Hbase : map_Forall (fun k v => (k = str "encryption" /\ v = PGP_FOUND) \/ occursIn v text)
            (match heuristicContact text with
             | Some first => {[ str "contact" := first ]}
             | None => ∅
             end : gmap jsstring jsstring)).
  { destruct (heuristicContact text) as [first|] eqn:Eh; [|apply map_Forall_empty].
    apply map_Forall_singleton. right. now apply heuristicContact_in_text. }
  destruct (jsMatchAll false pgpRe text); [exact Hbase|].
  apply setProperty_Forall; [|exact Hbase]. intros _. left. now split.
Qed.
End InText.

(** *** The query of the request *)

Lemma split_none c l : Forall (fun x => x <> c) l -> split c l = [l].
Proof.
  induction 1 as [|x l Hx _ IH]; [reflexivity|]. cbn [split].
  apply N.eqb_neq in Hx. now rewrite Hx, IH.
Qed.

Lemma split_app_none c l rest :
  Forall (fun x => x <> c) l -> split c (l ++ c :: rest) = l :: split c rest.
Proof.
  induction 1 as [|x l Hx _ IH]; cbn [app split].
  - now rewrite N.eqb_refl.
  - apply N.eqb_neq in Hx. now rewrite Hx, IH.
Qed.

Lemma split_join c ls :
  ls <> [] -> Forall (Forall (fun x => x <> c)) ls -> split c (join [c] ls) = ls.
Proof.
  intros Hne Hls. induction Hls as [|l ls Hl Hls IH]; [contradiction|].
  destruct ls as [|l' ls]; cbn [join].
  - now apply split_none.
  - cbn [app]. rewrite (split_app_none c l _ Hl). f_equal. apply IH. discriminate.
Qed.

Lemma hexDigit_plain n : isDelimiter (hexDigit n) = false.
Proof.
  unfold hexDigit, isDelimiter. cbn [str list_ascii_of_string map existsb].
  destruct (N.ltb_spec n 10);
    repeat (rewrite (proj2 (N.eqb_neq _ _)) by (cbv [ch N_of_ascii N_of_digits]; lia));
    reflexivity.
Qed.

Lemma percent_plain b : Forall (fun c => isDelimiter c = false) (percent b).
Proof. unfold percent. repeat constructor; apply hexDigit_plain. Qed.

Lemma percents_plain bs : Forall (fun c => isDelimiter c = false) (flat_map percent bs).
Proof.
  induction bs as [|b bs IH]; [constructor|]. cbn [flat_map].
  apply Forall_app. split; [apply percent_plain|exact IH].
Qed.

Lemma unreserved_plain c : isUnreserved c = true -> isDelimiter c = false.
Proof.
  unfold isUnreserved, isDelimiter, isLowerAZ, isUpperAZ.
  cbn [str list_ascii_of_string map existsb]. cbv [ch N_of_ascii N_of_digits].
  intros H. repeat rewrite orb_true_iff in H. repeat rewrite andb_true_iff in H.
  repeat rewrite N.leb_le in H. repeat rewrite N.eqb_eq in H.
  repeat (rewrite (proj2 (N.eqb_neq _ _)) by lia). reflexivity.
Qed.

(** What [encodeURIComponent] returns holds no delimiter. *)
Lemma encoded_plain fm n : forall s e,
  (length s <= n)%nat ->
  encodeURIComponent fm s = inr e -> Forall (fun c => isDelimiter c = false) e.
Proof.
  induction n as [|n IH]; intros s e Hl.
  - destruct s; [|cbn in Hl; lia]. intros [= <-]. constructor.
  - destruct s as [|c s]; [intros [= <-]; constructor|]. cbn [encodeURIComponent].
    cbn [length] in Hl.
    destruct (isUnreserved c) eqn:Eu.
    + destruct (encodeURIComponent fm s) as [x|r] eqn:E; [discriminate|]. cbn [andThen].
      intros [= <-]. constructor; [now apply unreserved_plain|]. apply (IH s); [lia|exact E].
    + destruct (isLowSurrogate c); [discriminate|].
      destruct (isHighSurrogate c).
      * destruct s as [|d s]; [discriminate|]. destruct (isLowSurrogate d); [|discriminate].
        destruct (encodeURIComponent fm s) as [x|r] eqn:E; [discriminate|]. cbn [andThen].
        intros [= <-]. apply Forall_app. split; [apply percents_plain|].
        apply (IH s); [cbn [length] in Hl; lia|exact E].
      * destruct (encodeURIComponent fm s) as [x|r] eqn:E; [discriminate|]. cbn [andThen].
        intros [= <-]. apply Forall_app. split; [apply percents_plain|].
        apply (IH s); [lia|exact E].
Qed.

Lemma mapRaises_Forall2 {A B} (f : A -> Raises B) l : forall bs,
  mapRaises f l = inr bs -> Forall2 (fun a b => f a = inr b) l bs.
Proof.
  induction l as [|a l IH]; intros bs; cbn [mapRaises].
  - intros [= <-]. constructor.
  - destruct (f a) as [e|b] eqn:E; [discriminate|]. cbn [andThen].
    destruct (mapRaises f l) as [e|bs'] eqn:E'; [discriminate|]. cbn [andThen].
    intros [= <-]. constructor; [exact E|]. now apply IH.
Qed.

Lemma delimiter_amp c : isDelimiter c = false -> c <> ch "&".
Proof. intros H ->. discriminate H. Qed.

Section QueryLemmas.
Variable engine : Engine.

Lemma queryParams_keys options :
  Forall (fun kv : jsstring * jsstring => Forall (fun c => c <> ch "&") (fst kv))
    (History.queryParams engine options).
Proof.
  unfold History.queryParams.
  repeat (apply Forall_app; split);
    repeat match goal with
           | |- Forall _ (match ?x with _ => _ end) => destruct x
           | |- Forall _ (if ?x then _ else _) => destruct x
           end;
    first [ constructor;
            [cbn [fst]; cbv [str ch list_ascii_of_string map N_of_ascii N_of_digits];
             repeat (constructor; [discriminate|]); constructor
            |constructor]
          | constructor ].
Qed.
End QueryLemmas.

(** An item that is neither [null] nor [undefined] is read without
    failure. *)
Lemma item_read (engine : Engine) (item : Value (Number engine)) :
  notNullish item ->
  exists tx, History.toTransactionData engine item = inr tx /\ madeFrom engine item tx.
Proof.
  intros Hitem. unfold madeFrom.
  destruct item; try contradiction; eexists; (split; [reflexivity|]);
    cbn [get History.signature History.slot History.timestamp History.blockTime History.err
         History.memo History.type History.fee History.status];
    repeat split; eauto.
Qed.

(** The items of an answer, read one by one. *)
Lemma items_read (engine : Engine) (items : list (Value (Number engine))) :
  Forall notNullish items ->
  exists transactions,
    mapRaises (History.toTransactionData engine) items = inr transactions
    /\ Forall2 (madeFrom engine) items transactions.
Proof.
  induction 1 as [|item items Hitem _ IH].
  - exists []. split; [reflexivity|constructor].
  - destruct IH as (txs & Hm & Hall). cbn [mapRaises].
    destruct (item_read engine item Hitem) as (tx & Htx & Hmade).
    exists (tx :: txs). rewrite Htx, Hm.
    split; [reflexivity|]. now constructor.
Qed.

(** One item that is [null] or [undefined] makes the reading fail. *)
Lemma items_fail (engine : Engine) (items : list (Value (Number engine))) :
  ~ Forall notNullish items ->
  exists fault,
    mapRaises (History.toTransactionData engine) items
    = inl (typeError (faultMessage engine) fault).
Proof.
  induction items as [|item items IH]; intros Hno.
  - exfalso. apply Hno. constructor.
  - cbn [mapRaises].
    assert (Hitem : notNullish item
                    \/ exists fault,
                         History.toTransactionData engine item
                         = inl (typeError (faultMessage engine) fault)).
    { destruct item; try (left; exact I); right; eexists; reflexivity. }
    destruct Hitem as [Hitem|(fault & ->)]; [|now exists fault].
    destruct (item_read engine item Hitem) as (tx & -> & _). cbn [andThen].
    destruct IH as (fault & ->); [|now exists fault].
    intros Hall. apply Hno. now constructor.
Qed.

(** ** The priority fee tool *)

Section FeeLemmas.

Variable engine : Engine.

Lemma accountKeys_estimate (fetch : Fee.Fetch engine) connection keys options :
  Fee.estimatePriorityFeeByAccountKeys engine fetch connection keys options
  = inr (replyEstimate engine Fee.blockTimes
           (fetch (Fee.post engine (Fee.rpcEndpoint connection)
                     (Fee.AccountKeys (default [Fee.JUPITER] keys)) options))).
Proof.
  unfold Fee.estimatePriorityFeeByAccountKeys, replyEstimate, tryCatch.
  now destruct (let! response := fetch _ in _).
Qed.

Lemma transaction_estimate (fetch : Fee.Fetch engine) connection encoded options :
  falsy encoded = false ->
  Fee.estimatePriorityFeeByTransaction engine fetch connection (Some encoded) options
  = inr (replyEstimate engine Fee.secondTimes
           (fetch (Fee.post engine (Fee.rpcEndpoint connection)
                     (Fee.Transaction encoded) options))).
Proof.
  intros Hf.
  unfold Fee.estimatePriorityFeeByTransaction, replyEstimate, tryCatch, truthyString.
  rewrite Hf. cbn [negb].
  now destruct (let! response := fetch _ in _).
Qed.

Lemma transaction_missing (fetch : Fee.Fetch engine) connection tx options :
  truthyString tx = false ->
  Fee.estimatePriorityFeeByTransaction engine fetch connection tx options
  = Fee.estimatePriorityFeeByAccountKeys engine fetch connection None None.
Proof.
  intros Hf. unfold Fee.estimatePriorityFeeByTransaction. rewrite Hf. cbn [negb].
  now rewrite accountKeys_estimate.
Qed.

Lemma post_handler connection (params : Fee.Params) :
  Fee.post engine (Fee.rpcEndpoint connection) (feeSubject params)
    (Some (Fee.mkEstimateOptions engine None None))
  = feeRequest engine connection params.
Proof. reflexivity. Qed.

(** The estimate of the handler's call of the tool. *)
Lemma fee_estimate (fetch : Fee.Fetch engine) connection (params : Fee.Params) :
  Fee.estimatePriorityFee engine fetch connection
    (Some (Fee.mkOptions engine (Fee.p_method params) (Fee.p_accountKeys params)
             (Fee.p_serializedTransaction params) None None))
  = inr (replyEstimate engine (feeTimes params)
           (fetch (feeRequest engine connection params))).
Proof.
  rewrite <- post_handler.
  unfold Fee.estimatePriorityFee, feeTimes, feeSubject, Fee.methodOf.
  cbn [Fee.method Fee.accountKeys Fee.serializedTransaction Fee.o_lookbackSlots
       Fee.o_includeVote].
  destruct params as [m keys tx]. cbn [Fee.p_method Fee.p_accountKeys Fee.p_serializedTransaction].
  assert (Hm : bool_decide
                 (match m with
                  | Some m0 => if falsy m0 then Fee.ACCOUNT_KEYS else m0
                  | None => Fee.ACCOUNT_KEYS
                  end = Fee.TRANSACTION)
               = bool_decide (m = Some Fee.TRANSACTION)).
  { apply bool_decide_ext. destruct m as [m0|].
    - destruct m0 as [|c m0]; cbn [falsy]; split; intros H;
        try discriminate; congruence.
    - split; discriminate. }
  rewrite Hm. clear Hm.
  destruct (bool_decide (m = Some Fee.TRANSACTION)); cbn [andb tryCatch].
  - destruct (truthyString tx) eqn:Ht.
    + destruct tx as [encoded|]; [|discriminate]. cbn [truthyString] in Ht.
      rewrite transaction_estimate by now destruct (falsy encoded).
      reflexivity.
    + now rewrite accountKeys_estimate.
  - now rewrite accountKeys_estimate.
Qed.

Lemma fee_handler (fetch : Fee.Fetch engine) connection (params : Fee.Params) :
  Fee.handler engine fetch connection params
  = Fee.mkResponse engine "success"
      (Some (replyEstimate engine (feeTimes params)
               (fetch (feeRequest engine connection params))))
      (Fee.successMessage params) None None.
Proof. unfold Fee.handler. now rewrite fee_estimate. Qed.

Lemma orValue_present (a : Value (Number engine)) n :
  present (orValue engine a (VNumber n)) = true.
Proof. unfold orValue. destruct (toBoolean engine a) eqn:E; [|reflexivity]. now destruct a. Qed.

Lemma truthy_present (a : Value (Number engine)) : toBoolean engine a = true -> present a = true.
Proof. now destruct a. Qed.

(** What reading a reply gives, with the members of the reply it came
    from where it is not the defaults. *)
Lemma readReply_cases times data estimate :
  Fee.readReply engine times data = inr estimate ->
  estimate = Fee.getDefaultPriorityFees engine
  \/ exists error result levels,
       get engine data "error" = inr error /\ toBoolean engine error = false
       /\ get engine data "result" = inr result /\ toBoolean engine result = true
       /\ get engine result "priorityFeeLevels" = inr levels
       /\ toBoolean engine levels = true
       /\ Fee.priorityFeeLevels engine estimate = levels
       /\ Fee.timeEstimates engine estimate = times
       /\ present (Fee.low engine estimate) = true
       /\ present (Fee.medium engine estimate) = true
       /\ present (Fee.high engine estimate) = true
       /\ present (Fee.suggested engine estimate) = true.
Proof.
  unfold Fee.readReply. intros H.
  destruct (get engine data "error") as [?|error] eqn:Ee; [discriminate|]. cbn [andThen] in H.
  destruct (toBoolean engine error) eqn:Te.
  { destruct (get engine error "message"); [discriminate|]. cbn [andThen] in H.
    destruct (valueToString engine v); discriminate. }
  destruct (get engine data "result") as [?|result] eqn:Er; [discriminate|]. cbn [andThen] in H.
  destruct (toBoolean engine result) eqn:Tr; [|left; congruence].
  destruct (get engine result "priorityFeeEstimate") as [?|est]; [discriminate|].
  cbn [andThen] in H.
  destruct (if toBoolean engine est then inr est else get engine result "priorityFee")
    as [?|pfe]; [discriminate|]. cbn [andThen] in H.
  destruct (get engine result "priorityFeeLevels") as [?|levels] eqn:El; [discriminate|].
  cbn [andThen] in H.
  destruct (toBoolean engine levels) eqn:Tl; [|left; congruence].
  repeat match type of H with
         | andThen (get engine levels ?n) _ = _ =>
             destruct (get engine levels n); [discriminate|]; cbn [andThen] in H
         end.
  destruct (toBoolean engine pfe) eqn:Tp; cbn [andThen] in H.
  - injection H as <-. right. exists error, result, levels.
    cbn [Fee.low Fee.medium Fee.high Fee.suggested Fee.priorityFeeLevels Fee.timeEstimates].
    unfold Fee.number. rewrite !orValue_present, (truthy_present _ Tp). auto 20.
  - destruct (ceilOfTimes12 engine _); [discriminate|]. cbn [andThen] in H.
    injection H as <-. right. exists error, result, levels.
    cbn [Fee.low Fee.medium Fee.high Fee.suggested Fee.priorityFeeLevels Fee.timeEstimates
         present].
    unfold Fee.number. rewrite !orValue_present. auto 20.
Qed.

Lemma defaults_present :
  present (Fee.low engine (Fee.getDefaultPriorityFees engine)) = true
  /\ present (Fee.medium engine (Fee.getDefaultPriorityFees engine)) = true
  /\ present (Fee.high engine (Fee.getDefaultPriorityFees engine)) = true
  /\ present (Fee.suggested engine (Fee.getDefaultPriorityFees engine)) = true.
Proof. now repeat split. Qed.

Lemma replyEstimate_cases times reply :
  replyEstimate engine times reply = Fee.getDefaultPriorityFees engine
  \/ exists response data,
       reply = inr response /\ json engine response = inr data
       /\ Fee.readReply engine times data = inr (replyEstimate engine times reply).
Proof.
  unfold replyEstimate. destruct reply as [?|response]; [now left|]. cbn [andThen].
  destruct (json engine response) as [?|data] eqn:Ej; [now left|]. cbn [andThen].
  destruct (Fee.readReply engine times data) eqn:E; [now left|].
  right. now exists response, data.
Qed.

End FeeLemmas.

(** ** Further properties of the code *)

(** X1: the loop body of [parseSecurityTxt] takes a line for a field
    exactly when the line is not blank, does not begin, after white space,
    with [#], holds a colon with at least one character before the first
    one, and no line terminator follows the first non-blank character after
    that colon.  It then stores the text after the first colon, trimmed,
    under the text before it, trimmed, lowered and folded from kebab case to
    camel case (a key [__proto__] is not stored); every other line leaves
    the mapping as it is. *)
Theorem X1_line_reading :
  forall (unicodeLower : jsstring -> jsstring) (result : SecurityTxtInfo) (line : jsstring),
    parseLine unicodeLower result line =
    match readLine line with
    | Some (name, value) =>
        setProperty (foldKebab (toLowerCase unicodeLower (trim name))) (trim value) result
    | None => result
    end.
Proof. intros unicodeLower result line. apply parseLine_readLine. Qed.

(** X2: a block whose lines end with a carriage return and a newline
    yields no field at all, whatever the names and the values, as long as
    each value holds a character that is not white space: the line pattern
    needs the value to reach the end of the line, and [.] stops at the
    carriage return. *)
Theorem X2_crlf_block_is_empty :
  forall (unicodeLower : jsstring -> jsstring) (fields : list (jsstring * jsstring)),
    Forall (fun kv => noColon (fst kv) /\ noLF (fst kv) /\ noLF (snd kv)
                      /\ trimStart (snd kv) <> []) fields ->
    parseSecurityTxt unicodeLower (crlfLines fields) = ∅.
Proof.
  intros unicodeLower fields Hf. unfold parseSecurityTxt. now apply parse_crlf.
Qed.

Lemma X2_witness :
  parseSecurityTxt idLower
    (crlfLines [(str "contact", str " mailto:a@b.io"); (str "expires", str " 2030-01-01")])
  = ∅.
Proof.
  apply (X2_crlf_block_is_empty idLower).
  repeat (constructor;
          [split; [all_chars ltac:(discriminate)
                  |split; [all_chars ltac:(discriminate)
                          |split; [all_chars ltac:(discriminate)|vm_compute; discriminate]]]|]).
  constructor.
Defined.

(** X3: the parser works line by line, from left to right, each line on
    top of the mapping the lines before it gave: parsing a content followed
    by a newline and more content is parsing the first part and then going
    on with the lines of the second.  So a field line at the end decides
    the value of its key, whatever the content before it holds. *)
Theorem X3_line_by_line :
  forall unicodeLower : jsstring -> jsstring,
    (forall a b : jsstring,
        parseSecurityTxt unicodeLower (a ++ LF :: b)
        = fold_left (parseLine unicodeLower) (split LF b) (parseSecurityTxt unicodeLower a))
    /\ (forall (a : jsstring) (kv : jsstring * jsstring),
           validField kv ->
           parseSecurityTxt unicodeLower (a ++ LF :: fieldLine kv) !! camelKey (fst kv)
           = Some (trim (snd kv))).
Proof.
  intros unicodeLower.
  assert (H1 : forall a b : jsstring,
             parseSecurityTxt unicodeLower (a ++ LF :: b)
             = fold_left (parseLine unicodeLower) (split LF b) (parseSecurityTxt unicodeLower a)).
  { intros a b. unfold parseSecurityTxt. now rewrite split_app, fold_left_app. }
  split; [exact H1|]. intros a kv Hkv. rewrite H1.
  destruct (fieldLine_blockLine kv Hkv) as [Hn _]. rewrite (split_noLF _ Hn).
  cbn [fold_left]. rewrite (parseLine_field unicodeLower _ kv Hkv).
  unfold storeField. apply lookup_insert_eq.
Qed.

Lemma X3_witness :
  parseSecurityTxt idLower (str "Contact: old@example.com
policy: p" ++ LF :: fieldLine (str "Contact", str " new@example.com"))
  !! camelKey (str "Contact") = Some (str "new@example.com").
Proof.
  apply (proj2 (X3_line_by_line idLower) _ (str "Contact", str " new@example.com")).
  split; [split; [discriminate|all_chars ltac:(reflexivity)]|all_chars ltac:(reflexivity)].
Defined.

(** X4: every entry of the mapping the parser returns is in normal form:
    the key is not [__proto__] and holds no hyphen followed by a lower-case
    letter, and the value has no white space at either end. *)
Theorem X4_entries_normal :
  forall (unicodeLower : jsstring -> jsstring) (content : jsstring),
    map_Forall normalEntry (parseSecurityTxt unicodeLower content).
Proof.
  intros unicodeLower content. unfold parseSecurityTxt. apply parse_normal.
  apply map_Forall_empty.
Qed.

(** X5: on a buffer of ASCII bytes the decoder is the identity, so the
    extractor searches the bytes themselves, read as characters. *)
Theorem X5_ascii_bytes :
  forall (unicodeLower : jsstring -> jsstring) (programData : Buffer),
    asciiBytes programData ->
    decode programData = map Byte.to_N programData
    /\ findAndParseSecurityTxt unicodeLower programData
       = findInText unicodeLower (map Byte.to_N programData).
Proof.
  intros unicodeLower programData H. pose proof (decode_ascii programData H) as Hd.
  split; [exact Hd|]. unfold findAndParseSecurityTxt. now rewrite Hd.
Qed.

Lemma X5_witness :
  findAndParseSecurityTxt idLower (bytesOf "Contact: team@example.com")
  = findInText idLower (map Byte.to_N (bytesOf "Contact: team@example.com")).
Proof.
  apply (X5_ascii_bytes idLower).
  unfold asciiBytes. cbv [bytesOf list_byte_of_string].
  repeat (constructor; [reflexivity|]). constructor.
Defined.

(** X6: ASCII text embedded in a program image survives the decoding,
    whatever bytes surround it: a sequence the bytes before it leave
    unfinished, invalid bytes and a byte order mark change the text around
    it, never the text itself. *)
Theorem X6_text_survives_decoding :
  forall before text after : Buffer,
    asciiBytes text ->
    exists x y : jsstring, decode (before ++ text ++ after) = x ++ map Byte.to_N text ++ y.
Proof. intros before text after H. now apply decode_embedded. Qed.

Lemma X6_witness :
  exists x y : jsstring,
    decode ([Byte.xef; Byte.xbb; Byte.xbf; Byte.x7f; Byte.xe2; Byte.x82]
            ++ bytesOf "# security.txt" ++ [Byte.xff; Byte.xc3])
    = x ++ map Byte.to_N (bytesOf "# security.txt") ++ y.
Proof.
  apply X6_text_survives_decoding.
  unfold asciiBytes. cbv [bytesOf list_byte_of_string].
  repeat (constructor; [reflexivity|]). constructor.
Defined.

(** X7: the resolver reads at most two accounts: the one of the program
    and, only when that one is owned by the upgradeable loader and its data
    begin with the byte 2, the one its address window names.  Two ledgers
    that agree there give the same answer. *)
Theorem X7_reads_two_accounts :
  forall (unicodeLower : jsstring -> jsstring) (programId : PublicKey)
         (ledger1 ledger2 : Connection),
    ledger1 programId = ledger2 programId ->
    (forall account,
        ledger1 programId = inr (Some account) ->
        owner account = BPF_UPGRADEABLE_LOADER_ID ->
        isProgramTag (data account) = true ->
        ledger1 (windowAddress (data account)) = ledger2 (windowAddress (data account))) ->
    getSecurityTxtInfo unicodeLower programId ledger1
    = getSecurityTxtInfo unicodeLower programId ledger2.
Proof.
  intros unicodeLower programId ledger1 ledger2 H1 H2. unfold getSecurityTxtInfo.
  rewrite !resolve_cases, <- H1.
  destruct (ledger1 programId) as [e|[account|]]; try reflexivity.
  specialize (H2 account eq_refl).
  destruct (N.eqb (owner account) BPF_UPGRADEABLE_LOADER_ID) eqn:Eo; [|reflexivity].
  apply N.eqb_eq in Eo. specialize (H2 Eo).
  destruct (isProgramTag (data account)); [|reflexivity].
  now rewrite (H2 eq_refl).
Qed.

Lemma X7_witness :
  getSecurityTxtInfo idLower 1 oddLedger
  = getSecurityTxtInfo idLower 1
      (fun key => if key =? 5 then inl (FetchFailed "timeout") else oddLedger key).
Proof.
  apply X7_reads_two_accounts.
  - reflexivity.
  - intros account H _ _. injection H as <-. vm_compute. reflexivity.
Defined.

(** X8: the resolver fails in these cases and no other: the request for
    the program account fails (its error is passed on); there is no such
    account; the account is owned by the upgradeable loader and its data
    are empty or begin with another byte than 2; or, the data beginning
    with 2, the request for the account of the address window fails or
    finds nothing.  An account that another program owns never makes it
    fail, and reading the address from the window never does. *)
Theorem X8_resolver_failures :
  forall (programId : PublicKey) (connection : Connection) (e : Error),
    resolveProgramData programId connection = inl e <->
    connection programId = inl e
    \/ (connection programId = inr None /\ e = ProgramAccountNotFound)
    \/ exists account,
         connection programId = inr (Some account)
         /\ owner account = BPF_UPGRADEABLE_LOADER_ID
         /\ ((isProgramTag (data account) = false /\ e = NotValidUpgradeableProgram)
             \/ (isProgramTag (data account) = true
                 /\ (connection (windowAddress (data account)) = inl e
                     \/ (connection (windowAddress (data account)) = inr None
                         /\ e = ProgramDataAccountNotFound)))).
Proof.
  intros programId connection e. rewrite resolve_cases.
  destruct (connection programId) as [e0|[account|]] eqn:Ec.
  - split.
    + intros [= ->]. now left.
    + intros [[= ->]|[[H _]|(a & H & _)]]; [reflexivity|discriminate H|discriminate H].
  - destruct (N.eqb (owner account) BPF_UPGRADEABLE_LOADER_ID) eqn:Eo.
    + apply N.eqb_eq in Eo. destruct (isProgramTag (data account)) eqn:Et.
      * split.
        -- intros H. right. right. exists account. split; [reflexivity|]. split; [exact Eo|].
           right. split; [exact Et|].
           destruct (connection (windowAddress (data account))) as [e1|[pda|]];
             [injection H as ->; now left|discriminate H|injection H as <-; now right].
        -- intros [H|[[H _]|(a & H & _ & [[H1 _]|[_ H2]])]]; try discriminate H.
           ++ injection H as <-. rewrite Et in H1. discriminate H1.
           ++ injection H as <-. destruct H2 as [->|[-> ->]]; reflexivity.
      * split.
        -- intros [= <-]. right. right. exists account. split; [reflexivity|]. split; [exact Eo|].
           left. now split.
        -- intros [H|[[H _]|(a & H & _ & [[_ ->]|[H1 _]])]]; try discriminate H.
           ++ reflexivity.
           ++ injection H as <-. rewrite Et in H1. discriminate H1.
    + apply N.eqb_neq in Eo. split; [discriminate|].
      intros [H|[[H _]|(a & H & Ho & _)]]; try discriminate H.
      injection H as <-. contradiction.
  - split.
    + intros [= <-]. right. now left.
    + intros [H|[[_ ->]|(a & H & _)]]; [discriminate H|reflexivity|discriminate H].
Qed.

(** X9: the handler checks the program id before it asks the ledger
    anything: a text that holds a character outside the base-58 alphabet,
    or has fewer than 32 characters, is answered with the status [error]
    and the message of the key constructor, whatever the ledger holds. *)
Theorem X9_program_id_checked_first :
  forall (unicodeLower : jsstring -> jsstring) (connection : Connection) (programId : string),
    (existsb (fun a => negb (isBase58 a)) (list_ascii_of_string programId) = true ->
     handler unicodeLower connection programId = errorResponse NonBase58Character)
    /\ ((String.length programId < 32)%nat ->
        handler unicodeLower connection programId = errorResponse NonBase58Character
        \/ handler unicodeLower connection programId = errorResponse InvalidPublicKeyInput).
Proof.
  intros unicodeLower connection programId. split.
  - intros H. unfold handler. now rewrite (publicKeyOfString_alphabet programId H).
  - intros H. unfold handler.
    destruct (publicKeyOfString_short programId H) as [-> | ->]; [now left|now right].
Qed.

Lemma X9_witness :
  handler idLower oddLedger "TokenkegQfeZyiNwAJbNbGKPFXCWuBvf9Ss623VQ5DA0"
  = errorResponse NonBase58Character.
Proof.
  apply (proj1 (X9_program_id_checked_first idLower oddLedger _)).
  vm_compute. reflexivity.
Defined.

(** X10: the extractor invents no value: whatever the mapping it returns
    holds is a piece of the decoded text, taken as it stands there, except
    the fixed sentence stored under [encryption] when a PGP key block is
    found. *)
Theorem X10_values_from_text :
  forall (unicodeLower : jsstring -> jsstring) (programData : Buffer),
    map_Forall
      (fun key value =>
         (key = str "encryption" /\ value = PGP_FOUND)
         \/ occursIn value (decode programData))
      (findAndParseSecurityTxt unicodeLower programData).
Proof.
  intros unicodeLower programData. unfold findAndParseSecurityTxt.
  apply findInText_in_text.
Qed.

(** X11: a key written in base 58 and read back is the same key, and a
    text that reads as a key is what that key is written as: the tools
    that compare or send [publicKey.toString()] work with the very text
    the handler was given. *)
Theorem X11_base58_round_trip :
  (forall k : PublicKey, byteLength k <= 32 -> publicKeyOfString (toBase58 k) = inr k)
  /\ (forall (s : string) (k : PublicKey), publicKeyOfString s = inr k -> toBase58 k = s).
Proof. split; [exact toBase58_read|exact toBase58_write]. Qed.

Lemma X11_witness :
  publicKeyOfString (toBase58 BPF_UPGRADEABLE_LOADER_ID) = inr BPF_UPGRADEABLE_LOADER_ID
  /\ toBase58 BPF_UPGRADEABLE_LOADER_ID = "BPFLoaderUpgradeab1e11111111111111111111111"%string.
Proof.
  split.
  - apply (proj1 X11_base58_round_trip). vm_compute. discriminate.
  - apply (proj2 X11_base58_round_trip). vm_compute. reflexivity.
Defined.

(** X12: [GET_TRANSACTION_HISTORY] makes no request without a valid
    address: a missing or empty address is answered with [input_needed],
    and an address that holds a character outside the base-58 alphabet or
    has fewer than 32 characters with the error of an invalid address,
    whatever the network would answer. *)
Theorem X12_history_address_checked :
  forall (engine : Engine) (fetch : History.Fetch engine) (connection : History.Connection)
         (params : History.Params engine),
    (History.p_address engine params = None
     \/ History.p_address engine params = Some EmptyString ->
     History.handler engine fetch connection params = inputNeeded engine)
    /\ (forall address : string,
           History.p_address engine params = Some address ->
           address <> EmptyString ->
           existsb (fun a => negb (isBase58 a)) (list_ascii_of_string address) = true
           \/ (String.length address < 32)%nat ->
           History.handler engine fetch connection params = invalidAddress engine).
Proof.
  intros engine fetch connection params. split.
  - intros [H|H]; unfold History.handler; now rewrite H.
  - intros address Ha Hne [H|H].
    + apply (history_invalid engine fetch connection params address NonBase58Character Ha Hne).
      now apply publicKeyOfString_alphabet.
    + destruct (publicKeyOfString_short address H) as [He|He];
        eapply (history_invalid engine fetch connection params address _ Ha Hne); exact He.
Qed.

Lemma X12_witness :
  History.handler exampleEngine (fun _ => inl (ErrorOf (str "offline")))
    (History.mkConnection (str "https://rpc.example/?api-key=k"))
    (History.mkParams exampleEngine (Some "not-an-address"%string) None None None None None)
  = invalidAddress exampleEngine.
Proof.
  apply (proj2 (X12_history_address_checked exampleEngine _ _ _) "not-an-address"%string).
  - reflexivity.
  - discriminate.
  - left. vm_compute. reflexivity.
Defined.

(** X13: the message of a successful answer is chosen by the last of the
    conditions that holds, types before [until] before [before] before the
    limit; as the limit is 10 when none is given, the message with the
    limit is the least the handler says, and it never answers
    [Successfully retrieved transaction history], the message it starts
    from. *)
Theorem X13_history_message :
  forall (engine : Engine) (fetch : History.Fetch engine) (connection : History.Connection)
         (params : History.Params engine),
    let response := History.handler engine fetch connection params in
    History.r_message engine response <> str "Successfully retrieved transaction history"
    /\ (History.r_status engine response = "success"%string ->
        History.r_message engine response =
        match History.p_types engine params with
        | Some (t :: ts) =>
            str "Successfully retrieved " ++ join (str ", ") (t :: ts) ++ str " transactions"
        | _ =>
            if truthyString (History.p_until engine params) then
              str "Successfully retrieved transaction history until specified signature"
            else if truthyString (History.p_before engine params) then
              str "Successfully retrieved transaction history before specified signature"
            else
              str "Successfully retrieved "
              ++ numberToString engine (History.limitOf engine params)
              ++ str " most recent transactions"
        end)
    /\ (History.p_limit engine params = None -> History.limitOf engine params = numberOf engine 10).
Proof.
  intros engine fetch connection params response.
  assert (Hcases :
    response = inputNeeded engine \/ response = invalidAddress engine
    \/ (exists error, response = historyFailed engine error)
    \/ exists transactions, response = historySuccess engine params transactions).
  { subst response. unfold History.handler.
    destruct (History.p_address engine params) as [[|a address]|]; [now left| |now left].
    destruct (newPublicKey (String a address)) as [e|pk]; [right; now left|].
    destruct (History.getTransactionHistory _ _ _ _ _) as [error|transactions].
    - right. right. left. now exists error.
    - right. right. right. rewrite copy_transactions. now exists transactions. }
  split; [|split].
  - destruct Hcases as [-> |[-> |[[error ->]|[transactions ->]]]].
    + intros H. apply (f_equal (@length N)) in H. vm_compute in H. discriminate H.
    + intros H. apply (f_equal (@length N)) in H. vm_compute in H. discriminate H.
    + cbn [historyFailed History.r_message]. apply head_differs. discriminate.
    + apply successMessage_changed.
  - destruct Hcases as [-> |[-> |[[error ->]|[transactions ->]]]]; try discriminate.
    intros _. apply successMessage_cases.
  - intros H. unfold History.limitOf. now rewrite H.
Qed.

Lemma X13_witness :
  History.r_message exampleEngine
    (History.handler exampleEngine
       (fun _ => inr (mkHttpResponse exampleEngine true 200 (inr [])
                        (inr (VArray []))))
       (History.mkConnection (str "https://rpc.example/?api-key=k"))
       (History.mkParams exampleEngine (Some "11111111111111111111111111111111"%string)
          None None None None None))
  = str "Successfully retrieved 10 most recent transactions".
Proof.
  rewrite (proj1 (proj2 (X13_history_message exampleEngine _ _ _))).
  - vm_compute. reflexivity.
  - vm_compute. reflexivity.
Defined.

(** X14: without an API key in the endpoint of the connection (no
    [api-key=] in it) the call fails with [Missing Helius API key] before
    any request is made, for every valid address and all parameters that
    can be written in a query. *)
Theorem X14_history_missing_key :
  forall (engine : Engine) (fetch : History.Fetch engine) (connection : History.Connection)
         (params : History.Params engine) (address : string) (pk : PublicKey) (q : jsstring),
    History.p_address engine params = Some address ->
    publicKeyOfString address = inr pk ->
    History.queryString engine (History.optionsOf engine params) = inr q ->
    occurs false API_KEY (History.rpcEndpoint connection) = false ->
    History.handler engine fetch connection params
    = historyFailed engine (ErrorOf (str "Missing Helius API key")).
Proof.
  intros engine fetch connection params address pk q Ha Hpk Hq Ho.
  rewrite (history_valid engine fetch connection params address pk Ha Hpk).
  unfold History.getTransactionHistory, History.fetchTransactionHistory.
  rewrite Hq. cbn [andThen]. change (str "api-key=") with API_KEY.
  rewrite (split_nokey API_KEY _ Ho). reflexivity.
Qed.

Lemma X14_witness :
  History.handler exampleEngine (fun _ => inl (ErrorOf (str "offline")))
    (History.mkConnection (str "https://api.mainnet-beta.solana.com"))
    (History.mkParams exampleEngine (Some "11111111111111111111111111111111"%string)
       (Some 5) None None None None)
  = History.mkResponse exampleEngine "error" None
      (str "Failed to retrieve transaction history: Missing Helius API key")
      (Some (str "Error: Missing Helius API key"))
      (Some (str "Error: Missing Helius API key")).
Proof.
  eapply (X14_history_missing_key exampleEngine).
  - reflexivity.
  - vm_compute. reflexivity.
  - vm_compute. reflexivity.
  - vm_compute. reflexivity.
Defined.

(** X15: with a valid address and an endpoint that holds one API key, the
    handler makes one request and nothing of the network but its answer
    matters: the URL is the Helius address of the transactions of the
    address as it was given, with the key of the endpoint and a query that
    begins with the limit (10 when none was given). *)
Theorem X15_history_one_request :
  forall (engine : Engine) (connection : History.Connection)
         (params : History.Params engine) (address : string) (pk : PublicKey)
         (pre key q : jsstring),
    History.p_address engine params = Some address ->
    publicKeyOfString address = inr pk ->
    History.rpcEndpoint connection = pre ++ API_KEY ++ key ->
    untilLit false API_KEY (History.rpcEndpoint connection) = Some pre ->
    occurs false API_KEY key = false ->
    key <> [] ->
    History.queryString engine (History.optionsOf engine params) = inr q ->
    (exists rest, q = str "limit=" ++ rest)
    /\ forall fetch1 fetch2 : History.Fetch engine,
         fetch1 (requestUrl address key q) = fetch2 (requestUrl address key q) ->
         History.handler engine fetch1 connection params
         = History.handler engine fetch2 connection params.
Proof.
  intros engine connection params address pk pre key q Ha Hpk Hep Hu Ho Hk Hq.
  split; [now apply (queryString_limit engine params)|].
  intros fetch1 fetch2 Hf.
  rewrite !(history_valid engine _ connection params address pk Ha Hpk).
  rewrite !(history_request engine _ connection pk address params pre key q
              (toBase58_write address pk Hpk) Hep Hu Ho Hk Hq).
  now rewrite Hf.
Qed.

Lemma X15_witness :
  History.handler exampleEngine
    (fun url =>
       if bool_decide (url = str "https://api.helius.xyz/v0/addresses/11111111111111111111111111111111/transactions?api-key=k1&limit=10&type=TRANSFER%2CNFT_SALE")
       then inr (mkHttpResponse exampleEngine true 200 (inr [])
                   (inr (VArray [])))
       else inl (ErrorOf (str "not found")))
    (History.mkConnection (str "https://rpc.example/?api-key=k1"))
    (History.mkParams exampleEngine (Some "11111111111111111111111111111111"%string)
       None None None None (Some [str "TRANSFER"; str "NFT_SALE"]))
  = History.handler exampleEngine
      (fun _ => inr (mkHttpResponse exampleEngine true 200 (inr [])
                       (inr (VArray []))))
      (History.mkConnection (str "https://rpc.example/?api-key=k1"))
      (History.mkParams exampleEngine (Some "11111111111111111111111111111111"%string)
         None None None None (Some [str "TRANSFER"; str "NFT_SALE"])).
Proof.
  eapply (proj2 (X15_history_one_request exampleEngine _ _
                   "11111111111111111111111111111111"%string 0
                   (str "https://rpc.example/?") (str "k1")
                   (str "limit=10&type=TRANSFER%2CNFT_SALE") _ _ _ _ _ _ _)).
  reflexivity.
  Unshelve.
  - reflexivity.
  - vm_compute. reflexivity.
  - reflexivity.
  - vm_compute. reflexivity.
  - vm_compute. reflexivity.
  - discriminate.
  - vm_compute. reflexivity.
Defined.

(** X16: when the request is answered with a status that is not ok, the
    handler reports the error with the status and the body of the answer in
    its message. *)
Theorem X16_history_http_failure :
  forall (engine : Engine) (fetch : History.Fetch engine) (connection : History.Connection)
         (params : History.Params engine) (address : string) (pk : PublicKey)
         (pre key q body : jsstring) (response : HttpResponse engine),
    History.p_address engine params = Some address ->
    publicKeyOfString address = inr pk ->
    History.rpcEndpoint connection = pre ++ API_KEY ++ key ->
    untilLit false API_KEY (History.rpcEndpoint connection) = Some pre ->
    occurs false API_KEY key = false ->
    key <> [] ->
    History.queryString engine (History.optionsOf engine params) = inr q ->
    fetch (requestUrl address key q) = inr response ->
    ok engine response = false ->
    text engine response = inr body ->
    History.handler engine fetch connection params
    = historyFailed engine
        (ErrorOf (str "Helius API error: "
                  ++ numberToString engine (http_status engine response)
                  ++ str " " ++ body)).
Proof.
  intros engine fetch connection params address pk pre key q body response
    Ha Hpk Hep Hu Ho Hk Hq Hf Hok Ht.
  rewrite (history_valid engine _ connection params address pk Ha Hpk).
  rewrite (history_request engine _ connection pk address params pre key q
             (toBase58_write address pk Hpk) Hep Hu Ho Hk Hq).
  rewrite Hf. cbn [andThen]. rewrite Hok, Ht. reflexivity.
Qed.

Lemma X16_witness :
  History.handler exampleEngine
    (fun _ => inr (mkHttpResponse exampleEngine false 429 (inr (str "slow down"))
                     (inl (ErrorOf (str "no JSON")))))
    (History.mkConnection (str "https://rpc.example/?api-key=k1"))
    (History.mkParams exampleEngine (Some "11111111111111111111111111111111"%string)
       None None None None None)
  = History.mkResponse exampleEngine "error" None
      (str "Failed to retrieve transaction history: Helius API error: 429 slow down")
      (Some (str "Error: Helius API error: 429 slow down"))
      (Some (str "Error: Helius API error: 429 slow down")).
Proof.
  rewrite (X16_history_http_failure exampleEngine _ _ _
             "11111111111111111111111111111111"%string 0
             (str "https://rpc.example/?") (str "k1") (str "limit=10") (str "slow down")
             (mkHttpResponse exampleEngine false 429 (inr (str "slow down"))
                (inl (ErrorOf (str "no JSON")))));
    try reflexivity; try (vm_compute; reflexivity); discriminate.
Defined.

(** X17: no value of a parameter can add or change a parameter of the
    request: cut at its [&], the query gives back one part for each entry
    of [queryParams], in their order, each the name of the entry, [=] and
    its value encoded, and an encoded value holds none of the characters
    [& = # ? /], no space and no [+]. *)
Theorem X17_query_parts :
  forall (engine : Engine) (options : History.TransactionHistoryOptions engine) (q : jsstring),
    History.queryString engine options = inr q ->
    History.queryParams engine options <> [] ->
    Forall2
      (fun (kv : jsstring * jsstring) (part : jsstring) =>
         exists value,
           encodeURIComponent (faultMessage engine) (snd kv) = inr value
           /\ part = fst kv ++ str "=" ++ value
           /\ Forall (fun c => isDelimiter c = false) value)
      (History.queryParams engine options) (split (ch "&") q).
Proof.
  intros engine options q Hq Hne. unfold History.queryString in Hq.
  destruct (mapRaises _ (History.queryParams engine options)) as [e|parts] eqn:E;
    [discriminate Hq|].
  cbn [andThen] in Hq. assert (Hq' : q = join (str "&") parts) by congruence. clear Hq.
  apply mapRaises_Forall2 in E.
  assert (Hparts : Forall2
            (fun (kv : jsstring * jsstring) (part : jsstring) =>
               exists value,
                 encodeURIComponent (faultMessage engine) (snd kv) = inr value
                 /\ part = fst kv ++ str "=" ++ value
                 /\ Forall (fun c => isDelimiter c = false) value)
            (History.queryParams engine options) parts).
  { eapply Forall2_impl; [exact E|]. intros kv part H. cbv beta in H.
    destruct (encodeURIComponent (faultMessage engine) (snd kv)) as [e|value] eqn:Ev;
      [discriminate H|].
    cbn [andThen] in H. exists value. split; [reflexivity|]. split; [congruence|].
    now apply (encoded_plain (faultMessage engine) (length (snd kv)) (snd kv)). }
  subst q. change (str "&") with [ch "&"]. rewrite split_join; [exact Hparts| |].
  - intros ->. inversion Hparts as [Hnil|]. now apply Hne.
  - pose proof (queryParams_keys engine options) as Hkeys.
    clear -Hparts Hkeys. induction Hparts as [|kv part kvs parts (value & _ & -> & Hv) _ IH];
      [constructor|].
    inversion Hkeys as [|? ? Hk Hkeys']; subst. constructor; [|now apply IH].
    apply Forall_app. split; [exact Hk|]. constructor; [discriminate|].
    revert Hv. apply Forall_weaken. intros c. apply delimiter_amp.
Qed.

Lemma X17_witness :
  split (ch "&")
    (str "limit=5&before=a%26limit%3D1000&type=NFT_SALE%2CTRANSFER")
  = [str "limit=5"; str "before=a%26limit%3D1000"; str "type=NFT_SALE%2CTRANSFER"]
  /\ Forall2
       (fun (kv : jsstring * jsstring) (part : jsstring) =>
          exists value,
            encodeURIComponent v8Message (snd kv) = inr value
            /\ part = fst kv ++ str "=" ++ value
            /\ Forall (fun c => isDelimiter c = false) value)
       (History.queryParams exampleEngine
          (History.mkOptions exampleEngine (Some 5) (Some (str "a&limit=1000")) None
             (Some [str "NFT_SALE"; str "TRANSFER"]) None))
       (split (ch "&") (str "limit=5&before=a%26limit%3D1000&type=NFT_SALE%2CTRANSFER")).
Proof.
  split; [vm_compute; reflexivity|].
  apply (X17_query_parts exampleEngine).
  - vm_compute. reflexivity.
  - discriminate.
Defined.

(** X18: an answer with an ok status is read as a list of transactions
    exactly when its body is a JSON array with no item that is [null] or
    [undefined]: the handler then returns one transaction for each item,
    in order, each made from its item, member by member, with [blockTime]
    the [timestamp] of the item, a missing [memo], [type] or [fee]
    replaced by [null], [Unknown] or 0, and the status [Failed] or
    [Success] as the [err] of the item counts as true or not. An array
    with such an item, and a body that is no array, the object of an
    error for instance, make the call fail with a [TypeError]. *)
Theorem X18_history_answer :
  forall (engine : Engine) (fetch : History.Fetch engine) (connection : History.Connection)
         (params : History.Params engine) (address : string) (pk : PublicKey)
         (pre key q : jsstring) (response : HttpResponse engine)
         (data : Value (Number engine)),
    History.p_address engine params = Some address ->
    publicKeyOfString address = inr pk ->
    History.rpcEndpoint connection = pre ++ API_KEY ++ key ->
    untilLit false API_KEY (History.rpcEndpoint connection) = Some pre ->
    occurs false API_KEY key = false ->
    key <> [] ->
    History.queryString engine (History.optionsOf engine params) = inr q ->
    fetch (requestUrl address key q) = inr response ->
    ok engine response = true ->
    json engine response = inr data ->
    (forall items,
        data = VArray items -> Forall notNullish items ->
        exists transactions,
          History.handler engine fetch connection params
          = historySuccess engine params transactions
          /\ Forall2 (madeFrom engine) items transactions)
    /\ (forall items,
        data = VArray items -> ~ Forall notNullish items ->
        exists fault,
          History.handler engine fetch connection params
          = historyFailed engine (typeError (faultMessage engine) fault))
    /\ ((forall items, data <> VArray items) ->
        exists fault,
          History.handler engine fetch connection params
          = historyFailed engine (typeError (faultMessage engine) fault)).
Proof.
  intros engine fetch connection params address pk pre key q response data
    Ha Hpk Hep Hu Ho Hk Hq Hf Hok Hj.
  rewrite (history_valid engine _ connection params address pk Ha Hpk).
  rewrite (history_request engine _ connection pk address params pre key q
             (toBase58_write address pk Hpk) Hep Hu Ho Hk Hq).
  rewrite Hf. cbn [andThen]. rewrite Hok, Hj. cbn [negb andThen]. repeat split.
  - intros items -> Hitems.
    destruct (items_read engine items Hitems) as (transactions & Hm & Hall).
    rewrite Hm. now exists transactions.
  - intros items -> Hitems.
    destruct (items_fail engine items Hitems) as (fault & ->).
    now exists fault.
  - intros Hno. destruct data; try (eexists; reflexivity).
    exfalso. now apply (Hno items).
Qed.

Lemma X18_witness :
  exists fault,
    History.handler exampleEngine
      (fun _ => inr (mkHttpResponse exampleEngine true 200 (inr [])
                       (inr (VObject
                               [(str "error", VString (str "busy"))]))))
      (History.mkConnection (str "https://rpc.example/?api-key=k1"))
      (History.mkParams exampleEngine (Some "11111111111111111111111111111111"%string)
         None None None None None)
    = historyFailed exampleEngine (typeError v8Message fault).
Proof.
  apply (proj2 (proj2 (X18_history_answer exampleEngine
                  (fun _ => inr (mkHttpResponse exampleEngine true 200 (inr [])
                                   (inr (VObject
                                           [(str "error",
                                             VString (str "busy"))]))))
                  (History.mkConnection (str "https://rpc.example/?api-key=k1"))
                  (History.mkParams exampleEngine
                     (Some "11111111111111111111111111111111"%string)
                     None None None None None)
                  "11111111111111111111111111111111"%string 0
                  (str "https://rpc.example/?") (str "k1") (str "limit=10")
                  (mkHttpResponse exampleEngine true 200 (inr [])
                     (inr (VObject
                             [(str "error", VString (str "busy"))])))
                  (VObject
                     [(str "error", VString (str "busy"))])
                  eq_refl eq_refl eq_refl eq_refl eq_refl
                  ltac:(discriminate) eq_refl eq_refl eq_refl eq_refl))).
  intros items. discriminate.
Defined.

(** X19: the parameter [minContextSlot] has no effect: the handler hands
    it to the tool, which reads it nowhere, so it changes neither the
    request nor the answer. *)
Theorem X19_history_slot_ignored :
  forall (engine : Engine) (fetch : History.Fetch engine) (connection : History.Connection)
         (params : History.Params engine) (other : option (Number engine)),
    History.handler engine fetch connection
      (History.mkParams engine (History.p_address engine params)
         (History.p_limit engine params) (History.p_before engine params)
         (History.p_until engine params) other (History.p_types engine params))
    = History.handler engine fetch connection params.
Proof.
  intros engine fetch connection [address limit before until slot types] other.
  cbn [History.p_address History.p_limit History.p_before History.p_until History.p_types].
  unfold History.handler, History.getTransactionHistory, History.fetchTransactionHistory,
    History.queryString, History.queryParams, History.successMessage, History.optionsOf,
    History.limitOf.
  reflexivity.
Qed.

(** X20: a validator that is in neither list of vote accounts is answered
    with the error [Validator not found], and its balance is never asked
    for; the lists are searched for the address as it was given. *)
Theorem X20_validator_not_found :
  forall (connection : Validator.Connection) (address : string) (pk : PublicKey)
         (epochInfo : Validator.EpochInfo) (voteAccounts : Validator.VoteAccountStatus),
    publicKeyOfString address = inr pk ->
    Validator.getEpochInfo connection = inr epochInfo ->
    Validator.getVoteAccounts connection = inr voteAccounts ->
    Forall (fun account => Validator.votePubkey account <> address)
      (Validator.current voteAccounts ++ Validator.delinquent voteAccounts) ->
    Validator.handler connection address
    = Validator.mkResponse "error" None
        (str "Failed to get validator info: Validator not found").
Proof.
  intros connection address pk epochInfo voteAccounts Hpk He Hv Hall.
  unfold Validator.handler, newPublicKey. rewrite Hpk. cbn [andThen].
  unfold Validator.getValidatorInfo. rewrite He, Hv. cbn [andThen].
  rewrite (toBase58_write address pk Hpk), (find_none_address address _ Hall). reflexivity.
Qed.

Lemma X20_witness :
  Validator.handler
    (Validator.mkConnection (inr (Validator.mkEpochInfo 700))
       (inr (Validator.mkVoteAccountStatus
               [Validator.mkVoteAccountInfo "BPFLoaderUpgradeab1e11111111111111111111111"
                  "11111111111111111111111111111111" 5 true [] 10 9]
               []))
       (fun _ => inl (ErrorOf (str "offline"))))
    "11111111111111111111111111111111"
  = Validator.mkResponse "error" None
      (str "Failed to get validator info: Validator not found").
Proof.
  eapply (X20_validator_not_found _ _ 0).
  - vm_compute. reflexivity.
  - reflexivity.
  - reflexivity.
  - repeat constructor. discriminate.
Defined.

(** X21: a validator is taken from the first entry, current ones first,
    whose vote address is the address given; the answer copies that entry,
    adds the balance of its node and the epoch, and flags it delinquent
    exactly when the delinquent list holds the address, whichever list the
    entry came from. *)
Theorem X21_validator_found :
  forall (connection : Validator.Connection) (address : string) (pk nodeKey : PublicKey)
         (epochInfo : Validator.EpochInfo) (voteAccounts : Validator.VoteAccountStatus)
         (earlier later : list Validator.VoteAccountInfo)
         (account : Validator.VoteAccountInfo) (balance : N),
    publicKeyOfString address = inr pk ->
    Validator.getEpochInfo connection = inr epochInfo ->
    Validator.getVoteAccounts connection = inr voteAccounts ->
    Validator.current voteAccounts ++ Validator.delinquent voteAccounts
    = earlier ++ account :: later ->
    Forall (fun a => Validator.votePubkey a <> address) earlier ->
    Validator.votePubkey account = address ->
    publicKeyOfString (Validator.nodePubkey account) = inr nodeKey ->
    Validator.getBalance connection nodeKey = inr balance ->
    Validator.handler connection address
    = Validator.mkResponse "success"
        (Some (Validator.mkValidatorInfo
                 (Validator.nodePubkey account)
                 address
                 (Validator.commission account)
                 (Validator.activatedStake account)
                 (Validator.epochVoteAccount account)
                 (Validator.epochCredits account)
                 (existsb (fun a => String.eqb (Validator.votePubkey a) address)
                    (Validator.delinquent voteAccounts))
                 (Validator.lastVote account)
                 balance
                 (Validator.epoch epochInfo)))
        (str "Successfully retrieved validator information").
Proof.
  intros connection address pk nodeKey epochInfo voteAccounts earlier later account balance
    Hpk He Hv Hsplit Hearlier Hvote Hnode Hb.
  unfold Validator.handler, newPublicKey. rewrite Hpk. cbn [andThen].
  unfold Validator.getValidatorInfo. rewrite He, Hv. cbn [andThen].
  rewrite (toBase58_write address pk Hpk), Hsplit.
  rewrite (find_first_address address earlier account later Hearlier Hvote).
  unfold newPublicKey. rewrite Hnode. cbn [andThen]. rewrite Hb. cbn [andThen].
  now rewrite Hvote.
Qed.

Lemma X21_witness :
  Validator.info
    (Validator.handler
       (Validator.mkConnection (inr (Validator.mkEpochInfo 700))
          (inr (Validator.mkVoteAccountStatus
                  [Validator.mkVoteAccountInfo "11111111111111111111111111111111"
                     "BPFLoaderUpgradeab1e11111111111111111111111" 5 true [] 10 9]
                  [Validator.mkVoteAccountInfo "11111111111111111111111111111111"
                     "11111111111111111111111111111111" 1 false [] 100 2]))
          (fun _ => inr 42))
       "11111111111111111111111111111111")
  = Some (Validator.mkValidatorInfo "BPFLoaderUpgradeab1e11111111111111111111111"
            "11111111111111111111111111111111" 10 5 true [] true 9 42 700).
Proof.
  rewrite (X21_validator_found _ "11111111111111111111111111111111" 0
             BPF_UPGRADEABLE_LOADER_ID (Validator.mkEpochInfo 700)
             (Validator.mkVoteAccountStatus
                [Validator.mkVoteAccountInfo "11111111111111111111111111111111"
                   "BPFLoaderUpgradeab1e11111111111111111111111" 5 true [] 10 9]
                [Validator.mkVoteAccountInfo "11111111111111111111111111111111"
                   "11111111111111111111111111111111" 1 false [] 100 2])
             []
             [Validator.mkVoteAccountInfo "11111111111111111111111111111111"
                "11111111111111111111111111111111" 1 false [] 100 2]
             (Validator.mkVoteAccountInfo "11111111111111111111111111111111"
                "BPFLoaderUpgradeab1e11111111111111111111111" 5 true [] 10 9) 42);
    try (vm_compute; reflexivity); try reflexivity.
  constructor.
Defined.

(** X22: the action of the priority fee never reports an error: whatever
    [fetch] does and whatever the reply holds, the handler answers
    [success], with the message the parameters select and an estimate
    whose [low], [medium], [high] and [suggested] are neither [undefined]
    nor [null]. *)
Theorem X22_fee_always_succeeds :
  forall (engine : Engine) (fetch : Fee.Fetch engine) (connection : Fee.Connection)
         (params : Fee.Params),
  exists estimate,
    Fee.handler engine fetch connection params
    = Fee.mkResponse engine "success" (Some estimate) (Fee.successMessage params) None None
    /\ present (Fee.low engine estimate) = true
    /\ present (Fee.medium engine estimate) = true
    /\ present (Fee.high engine estimate) = true
    /\ present (Fee.suggested engine estimate) = true.
Proof.
  intros engine fetch connection params.
  rewrite fee_handler. eexists. split; [reflexivity|].
  destruct (replyEstimate_cases engine (feeTimes params)
              (fetch (feeRequest engine connection params)))
    as [->|(response & data & _ & _ & Hr)].
  - apply defaults_present.
  - destruct (readReply_cases engine _ _ _ Hr) as [->|(? & ? & ? & H)].
    + apply defaults_present.
    + tauto.
Qed.

(** X23: an estimate of the action that is not the default one was read
    from the reply to the request: [fetch] gave a response whose body is
    JSON with no [error] that counts as true and with a [result] whose
    [priorityFeeLevels] counts as true. That member is returned as it
    came, and the time estimates are those of the method used. In every
    other case, a failed request or a reply with an error among them, the
    caller gets the defaults under [success]. *)
Theorem X23_fee_defaults_unless_levels :
  forall (engine : Engine) (fetch : Fee.Fetch engine) (connection : Fee.Connection)
         (params : Fee.Params),
    Fee.r_estimate engine (Fee.handler engine fetch connection params)
    <> Some (Fee.getDefaultPriorityFees engine) ->
    exists response data error result levels estimate,
      fetch (feeRequest engine connection params) = inr response
      /\ json engine response = inr data
      /\ get engine data "error" = inr error /\ toBoolean engine error = false
      /\ get engine data "result" = inr result /\ toBoolean engine result = true
      /\ get engine result "priorityFeeLevels" = inr levels
      /\ toBoolean engine levels = true
      /\ Fee.r_estimate engine (Fee.handler engine fetch connection params) = Some estimate
      /\ Fee.priorityFeeLevels engine estimate = levels
      /\ Fee.timeEstimates engine estimate = feeTimes params.
Proof.
  intros engine fetch connection params. rewrite fee_handler. cbn [Fee.r_estimate].
  intros Hne.
  destruct (replyEstimate_cases engine (feeTimes params)
              (fetch (feeRequest engine connection params)))
    as [E|(response & data & Hf & Hj & Hr)]; [congruence|].
  destruct (readReply_cases engine _ _ _ Hr)
    as [E|(error & result & levels & H1 & H2 & H3 & H4 & H5 & H6 & H7 & H8 & _)];
    [congruence|].
  exists response, data, error, result, levels. eexists.
  repeat (split; [eassumption || reflexivity|]). assumption.
Qed.

Lemma X23_witness :
  exists response data error result levels estimate,
    @inr Exception (HttpResponse exampleEngine)
      (mkHttpResponse exampleEngine true 200 (inr [])
         (inr (VObject
                 [(str "result",
                   VObject
                     [(str "priorityFeeLevels",
                       VObject [(str "medium", VNumber 5)])])])))
    = inr response
    /\ json exampleEngine response = inr data
    /\ get exampleEngine data "error" = inr error /\ toBoolean exampleEngine error = false
    /\ get exampleEngine data "result" = inr result
    /\ toBoolean exampleEngine result = true
    /\ get exampleEngine result "priorityFeeLevels" = inr levels
    /\ toBoolean exampleEngine levels = true
    /\ Fee.r_estimate exampleEngine
         (Fee.handler exampleEngine
            (fun _ : Fee.Request =>
               inr (mkHttpResponse exampleEngine true 200 (inr [])
                      (inr (VObject
                              [(str "result",
                                VObject
                                  [(str "priorityFeeLevels",
                                    VObject [(str "medium", VNumber 5)])])]))))
            (Fee.mkConnection (str "https://rpc.example/"))
            (Fee.mkParams None None None))
       = Some estimate
    /\ Fee.priorityFeeLevels exampleEngine estimate = levels
    /\ Fee.timeEstimates exampleEngine estimate = feeTimes (Fee.mkParams None None None).
Proof.
  apply (X23_fee_defaults_unless_levels exampleEngine
           (fun _ : Fee.Request =>
              inr (mkHttpResponse exampleEngine true 200 (inr [])
                     (inr (VObject
                             [(str "result",
                               VObject
                                 [(str "priorityFeeLevels",
                                   VObject [(str "medium", VNumber 5)])])]))))
           (Fee.mkConnection (str "https://rpc.example/"))
           (Fee.mkParams None None None)).
  intros H. apply (f_equal (option_map (Fee.suggested exampleEngine))) in H.
  vm_compute in H. discriminate H.
Defined.

(** X24: the action makes one request, and the answer depends on nothing
    else that [fetch] does: a POST to the endpoint of the connection whose
    body asks [getPriorityFeeEstimate] for every level over 150 slots with
    votes included, for the transaction where the method is
    [transaction] and a transaction is given, and otherwise for the
    account keys given, or Jupiter's. *)
Theorem X24_fee_one_request :
  forall (engine : Engine) (fetch fetch' : Fee.Fetch engine) (connection : Fee.Connection)
         (params : Fee.Params),
    fetch (feeRequest engine connection params)
    = fetch' (feeRequest engine connection params) ->
    Fee.handler engine fetch connection params
    = Fee.handler engine fetch' connection params.
Proof.
  intros engine fetch fetch' connection params H.
  now rewrite !fee_handler, H.
Qed.

Lemma X24_witness :
  Fee.handler exampleEngine
    (fun _ : Fee.Request => inl (ErrorOf (str "fetch failed")))
    (Fee.mkConnection (str "https://rpc.example/"))
    (Fee.mkParams (Some Fee.TRANSACTION) (Some [str "k1"]) None)
  = Fee.handler exampleEngine
      (fun request : Fee.Request =>
         if String.eqb (Fee.req_method request) "POST"
         then inl (ErrorOf (str "fetch failed"))
         else inr (mkHttpResponse exampleEngine true 200 (inr []) (inr VNull)))
      (Fee.mkConnection (str "https://rpc.example/"))
      (Fee.mkParams (Some Fee.TRANSACTION) (Some [str "k1"]) None).
Proof.
  apply (X24_fee_one_request exampleEngine
           (fun _ : Fee.Request => inl (ErrorOf (str "fetch failed")))
           (fun request : Fee.Request =>
              if String.eqb (Fee.req_method request) "POST"
              then inl (ErrorOf (str "fetch failed"))
              else inr (mkHttpResponse exampleEngine true 200 (inr []) (inr VNull)))
           (Fee.mkConnection (str "https://rpc.example/"))
           (Fee.mkParams (Some Fee.TRANSACTION) (Some [str "k1"]) None)).
  reflexivity.
Defined.

(** X25: asked for the transaction method without a transaction, the
    tool estimates by account keys. [estimatePriorityFee] does so with
    the account keys and the options of the caller;
    [estimatePriorityFeeByTransaction] called by itself drops its
    options and asks for Jupiter's key with the defaults. *)
Theorem X25_fee_without_transaction :
  forall (engine : Engine) (fetch : Fee.Fetch engine) (connection : Fee.Connection)
         (keys : option (list jsstring)) (tx : option jsstring)
         (lookback : option (Number engine)) (vote : option bool),
    truthyString tx = false ->
    Fee.estimatePriorityFee engine fetch connection
      (Some (Fee.mkOptions engine (Some Fee.TRANSACTION) keys tx lookback vote))
    = Fee.estimatePriorityFeeByAccountKeys engine fetch connection keys
        (Some (Fee.mkEstimateOptions engine lookback vote))
    /\ Fee.estimatePriorityFeeByTransaction engine fetch connection tx
         (Some (Fee.mkEstimateOptions engine lookback vote))
       = Fee.estimatePriorityFeeByAccountKeys engine fetch connection None None.
Proof.
  intros engine fetch connection keys tx lookback vote Ht. split.
  - unfold Fee.estimatePriorityFee, Fee.methodOf.
    cbn [Fee.method Fee.accountKeys Fee.serializedTransaction Fee.o_lookbackSlots
         Fee.o_includeVote].
    rewrite Ht. change (falsy Fee.TRANSACTION) with false. cbv iota.
    rewrite bool_decide_eq_true_2 by reflexivity.
    now rewrite accountKeys_estimate.
  - now apply transaction_missing.
Qed.

Lemma X25_witness :
  Fee.estimatePriorityFee exampleEngine
    (fun _ : Fee.Request => inl (ErrorOf (str "fetch failed")))
    (Fee.mkConnection (str "https://rpc.example/"))
    (Some (Fee.mkOptions exampleEngine (Some Fee.TRANSACTION) (Some [str "k1"]) (Some [])
             (Some 20) (Some false)))
  = Fee.estimatePriorityFeeByAccountKeys exampleEngine
      (fun _ : Fee.Request => inl (ErrorOf (str "fetch failed")))
      (Fee.mkConnection (str "https://rpc.example/"))
      (Some [str "k1"]) (Some (Fee.mkEstimateOptions exampleEngine (Some 20) (Some false)))
  /\ Fee.estimatePriorityFeeByTransaction exampleEngine
       (fun _ : Fee.Request => inl (ErrorOf (str "fetch failed")))
       (Fee.mkConnection (str "https://rpc.example/"))
       (Some [])
       (Some (Fee.mkEstimateOptions exampleEngine (Some 20) (Some false)))
     = Fee.estimatePriorityFeeByAccountKeys exampleEngine
         (fun _ : Fee.Request => inl (ErrorOf (str "fetch failed")))
         (Fee.mkConnection (str "https://rpc.example/")) None None.
Proof.
  apply (X25_fee_without_transaction exampleEngine
           (fun _ : Fee.Request => inl (ErrorOf (str "fetch failed")))
           (Fee.mkConnection (str "https://rpc.example/"))
           (Some [str "k1"]) (Some []) (Some 20) (Some false)).
  reflexivity.
Defined.
